(** * DiskTrend: the scan engine, its snapshot store and the growth query

    A shallow embedding of [src/disktrend/scanner.py], [models.py] and
    [scheduler.py].  Paths are strings, Python integers are [Z], the
    [dir_sizes] dictionary is a [gmap string _], the skip set a
    [gset string], and the SQLite tables are lists of rows in insertion
    order. *)

From Stdlib Require Import ZArith QArith Qround Lqa Bool Ascii String List Lia Permutation Sorted.
From stdpp Require Import gmap strings list fin_maps.

Local Open Scope Z_scope.

(** ** POSIX paths (the parts of [os.path] the scanner calls) *)

Module Path.

Definition sep : string := "/".

(** [s.startswith('/')] *)
Definition starts_with_sep (s : string) : bool :=
  match s with
  | String c _ => Ascii.eqb c "/"
  | EmptyString => false
  end.

(** [s.endswith('/')] *)
Fixpoint ends_with_sep (s : string) : bool :=
  match s with
  | EmptyString => false
  | String c EmptyString => Ascii.eqb c "/"
  | String _ rest => ends_with_sep rest
  end.

(** [posixpath.join(a, b)]: an absolute [b] replaces [a]; otherwise the
    two are glued with exactly one separator between them. *)
Definition join (a b : string) : string :=
  if starts_with_sep b then b
  else if String.eqb a "" || ends_with_sep a then a +:+ b
  else a +:+ sep +:+ b.

(** [str.startswith] *)
Definition startswith (s pre : string) : bool := String.prefix pre s.

(** ['/' in s] *)
Fixpoint has_sep (s : string) : bool :=
  match s with
  | EmptyString => false
  | String c rest => Ascii.eqb c "/" || has_sep rest
  end.

(** [s == '/' * len(s)] *)
Fixpoint all_sep (s : string) : bool :=
  match s with
  | EmptyString => true
  | String c rest => Ascii.eqb c "/" && all_sep rest
  end.

(** [s.rstrip('/')] *)
Fixpoint rstrip_sep (s : string) : string :=
  match s with
  | EmptyString => EmptyString
  | String c rest => if all_sep s then EmptyString else String c (rstrip_sep rest)
  end.

(** [p[:p.rfind('/') + 1]] *)
Fixpoint head_part (p : string) : string :=
  match p with
  | EmptyString => EmptyString
  | String c rest => if has_sep p then String c (head_part rest) else EmptyString
  end.

(** [posixpath.basename(p)], that is [p[p.rfind('/') + 1:]] *)
Fixpoint basename (p : string) : string :=
  match p with
  | EmptyString => EmptyString
  | String c rest => if has_sep p then basename rest else p
  end.

(** [posixpath.dirname(p)] *)
Definition dirname (p : string) : string :=
  let head := head_part p in
  if negb (String.eqb head "") && negb (all_sep head) then rstrip_sep head
  else head.

(** [s.split('/')] *)
Fixpoint split_sep (s : string) : list string :=
  match s with
  | EmptyString => [EmptyString]
  | String c rest =>
    if Ascii.eqb c "/" then EmptyString :: split_sep rest
    else match split_sep rest with
         | piece :: pieces => String c piece :: pieces
         | [] => [String c EmptyString]
         end
  end.

(** [[x for x in s.split(sep) if x]] *)
Definition components (s : string) : list string :=
  filter (fun x => x ≠ EmptyString) (split_sep s).

(** [len(os.path.commonprefix([a, b]))] on two lists of components. *)
Fixpoint commonprefix_len (a b : list string) : nat :=
  match a, b with
  | x :: a', y :: b' => if String.eqb x y then S (commonprefix_len a' b') else 0
  | _, _ => 0
  end.

(** [posixpath.relpath(path, start)] for two absolute, normalised paths:
    on those [abspath] is the identity, and the scanner only ever passes
    the normalised mount point and paths the walk builds below it. *)
Definition relpath (path start : string) : string :=
  let start_list := components start in
  let path_list := components path in
  let i := commonprefix_len start_list path_list in
  match (replicate (length start_list - i) ".." ++ drop i path_list)%list with
  | [] => "."
  | r :: rs => foldl join r rs
  end.

End Path.

(** ** The scanner object *)

Record exn := Exn { exn_type : string; exn_msg : string }.

(** What a progress callback is handed (scanner.py, lines 175-180). *)
Record progress := Progress {
  current_path : string;
  dirs_scanned : Z;
  files_scanned : Z;
  size_scanned : Z
}.

(** The fields [DiskScanner.__init__] sets.  A callback is user code: it
    returns normally ([None]) or raises. *)
Record DiskScanner := MkScanner {
  skip_paths : gset string;
  max_depth : Z;
  _running : bool;
  _cancelled : bool;
  _progress_callback : option (progress -> option exn);
  BATCH_SIZE : nat
}.

(** [self.default_skip] (scanner.py, lines 30-33). *)
Definition default_skip : gset string :=
  list_to_set ["/proc"; "/sys"; "/dev"; "/run"; "/snap";
               "/var/snap"; "/tmp"; "/var/tmp"].

(** [DiskScanner.__init__(db, skip_paths, max_depth)]; [skip_paths=None]
    is the empty list. *)
Definition DiskScanner_init (user_skip : option (list string)) (depth : Z)
  : DiskScanner :=
  {| skip_paths := list_to_set (default [] user_skip) ∪ default_skip;
     max_depth := depth;
     _running := false;
     _cancelled := false;
     _progress_callback := None;
     BATCH_SIZE := 1000 |}.

(** [DiskScanner._should_skip] (scanner.py, lines 53-62). *)
Definition _should_skip (self : DiskScanner) (path : string) : bool :=
  if bool_decide (path ∈ skip_paths self) then true
  else existsb (fun skip => Path.startswith path (skip +:+ "/"))
               (elements (skip_paths self)).

(** ** Facts about strings and paths *)

Section StringFacts.

Lemma app_cons (c : ascii) (s t : string) :
  String c s +:+ t = String c (s +:+ t).
Proof. reflexivity. Qed.

Lemma app_nil_l (t : string) : "" +:+ t = t.
Proof. reflexivity. Qed.

Lemma app_empty_r (s : string) : s +:+ "" = s.
Proof. induction s as [|c s IH]; [done | by rewrite app_cons, IH]. Qed.

Lemma app_assoc_s (a b c : string) : (a +:+ b) +:+ c = a +:+ b +:+ c.
Proof. induction a as [|x a IH]; [done | by rewrite !app_cons, IH]. Qed.

Lemma prefix_app (p r : string) : String.prefix p (p +:+ r) = true.
Proof.
  induction p as [|c p IH].
  - by destruct r.
  - rewrite app_cons. simpl. destruct (ascii_dec c c); [exact IH | done].
Qed.

Lemma prefix_inv (p s : string) :
  String.prefix p s = true → ∃ r, s = p +:+ r.
Proof.
  revert s. induction p as [|c p IH]; intros s H.
  - by exists s.
  - destruct s as [|d s]; simpl in H; [done|].
    destruct (ascii_dec c d) as [->|]; [|done].
    destruct (IH s H) as [r ->]. by exists r.
Qed.

Lemma startswith_iff (s pre : string) :
  Path.startswith s pre = true ↔ ∃ r, s = pre +:+ r.
Proof.
  unfold Path.startswith. split.
  - apply prefix_inv.
  - intros [r ->]. apply prefix_app.
Qed.

End StringFacts.

Lemma should_skip_iff (self : DiskScanner) (path : string) :
  _should_skip self path = true ↔
  ∃ skip, skip ∈ skip_paths self ∧
          (path = skip ∨ ∃ rest, path = skip +:+ "/" +:+ rest).
Proof.
  unfold _should_skip. case_bool_decide as Hin.
  - split; [|done]. intros _. exists path. auto.
  - rewrite existsb_exists. split.
    + intros (skip & Hel & Hpre).
      apply list_elem_of_In, elem_of_elements in Hel.
      apply startswith_iff in Hpre as [r ->].
      exists skip. split; [done|]. right. exists r. by rewrite app_assoc_s.
    + intros (skip & Hel & [-> | [rest ->]]); [done|].
      exists skip. split.
      * by apply list_elem_of_In, elem_of_elements.
      * apply startswith_iff. exists rest. by rewrite app_assoc_s.
Qed.

(** C8.  The exclusion predicate of a freshly built scanner answers true
    exactly for a path that equals a skip path or continues one with the
    separator, the skip set being the configured list united with the
    built-in roots whatever the configuration; a plain string prefix does
    not count: "/var/tmpX" is not excluded on account of "/var/tmp". *)
Theorem should_skip_exact_or_descendant :
  (∀ (user_skip : option (list string)) (depth : Z) (path : string),
     _should_skip (DiskScanner_init user_skip depth) path = true ↔
     ∃ skip, skip ∈ (list_to_set (default [] user_skip) ∪ default_skip
                     : gset string) ∧
             (path = skip ∨ ∃ rest, path = skip +:+ Path.sep +:+ rest)) ∧
  (∀ depth, _should_skip (DiskScanner_init (Some ["/var/tmp"]) depth)
                         "/var/tmpX" = false) ∧
  (∀ user_skip depth, default_skip ⊆ skip_paths (DiskScanner_init user_skip depth)).
Proof.
  split; [|split].
  - intros. apply should_skip_iff.
  - intros. by vm_compute.
  - intros. simpl. apply union_subseteq_r.
Qed.

(** ** The store ([models.py])

    Each table is the list of its rows in insertion order.  Timestamps
    are readings of a logical clock kept with the store: every
    [datetime.now()] of [models.py] takes the current reading and
    advances it.  [seq_snapshots] is SQLite's AUTOINCREMENT counter of
    the [snapshots] table (the largest id handed out so far). *)

Inductive snapshot_status := running | completed | failed.

#[export] Instance snapshot_status_eq_dec : EqDecision snapshot_status.
Proof. solve_decision. Defined.

Module Snapshot.
Record t := Mk {
  id : Z;
  mount_point : string;
  started_at : Z;
  completed_at : option Z;
  total_size : Z;
  total_files : Z;
  total_dirs : Z;
  status : snapshot_status
}.
End Snapshot.

Module Entry.
Record t := Mk {
  snapshot_id : Z;
  path : string;
  name : string;
  size : Z;
  file_count : Z;
  dir_count : Z;
  depth : Z;
  parent_path : option string;
  is_dir : Z;
  error : option string
}.
End Entry.

Module ScanError.
Record t := Mk {
  snapshot_id : Z;
  path : string;
  error_type : string;
  error_message : string;
  timestamp : Z
}.
End ScanError.

Record Database := MkDb {
  snapshots : list Snapshot.t;
  entries : list Entry.t;
  scan_errors : list ScanError.t;
  seq_snapshots : nat;
  clock : Z
}.

Definition empty_db : Database :=
  {| snapshots := []; entries := []; scan_errors := [];
     seq_snapshots := 0%nat; clock := 0 |}.

(** The scanner's per-directory dictionary (scanner.py, lines 123-132). *)
Record dir_entry := MkDirEntry {
  de_path : string;
  de_name : string;
  de_size : Z;
  de_file_count : Z;
  de_dir_count : Z;
  de_depth : Z;
  de_parent_path : option string;
  de_is_dir : Z
}.

(** [Database.create_snapshot] (lines 91-100): returns [cursor.lastrowid]. *)
Definition create_snapshot (db : Database) (mount_point : string)
  : Z * Database :=
  let new_id := Z.of_nat (S (seq_snapshots db)) in
  (new_id,
   {| snapshots := snapshots db ++
        [Snapshot.Mk new_id mount_point (clock db) None 0 0 0 running];
      entries := entries db;
      scan_errors := scan_errors db;
      seq_snapshots := S (seq_snapshots db);
      clock := clock db + 1 |}).

(** [UPDATE snapshots SET ... WHERE id = ?] *)
Definition update_snapshot (f : Snapshot.t → Snapshot.t) (sid : Z)
  (rows : list Snapshot.t) : list Snapshot.t :=
  map (fun s => if Snapshot.id s =? sid then f s else s) rows.

(** [Database.complete_snapshot] (lines 102-114). *)
Definition complete_snapshot (db : Database) (sid total_size total_files
  total_dirs : Z) : Database :=
  {| snapshots := update_snapshot
       (fun s => Snapshot.Mk (Snapshot.id s) (Snapshot.mount_point s)
                   (Snapshot.started_at s) (Some (clock db))
                   total_size total_files total_dirs completed)
       sid (snapshots db);
     entries := entries db;
     scan_errors := scan_errors db;
     seq_snapshots := seq_snapshots db;
     clock := clock db + 1 |}.

(** [Database.fail_snapshot] (lines 116-130): the row keeps its totals,
    and one error row with the fixed path and type is appended.  The
    error row's timestamp is the column default, read after the update's. *)
Definition fail_snapshot (db : Database) (sid : Z) (error : string)
  : Database :=
  {| snapshots := update_snapshot
       (fun s => Snapshot.Mk (Snapshot.id s) (Snapshot.mount_point s)
                   (Snapshot.started_at s) (Some (clock db))
                   (Snapshot.total_size s) (Snapshot.total_files s)
                   (Snapshot.total_dirs s) failed)
       sid (snapshots db);
     entries := entries db;
     scan_errors := scan_errors db ++
       [ScanError.Mk sid "/" "FATAL" error (clock db + 1)];
     seq_snapshots := seq_snapshots db;
     clock := clock db + 2 |}.

(** One tuple of the [executemany] of [insert_entries_batch];
    [e.get('error')] is [None] for every dictionary the scanner builds. *)
Definition entry_row (sid : Z) (e : dir_entry) : Entry.t :=
  Entry.Mk sid (de_path e) (de_name e) (de_size e) (de_file_count e)
           (de_dir_count e) (de_depth e) (de_parent_path e) (de_is_dir e)
           None.

(** [Database.insert_entries_batch] (lines 132-147). *)
Definition insert_entries_batch (db : Database) (sid : Z)
  (batch : list dir_entry) : Database :=
  match batch with
  | [] => db
  | _ =>
    {| snapshots := snapshots db;
       entries := entries db ++ map (entry_row sid) batch;
       scan_errors := scan_errors db;
       seq_snapshots := seq_snapshots db;
       clock := clock db |}
  end.

(** [Database.log_error] (lines 149-158). *)
Definition log_error (db : Database) (sid : Z) (path error_type message : string)
  : Database :=
  {| snapshots := snapshots db;
     entries := entries db;
     scan_errors := scan_errors db ++
       [ScanError.Mk sid path error_type message (clock db)];
     seq_snapshots := seq_snapshots db;
     clock := clock db + 1 |}.

(** [Database.get_running_snapshot] (lines 284-292), as a count of the
    rows it selects from. *)
Definition running_snapshots (db : Database) : list Snapshot.t :=
  filter (fun s => Snapshot.status s = running) (snapshots db).

(** ** The growth query ([Database.get_top_growth], lines 250-282)

    SQL integers are [Z], a NULL is [None], and REAL values are exact
    rationals: [* 100.0 / prev.size] is exact division and [ROUND(x, 2)]
    rounds to the nearest hundredth, halves away from zero.  Ties of an
    ORDER BY keep the order of the rows they are taken from. *)

Module Growth.
Record row := Mk {
  path : string;
  name : string;
  current_size : Z;
  previous_size : option Z;
  growth : Z;
  growth_percent : Q
}.
End Growth.

(** Stable insertion sort, largest key first. *)
Fixpoint insert_desc {A} (key : A → Z) (x : A) (l : list A) : list A :=
  match l with
  | [] => [x]
  | y :: l' => if key y <=? key x then x :: l else y :: insert_desc key x l'
  end.

Definition sort_desc {A} (key : A → Z) (l : list A) : list A :=
  foldr (insert_desc key) [] l.

(** [LIMIT n]: a negative bound is no bound in SQLite. *)
Definition sql_limit {A} (n : Z) (l : list A) : list A :=
  if n <? 0 then l else take (Z.to_nat n) l.

(** The sort key of [completed_at]: NULL sorts below every value (the
    clock's readings are not negative). *)
Definition completed_key (s : Snapshot.t) : Z :=
  match Snapshot.completed_at s with
  | Some t => t
  | None => -1
  end.

(** [recent]: the ids of the two completed snapshots completed last. *)
Definition recent (db : Database) : list Z :=
  map Snapshot.id
    (take 2 (sort_desc completed_key
       (filter (fun s => Snapshot.status s = completed) (snapshots db)))).

(** [latest] and [previous]: the scalar subqueries, NULL when empty. *)
Definition latest (db : Database) : option Z := head (recent db).
Definition previous (db : Database) : option Z := head (drop 1 (recent db)).

(** [ROUND(x, 2)] *)
Definition round_half_away (x : Q) : Z :=
  if Qle_bool 0 x then Qfloor (x + (1 # 2))%Q
  else - Qfloor (- x + (1 # 2))%Q.

Definition sql_round2 (x : Q) : Q :=
  (round_half_away (x * inject_Z 100) # 100)%Q.

(** The SELECT list for one row of the join. *)
Definition growth_row (curr : Entry.t) (prev : option Entry.t) : Growth.row :=
  let prev_size := Entry.size <$> prev in
  Growth.Mk (Entry.path curr) (Entry.name curr) (Entry.size curr) prev_size
    (Entry.size curr - default 0 prev_size)
    (match prev_size with
     | Some p =>
       if 0 <? p
       then sql_round2 (inject_Z ((Entry.size curr - p) * 100) / inject_Z p)
       else inject_Z 100
     | None => inject_Z 100
     end).

(** [entries curr LEFT JOIN entries prev ON curr.path = prev.path AND
    prev.snapshot_id = (SELECT id FROM previous)]: one row per match, and
    one row with a NULL right side for a [curr] without a match. *)
Definition join_previous (db : Database) (curr : Entry.t)
  : list (Entry.t * option Entry.t) :=
  match filter (fun prev =>
                  Entry.path curr = Entry.path prev ∧
                  previous db = Some (Entry.snapshot_id prev))
               (entries db) with
  | [] => [(curr, None)]
  | ms => map (fun prev => (curr, Some prev)) ms
  end.

Definition left_join_previous (db : Database)
  : list (Entry.t * option Entry.t) :=
  flat_map (join_previous db) (entries db).

Definition get_top_growth (db : Database) (limit : Z) : list Growth.row :=
  sql_limit limit
    (sort_desc Growth.growth
       (filter (fun r => 0 < Growth.growth r)
          (map (fun cp => growth_row cp.1 cp.2)
             (filter (fun cp =>
                        latest db = Some (Entry.snapshot_id cp.1) ∧
                        Entry.is_dir cp.1 = 1)
                     (left_join_previous db))))).




(** *** Sorting *)

Section SortDesc.
Context {A : Type} (key : A → Z).

Let ge_key (a b : A) : Prop := key b ≤ key a.

Lemma insert_desc_perm (x : A) (l : list A) :
  Permutation (insert_desc key x l) (x :: l).
Proof.
  induction l as [|y l IH]; simpl; [done|].
  destruct (key y <=? key x); [done|].
  rewrite IH. apply perm_swap.
Qed.

Lemma sort_desc_perm (l : list A) : Permutation (sort_desc key l) l.
Proof.
  induction l as [|x l IH]; simpl; [done|].
  rewrite insert_desc_perm. by constructor.
Qed.

Lemma insert_desc_sorted (x : A) (l : list A) :
  StronglySorted ge_key l → StronglySorted ge_key (insert_desc key x l).
Proof.
  induction 1 as [|y l Hs IH Hall]; simpl.
  - repeat constructor.
  - destruct (key y <=? key x) eqn:E.
    + apply Z.leb_le in E. constructor; [by constructor|].
      constructor; [exact E|].
      eapply Forall_impl; [exact Hall|]. unfold ge_key. intros; simpl in *; lia.
    + apply Z.leb_gt in E. constructor; [exact IH|].
      rewrite insert_desc_perm. constructor; [unfold ge_key; lia | exact Hall].
Qed.

Lemma sort_desc_sorted (l : list A) : StronglySorted ge_key (sort_desc key l).
Proof.
  induction l as [|x l IH]; simpl; [constructor|].
  by apply insert_desc_sorted.
Qed.

End SortDesc.

(** *** The join against a previous snapshot with one row per path *)

Lemma filter_none {A} (P : A → Prop) `{∀ x, Decision (P x)} (l : list A) :
  (∀ x, x ∈ l → ¬ P x) → filter P l = [].
Proof.
  induction l as [|a l IH]; intros Hl; [done|].
  rewrite filter_cons_False; [|apply Hl; left].
  apply IH. intros x Hx. apply Hl. by right.
Qed.




(** *** Rounding to hundredths *)




(** *** Two stores to run the query on *)

(** One completed snapshot holding one directory of 5 bytes. *)
Definition one_snapshot_db : Database :=
  {| snapshots := [Snapshot.Mk 1 "/" 0 (Some 1) 5 1 1 completed];
     entries := [Entry.Mk 1 "/" "/" 5 1 0 0 None 1 None];
     scan_errors := []; seq_snapshots := 1%nat; clock := 2 |}.

(** The example of the specification (snapshot 1: "/a" of 100 bytes;
    snapshot 2: "/a" of 150 and a new "/b" of 20), with a third
    directory "/c" growing from 3 to 4 bytes. *)
Definition two_snapshots_db : Database :=
  {| snapshots := [Snapshot.Mk 1 "/" 0 (Some 1) 103 2 2 completed;
                   Snapshot.Mk 2 "/" 2 (Some 3) 174 3 3 completed];
     entries := [Entry.Mk 1 "/a" "a" 100 1 0 1 (Some "/") 1 None;
                 Entry.Mk 1 "/c" "c" 3 1 0 1 (Some "/") 1 None;
                 Entry.Mk 2 "/c" "c" 4 1 0 1 (Some "/") 1 None;
                 Entry.Mk 2 "/b" "b" 20 1 0 1 (Some "/") 1 None;
                 Entry.Mk 2 "/a" "a" 150 1 0 1 (Some "/") 1 None];
     scan_errors := []; seq_snapshots := 2%nat; clock := 4 |}.

Example top_growth_spec_example :
  map (fun r => (Growth.path r, Growth.growth r))
      (get_top_growth two_snapshots_db 2) = [("/a", 50); ("/b", 20)].
Proof. reflexivity. Qed.

Lemma top_growth_no_completed (db : Database) (limit : Z) :
  filter (fun s => Snapshot.status s = completed) (snapshots db) = [] →
  get_top_growth db limit = [].
Proof.
  intros Hnone. unfold get_top_growth, latest, recent. rewrite Hnone. simpl.
  rewrite (filter_none (fun cp : Entry.t * option Entry.t => _ ∧ _)).
  - unfold sql_limit. destruct (limit <? 0); simpl; [done | apply take_nil].
  - by intros cp _ [? _].
Qed.




(** C3 on the code: with exactly one completed snapshot the query is not
    empty; every directory of positive size is reported as 100% growth. *)
Theorem top_growth_single_snapshot :
  length (filter (fun s => Snapshot.status s = completed)
                 (snapshots one_snapshot_db)) = 1%nat ∧
  get_top_growth one_snapshot_db 10
  = [Growth.Mk "/" "/" 5 None 5 (inject_Z 100)].
Proof. split; reflexivity. Qed.

(** ** The filesystem as the walk sees it *)

(** [os.lstat(filepath)]: the size, or the [OSError] raised. *)
Inductive lstat_result :=
| StatOk (st_size : Z)
| StatErr (e : exn).

(** What stands under a name that [scandir] reports as a directory: a
    directory that lists its files (each with the outcome of its
    [lstat]) and its subdirectories; a directory whose listing fails with
    an [OSError]; a symbolic link to a directory, which [os.walk] names
    among [dirs] and does not enter; a directory on which the listing
    raises something that is not an [OSError], which [os.walk] lets
    through. *)
#[local] Unset Elimination Schemes.
Inductive node :=
| Directory (files : list (string * lstat_result))
            (subdirs : list (string * node))
| Unlistable (e : exn)
| DirSymlink
| WalkCrash (e : exn).
#[local] Set Elimination Schemes.

(** What the generator [os.walk] hands over next: a triple, or an
    exception. *)
Inductive walk_item :=
| Yield (root : string) (dirs : list string)
        (files : list (string * lstat_result))
| Raise (e : exn).

(** [os.walk(top, topdown=False, onerror=self._walk_error_handler)]:
    subdirectories first, in listing order, then the directory itself.
    A listing that fails calls the handler, which only logs
    (scanner.py, lines 214-216), and yields nothing for that directory. *)
Fixpoint os_walk (top : string) (n : node) : list walk_item :=
  match n with
  | Directory files subdirs =>
    flat_map (fun sub => os_walk (Path.join top sub.1) sub.2) subdirs
    ++ [Yield top (map fst subdirs) files]
  | Unlistable _ => []
  | DirSymlink => []
  | WalkCrash e => [Raise e]
  end.

(** The environment of a scan: [os.path.abspath], and the directory
    found at an absolute path ([None] when [os.path.isdir] is false). *)
Record FileSystem := MkFs {
  abspath : string → string;
  dir_at : string → option node
}.

(** ** [DiskScanner.scan] *)

(** [DiskScanner._get_depth] (scanner.py, lines 64-69). *)
Definition _get_depth (path base_path : string) : Z :=
  if String.eqb path base_path then 0
  else Z.of_nat (length (Path.split_sep (Path.relpath path base_path))).

(** The [stats] dictionary (lines 83-90) without its two timestamps. *)
Module Stats.
Record t := Mk {
  total_size : Z;
  total_files : Z;
  total_dirs : Z;
  errors : Z
}.
End Stats.

(** The locals of [scan] that the loop updates. *)
Record scan_state := MkState {
  st_db : Database;
  dir_sizes : gmap string dir_entry;
  entries_batch : list dir_entry;
  stats : Stats.t
}.

(** Lines 123-132. *)
Definition new_dir_entry (root mount_point : string) (depth : Z) : dir_entry :=
  {| de_path := root;
     de_name := (let b := Path.basename root in
                 if String.eqb b "" then root else b);
     de_size := 0;
     de_file_count := 0;
     de_dir_count := 0;
     de_depth := depth;
     de_parent_path :=
       (if String.eqb root mount_point then None
        else Some (Path.dirname root));
     de_is_dir := 1 |}.

(** [dir_entry['size'] += s; dir_entry['file_count'] += f;
     dir_entry['dir_count'] += d] *)
Definition de_add (e : dir_entry) (s f d : Z) : dir_entry :=
  {| de_path := de_path e;
     de_name := de_name e;
     de_size := de_size e + s;
     de_file_count := de_file_count e + f;
     de_dir_count := de_dir_count e + d;
     de_depth := de_depth e;
     de_parent_path := de_parent_path e;
     de_is_dir := de_is_dir e |}.

(** One turn of [for filename in files] (lines 135-150). *)
Definition scan_file (sid : Z) (root : string)
  (acc : dir_entry * scan_state) (f : string * lstat_result)
  : dir_entry * scan_state :=
  let filepath := Path.join root f.1 in
  match f.2 with
  | StatOk file_size =>
    (de_add acc.1 file_size 1 0,
     {| st_db := st_db acc.2;
        dir_sizes := dir_sizes acc.2;
        entries_batch := entries_batch acc.2;
        stats := Stats.Mk (Stats.total_size (stats acc.2) + file_size)
                          (Stats.total_files (stats acc.2) + 1)
                          (Stats.total_dirs (stats acc.2))
                          (Stats.errors (stats acc.2)) |})
  | StatErr e =>
    (acc.1,
     {| st_db := log_error (st_db acc.2) sid filepath (exn_type e) (exn_msg e);
        dir_sizes := dir_sizes acc.2;
        entries_batch := entries_batch acc.2;
        stats := Stats.Mk (Stats.total_size (stats acc.2))
                          (Stats.total_files (stats acc.2))
                          (Stats.total_dirs (stats acc.2))
                          (Stats.errors (stats acc.2) + 1) |})
  end.

(** One turn of [for dirname in dirs] (lines 153-159). *)
Definition add_subdir (root : string) (sizes : gmap string dir_entry)
  (entry : dir_entry) (dirname : string) : dir_entry :=
  let dirpath := Path.join root dirname in
  match sizes !! dirpath with
  | Some subdir =>
    de_add entry (de_size subdir) (de_file_count subdir) (de_dir_count subdir + 1)
  | None => entry
  end.

(** The body of the walk loop after the cancellation check (lines
    115-180): the state it leaves, and the exception the progress
    callback raised, if it did. *)
Definition visit (self : DiskScanner) (sid : Z) (mount_point : string)
  (root : string) (dirs : list string) (files : list (string * lstat_result))
  (st : scan_state) : scan_state * option exn :=
  if _should_skip self root then (st, None)
  else
    let depth := _get_depth root mount_point in
    if (0 <? max_depth self) && (max_depth self <? depth) then (st, None)
    else
      let after_files :=
        foldl (scan_file sid root) (new_dir_entry root mount_point depth, st)
              files in
      let st1 := after_files.2 in
      let entry := foldl (add_subdir root (dir_sizes st1)) after_files.1 dirs in
      let batch := entries_batch st1 ++ [entry] in
      let stats1 := Stats.Mk (Stats.total_size (stats st1))
                             (Stats.total_files (stats st1))
                             (Stats.total_dirs (stats st1) + 1)
                             (Stats.errors (stats st1)) in
      if (BATCH_SIZE self <=? length batch)%nat then
        let st3 := {| st_db := insert_entries_batch (st_db st1) sid batch;
                      dir_sizes := <[root := entry]> (dir_sizes st1);
                      entries_batch := [];
                      stats := stats1 |} in
        match _progress_callback self with
        | Some callback =>
          (st3, callback (Progress root (Stats.total_dirs stats1)
                                   (Stats.total_files stats1)
                                   (Stats.total_size stats1)))
        | None => (st3, None)
        end
      else
        ({| st_db := st_db st1;
            dir_sizes := <[root := entry]> (dir_sizes st1);
            entries_batch := batch;
            stats := stats1 |}, None).

(** How the [for] loop over the walk was left. *)
Inductive loop_exit :=
| Exhausted
| Broke
| Threw (e : exn).

(** The loop of lines 109-180.  [cancel_req i] tells whether [cancel()]
    has been called by the time [self._cancelled] is read for the [i]-th
    time (counting from 0); the loop reads it once per triple. *)
Fixpoint walk_loop (self : DiskScanner) (cancel_req : nat → bool) (sid : Z)
  (mount_point : string) (items : list walk_item) (i : nat) (st : scan_state)
  : loop_exit * scan_state :=
  match items with
  | [] => (Exhausted, st)
  | Raise e :: _ => (Threw e, st)
  | Yield root dirs files :: rest =>
    if cancel_req i then (Broke, st)
    else
      match visit self sid mount_point root dirs files st with
      | (st', Some e) => (Threw e, st')
      | (st', None) => walk_loop self cancel_req sid mount_point rest (S i) st'
      end
  end.

Inductive result (A : Type) :=
| Returned (a : A)
| Raised (e : exn).
Arguments Returned {A} a.
Arguments Raised {A} e.

Definition stats0 : Stats.t := Stats.Mk 0 0 0 0.

(** The scanner after [finally: self._running = False]. *)
Definition scanner_done (self : DiskScanner) (cancelled : bool) : DiskScanner :=
  {| skip_paths := skip_paths self;
     max_depth := max_depth self;
     _running := false;
     _cancelled := cancelled;
     _progress_callback := _progress_callback self;
     BATCH_SIZE := BATCH_SIZE self |}.

(** The scanner after lines 79-80. *)
Definition scanner_started (self : DiskScanner) : DiskScanner :=
  {| skip_paths := skip_paths self;
     max_depth := max_depth self;
     _running := true;
     _cancelled := false;
     _progress_callback := _progress_callback self;
     BATCH_SIZE := BATCH_SIZE self |}.

(** [scan] is a coroutine: it first gives up control at
    [await self.db.create_snapshot(mount_point)] (line 101).  Where it
    stands then: rejected by the guard of lines 76-77 with nothing
    touched; failed on the mount point check, no snapshot created; or
    started, the scanner marked running and the snapshot row written. *)
Inductive begun :=
| Rejected (e : exn)
| NoMount (e : exn)
| Started (self : DiskScanner) (snapshot_id : Z) (mount_point : string)
          (tree : node) (db : Database).

(** Lines 76-101. *)
Definition scan_begin (self : DiskScanner) (fs : FileSystem) (db : Database)
  (mount_point : string) : begun :=
  if _running self
  then Rejected (Exn "RuntimeError" "Scan already in progress")
  else
    let mount_point := abspath fs mount_point in
    match dir_at fs mount_point with
    | None =>
      NoMount (Exn "ValueError" ("Mount point does not exist: " +:+ mount_point))
    | Some tree =>
      let created := create_snapshot db mount_point in
      Started (scanner_started self) created.1 mount_point tree created.2
    end.

(** Lines 104-212, from the state [scan_begin] left. *)
Definition scan_resume (self : DiskScanner) (cancel_req : nat → bool)
  (snapshot_id : Z) (mount_point : string) (tree : node) (db : Database)
  : result Stats.t * DiskScanner * Database :=
  let items := os_walk mount_point tree in
  match walk_loop self cancel_req snapshot_id mount_point items 0
          (MkState db ∅ [] stats0) with
  | (Threw e, st) =>
    (Raised e, scanner_done self false,
     if snapshot_id =? 0 then st_db st
     else fail_snapshot (st_db st) snapshot_id (exn_msg e))
  | (how, st) =>
    let db2 := insert_entries_batch (st_db st) snapshot_id (entries_batch st) in
    let cancelled :=
      match how with
      | Broke => true
      | _ => cancel_req (length items)
      end in
    (Returned (stats st), scanner_done self cancelled,
     if negb cancelled
     then complete_snapshot db2 snapshot_id
            (Stats.total_size (stats st)) (Stats.total_files (stats st))
            (Stats.total_dirs (stats st))
     else fail_snapshot db2 snapshot_id "Cancelled by user")
  end.

(** [DiskScanner.scan] (lines 71-212), run from its call to its return
    or raise: the outcome, the scanner and the store afterwards.  An
    exception before the snapshot exists finds [snapshot_id] still
    [None] at line 206 and records nothing. *)
Definition scan (self : DiskScanner) (fs : FileSystem) (cancel_req : nat → bool)
  (db : Database) (mount_point : string)
  : result Stats.t * DiskScanner * Database :=
  match scan_begin self fs db mount_point with
  | Rejected e => (Raised e, self, db)
  | NoMount e => (Raised e, scanner_done self false, db)
  | Started self1 snapshot_id root tree db1 =>
    scan_resume self1 cancel_req snapshot_id root tree db1
  end.

Definition never_cancel : nat → bool := fun _ => false.

(** ** Well-formed trees

    A name that [scandir] reports is not empty and holds no separator,
    and a directory holds each name once. *)

Definition wf_name (n : string) : bool :=
  negb (String.eqb n "") && negb (Path.has_sep n).

Fixpoint wf_tree (n : node) : bool :=
  match n with
  | Directory _ subdirs =>
    forallb (fun sub => wf_name sub.1) subdirs
    && bool_decide (NoDup (map fst subdirs))
    && forallb (fun sub => wf_tree sub.2) subdirs
  | _ => true
  end.

(** Induction on trees, with the hypothesis for every subdirectory. *)
Fixpoint node_ind (P : node → Prop)
  (Hdir : ∀ files subdirs,
      Forall (fun sub : string * node => P sub.2) subdirs →
      P (Directory files subdirs))
  (Hunl : ∀ e, P (Unlistable e))
  (Hsym : P DirSymlink)
  (Hcrash : ∀ e, P (WalkCrash e))
  (n : node) : P n :=
  match n with
  | Directory files subdirs =>
    Hdir files subdirs
      ((fix go (l : list (string * node)) : Forall (fun sub => P sub.2) l :=
          match l with
          | [] => Forall_nil_2 _
          | sub :: l' =>
            Forall_cons_2 _ sub l' (node_ind P Hdir Hunl Hsym Hcrash sub.2) (go l')
          end) subdirs)
  | Unlistable e => Hunl e
  | DirSymlink => Hsym
  | WalkCrash e => Hcrash e
  end.

(** ** Paths below a directory *)

(** [a] with exactly one separator after it, as [join] glues it. *)
Definition with_sep (a : string) : string :=
  if String.eqb a "" || Path.ends_with_sep a then a else a +:+ "/".

(** A path that [join] extends by a separator and the name. *)
Definition good_path (p : string) : Prop :=
  p ≠ "" ∧ Path.ends_with_sep p = false.

(** [q] is [p] or lies below it: the relation [_should_skip] tests. *)
Definition under (p q : string) : Prop :=
  q = p ∨ ∃ r, q = p +:+ "/" +:+ r.

Section PathFacts.

Lemma length_app_s (a b : string) :
  String.length (a +:+ b) = (String.length a + String.length b)%nat.
Proof. induction a as [|c a IH]; [done|]. rewrite app_cons. simpl. by rewrite IH. Qed.

Lemma app_eq_empty (a b : string) : a +:+ b = "" → a = "" ∧ b = "".
Proof. destruct a; [done|]. by rewrite app_cons. Qed.

Lemma wf_name_spec (n : string) :
  wf_name n = true ↔ n ≠ "" ∧ Path.has_sep n = false.
Proof.
  unfold wf_name. rewrite andb_true_iff, !negb_true_iff.
  by rewrite String.eqb_neq.
Qed.

Lemma no_sep_starts (n : string) :
  Path.has_sep n = false → Path.starts_with_sep n = false.
Proof. destruct n as [|c n]; [done|]. simpl. by intros [? _]%orb_false_iff. Qed.

Lemma no_sep_ends (n : string) :
  Path.has_sep n = false → Path.ends_with_sep n = false.
Proof.
  induction n as [|c n IH]; [done|]. simpl.
  intros [Hc Hn]%orb_false_iff. destruct n; [done | by apply IH].
Qed.

Lemma ends_with_sep_app (x n : string) :
  n ≠ "" → Path.ends_with_sep (x +:+ n) = Path.ends_with_sep n.
Proof.
  intros Hn. induction x as [|c x IH]; [done|].
  rewrite app_cons. simpl. destruct (x +:+ n) eqn:E; [|done].
  by apply app_eq_empty in E as [_ ?].
Qed.

Lemma ends_with_sep_inv (a : string) :
  Path.ends_with_sep a = true → ∃ a', a = a' +:+ "/".
Proof.
  induction a as [|c a IH]; [done|]. simpl. destruct a as [|d a].
  - intros H. apply Ascii.eqb_eq in H as ->. by exists "".
  - intros H. destruct (IH H) as [a' ->]. by exists (String c a').
Qed.

Lemma join_wf (a n : string) :
  wf_name n = true → Path.join a n = with_sep a +:+ n.
Proof.
  intros [Hne Hsep]%wf_name_spec. unfold Path.join, with_sep.
  rewrite (no_sep_starts n Hsep).
  destruct (String.eqb a "" || Path.ends_with_sep a); [done|].
  by rewrite app_assoc_s.
Qed.

Lemma join_good (a n : string) : wf_name n = true → good_path (Path.join a n).
Proof.
  intros Hn. rewrite (join_wf a n Hn).
  apply wf_name_spec in Hn as [Hne Hsep]. split.
  - by intros [_ ?]%app_eq_empty.
  - rewrite ends_with_sep_app by done. by apply no_sep_ends.
Qed.

Lemma with_sep_good (p : string) : good_path p → with_sep p = p +:+ "/".
Proof.
  intros [Hne Hend]. unfold with_sep. rewrite Hend.
  apply String.eqb_neq in Hne. by rewrite Hne.
Qed.

Lemma join_good_eq (p n : string) :
  good_path p → wf_name n = true → Path.join p n = p +:+ "/" +:+ n.
Proof.
  intros Hp Hn. by rewrite (join_wf p n Hn), (with_sep_good p Hp), app_assoc_s.
Qed.

Lemma with_sep_length (a : string) :
  (String.length a ≤ String.length (with_sep a))%nat.
Proof.
  unfold with_sep. destruct (_ || _); [lia|]. rewrite length_app_s. lia.
Qed.

Lemma under_refl (p : string) : under p p.
Proof. by left. Qed.

Lemma under_trans (p q x : string) : under p q → under q x → under p x.
Proof.
  intros [-> | [r ->]] [-> | [r' ->]].
  - by left.
  - right. by exists r'.
  - right. by exists r.
  - right. exists (r +:+ "/" +:+ r'). by rewrite !app_assoc_s.
Qed.

Lemma under_join (p n : string) :
  good_path p → wf_name n = true → under p (Path.join p n).
Proof. intros Hp Hn. right. exists n. by apply join_good_eq. Qed.

(** Two names without a separator that agree up to what follows a
    separator are the same name. *)
Lemma name_before_sep (n1 n2 x1 x2 : string) :
  Path.has_sep n1 = false → Path.has_sep n2 = false →
  (x1 = "" ∨ Path.starts_with_sep x1 = true) →
  (x2 = "" ∨ Path.starts_with_sep x2 = true) →
  n1 +:+ x1 = n2 +:+ x2 → n1 = n2.
Proof.
  revert n2. induction n1 as [|c n1 IH]; intros [|d n2] H1 H2 Hx1 Hx2 Heq;
    try done.
  - rewrite app_nil_l, app_cons in Heq. subst x1. simpl in *.
    apply orb_false_iff in H2 as [Hd _]. destruct Hx1 as [|Hx1]; [done|].
    congruence.
  - rewrite app_nil_l, app_cons in Heq. subst x2. simpl in *.
    apply orb_false_iff in H1 as [Hc _]. destruct Hx2 as [|Hx2]; [done|].
    congruence.
  - rewrite !app_cons in Heq. injection Heq as -> Heq. simpl in *.
    apply orb_false_iff in H1 as [_ H1]. apply orb_false_iff in H2 as [_ H2].
    f_equal. by apply (IH n2).
Qed.

Lemma under_siblings (top n1 n2 q : string) :
  wf_name n1 = true → wf_name n2 = true →
  under (Path.join top n1) q → under (Path.join top n2) q → n1 = n2.
Proof.
  intros Hn1 Hn2. rewrite (join_wf top n1 Hn1), (join_wf top n2 Hn2).
  apply wf_name_spec in Hn1 as [_ H1]. apply wf_name_spec in Hn2 as [_ H2].
  intros Hu1 Hu2.
  assert (∃ x1, (x1 = "" ∨ Path.starts_with_sep x1 = true) ∧
                q = with_sep top +:+ n1 +:+ x1) as (x1 & Hx1 & E1).
  { destruct Hu1 as [-> | [r ->]].
    - exists "". split; [by left|]. by rewrite app_empty_r.
    - exists ("/" +:+ r). split; [by right|]. by rewrite !app_assoc_s. }
  assert (∃ x2, (x2 = "" ∨ Path.starts_with_sep x2 = true) ∧
                q = with_sep top +:+ n2 +:+ x2) as (x2 & Hx2 & E2).
  { destruct Hu2 as [-> | [r ->]].
    - exists "". split; [by left|]. by rewrite app_empty_r.
    - exists ("/" +:+ r). split; [by right|]. by rewrite !app_assoc_s. }
  rewrite E1 in E2. apply (inj (String.app (with_sep top))) in E2.
  by apply (name_before_sep n1 n2 x1 x2).
Qed.

Lemma not_under_child (top n : string) :
  wf_name n = true → ¬ under (Path.join top n) top.
Proof.
  intros Hn Hu. rewrite (join_wf top n Hn) in Hu.
  apply wf_name_spec in Hn as [Hne _].
  assert (0 < String.length n)%nat as Hlen.
  { destruct n; [done | simpl; lia]. }
  pose proof (with_sep_length top) as Hw.
  destruct Hu as [E | [r E]]; apply (f_equal String.length) in E;
    rewrite !length_app_s in E; lia.
Qed.

End PathFacts.

(** ** Every directory of a well-formed tree has a path of its own *)

(** The paths of all the nodes of a tree, entered or not. *)
Fixpoint all_paths (top : string) (n : node) : list string :=
  top :: match n with
         | Directory _ subdirs =>
           flat_map (fun sub => all_paths (Path.join top sub.1) sub.2) subdirs
         | _ => []
         end.

Section TreePaths.

Lemma forallb_Forall {A} (f : A → bool) (l : list A) :
  forallb f l = true ↔ Forall (fun x => f x = true) l.
Proof.
  rewrite forallb_forall, Forall_forall.
  by setoid_rewrite list_elem_of_In.
Qed.

Lemma wf_tree_dir files subdirs :
  wf_tree (Directory files subdirs) = true ↔
  Forall (fun sub : string * node => wf_name sub.1 = true) subdirs ∧
  NoDup (map fst subdirs) ∧
  Forall (fun sub : string * node => wf_tree sub.2 = true) subdirs.
Proof.
  simpl. rewrite !andb_true_iff, !forallb_Forall, bool_decide_eq_true. tauto.
Qed.

Lemma elem_of_flat_map {A B} (f : A → list B) (l : list A) (y : B) :
  y ∈ flat_map f l ↔ ∃ x, x ∈ l ∧ y ∈ f x.
Proof.
  rewrite list_elem_of_In, in_flat_map.
  by setoid_rewrite list_elem_of_In.
Qed.

Lemma all_paths_under (t : node) :
  ∀ top, good_path top → wf_tree t = true →
         ∀ q, q ∈ all_paths top t → under top q.
Proof.
  induction t as [files subdirs IH|e| |e] using node_ind;
    intros top Hgood Hwf q Hq; simpl in Hq;
    try (apply list_elem_of_singleton in Hq as ->; apply under_refl).
  apply wf_tree_dir in Hwf as (Hnames & _ & Hsubs).
  apply elem_of_cons in Hq as [-> | Hq]; [apply under_refl|].
  apply elem_of_flat_map in Hq as (sub & Hsub & Hq).
  rewrite Forall_forall in IH, Hnames, Hsubs.
  apply (under_trans top (Path.join top sub.1)).
  - apply under_join; auto.
  - apply (IH sub Hsub); auto. apply join_good; auto.
Qed.

Lemma child_paths_under files subdirs top sub q :
  wf_tree (Directory files subdirs) = true → sub ∈ subdirs →
  q ∈ all_paths (Path.join top sub.1) sub.2 →
  under (Path.join top sub.1) q.
Proof.
  intros (Hnames & _ & Hsubs)%wf_tree_dir Hsub Hq.
  rewrite Forall_forall in Hnames, Hsubs.
  apply (all_paths_under sub.2); auto. apply join_good; auto.
Qed.

Lemma children_paths_nodup files subdirs top :
  wf_tree (Directory files subdirs) = true →
  Forall (fun sub : string * node => ∀ top, wf_tree sub.2 = true →
                                            NoDup (all_paths top sub.2)) subdirs →
  NoDup (flat_map (fun sub => all_paths (Path.join top sub.1) sub.2) subdirs).
Proof.
  intros Hwf IH.
  assert (∀ l, l ⊆ subdirs → NoDup (map fst l) →
    NoDup (flat_map (fun sub => all_paths (Path.join top sub.1) sub.2) l))
    as Hgen.
  { pose proof Hwf as (Hnames & _ & Hsubs)%wf_tree_dir.
    rewrite Forall_forall in IH, Hnames, Hsubs.
    induction l as [|sub l IHl]; intros Hl Hnd; [constructor|].
    simpl. apply NoDup_cons in Hnd as [Hfresh Hnd].
    assert (sub ∈ subdirs) as Hsub by (apply Hl; left).
    apply NoDup_app. split; [apply IH; auto|]. split.
    - intros q Hq Hq'. apply elem_of_flat_map in Hq' as (sub' & Hsub' & Hq').
      assert (sub' ∈ subdirs) as Hin' by (apply Hl; by right).
      apply Hfresh.
      rewrite (under_siblings top sub.1 sub'.1 q); auto.
      + by apply list_elem_of_fmap_2.
      + by apply (child_paths_under files subdirs).
      + by apply (child_paths_under files subdirs).
    - apply IHl; [|done]. intros x Hx. apply Hl. by right. }
  apply Hgen; [done|]. by apply wf_tree_dir in Hwf as (_ & ? & _).
Qed.

(** No two nodes of a well-formed tree share a path. *)
Lemma all_paths_nodup (t : node) :
  ∀ top, wf_tree t = true → NoDup (all_paths top t).
Proof.
  induction t as [files subdirs IH|e| |e] using node_ind; intros top Hwf;
    simpl; try (apply NoDup_singleton).
  apply NoDup_cons. split.
  - intros Hq. apply elem_of_flat_map in Hq as (sub & Hsub & Hq).
    apply (child_paths_under files subdirs) in Hq; [|done..].
    apply wf_tree_dir in Hwf as (Hnames & _).
    rewrite Forall_forall in Hnames.
    by apply (not_under_child top sub.1); auto.
  - by apply (children_paths_nodup files).
Qed.

End TreePaths.

(** ** What one visit does *)

Definition lstat_size (r : lstat_result) : Z :=
  match r with StatOk s => s | StatErr _ => 0 end.

Definition lstat_ok (r : lstat_result) : Z :=
  match r with StatOk _ => 1 | StatErr _ => 0 end.

Definition lstat_failed (r : lstat_result) : Z :=
  match r with StatOk _ => 0 | StatErr _ => 1 end.

(** The bytes and the number of the files of a listing that [lstat]
    could read, and the number of those it could not. *)
Definition own_size (files : list (string * lstat_result)) : Z :=
  foldr (fun f acc => lstat_size f.2 + acc) 0 files.

Definition own_count (files : list (string * lstat_result)) : Z :=
  foldr (fun f acc => lstat_ok f.2 + acc) 0 files.

Definition failed_count (files : list (string * lstat_result)) : Z :=
  foldr (fun f acc => lstat_failed f.2 + acc) 0 files.

(** The files of a listing that [lstat] could not read, by path. *)
Definition file_errors (root : string) (files : list (string * lstat_result))
  : list (string * exn) :=
  flat_map (fun f => match f.2 with
                     | StatOk _ => []
                     | StatErr e => [(Path.join root f.1, e)]
                     end) files.

Definition log_errors (db : Database) (sid : Z) (errs : list (string * exn))
  : Database :=
  foldl (fun db pe => log_error db sid pe.1 (exn_type pe.2) (exn_msg pe.2))
        db errs.

(** Every row written for the scan so far, flushed or still batched. *)
Definition rows (sid : Z) (st : scan_state) : list Entry.t :=
  entries (st_db st) ++ map (entry_row sid) (entries_batch st).

(** The store without its [entries] table. *)
Definition db_meta (db : Database)
  : list Snapshot.t * list ScanError.t * nat * Z :=
  (snapshots db, scan_errors db, seq_snapshots db, clock db).

Definition stats_add (s : Stats.t) (size files dirs errs : Z) : Stats.t :=
  Stats.Mk (Stats.total_size s + size) (Stats.total_files s + files)
           (Stats.total_dirs s + dirs) (Stats.errors s + errs).

Section VisitFacts.
Context (self : DiskScanner) (sid : Z) (mount_point : string).

Lemma de_add_0 (e : dir_entry) : de_add e 0 0 0 = e.
Proof. destruct e. unfold de_add. simpl. f_equal; lia. Qed.

Lemma de_add_add (e : dir_entry) (a b c a' b' c' : Z) :
  de_add (de_add e a b c) a' b' c' = de_add e (a + a') (b + b') (c + c').
Proof. unfold de_add. simpl. f_equal; lia. Qed.

Lemma de_add_path (e : dir_entry) (a b c : Z) : de_path (de_add e a b c) = de_path e.
Proof. done. Qed.

Lemma stats_add_0 (s : Stats.t) : stats_add s 0 0 0 0 = s.
Proof. destruct s. unfold stats_add. simpl. f_equal; lia. Qed.

Lemma stats_add_add (s : Stats.t) (a b c d a' b' c' d' : Z) :
  stats_add (stats_add s a b c d) a' b' c' d'
  = stats_add s (a + a') (b + b') (c + c') (d + d').
Proof. unfold stats_add. simpl. f_equal; lia. Qed.

Lemma log_errors_app db errs1 errs2 :
  log_errors db sid (errs1 ++ errs2) = log_errors (log_errors db sid errs1) sid errs2.
Proof. apply foldl_app. Qed.

Lemma log_errors_entries db errs : entries (log_errors db sid errs) = entries db.
Proof.
  revert db. induction errs as [|pe errs IH]; intros db; [done|].
  simpl. by rewrite IH.
Qed.

Lemma insert_batch_entries db batch :
  entries (insert_entries_batch db sid batch)
  = entries db ++ map (entry_row sid) batch.
Proof. destruct batch; [by rewrite app_nil_r | done]. Qed.

Lemma insert_batch_meta db batch :
  db_meta (insert_entries_batch db sid batch) = db_meta db.
Proof. by destruct batch. Qed.

(** The file loop: what it adds to the entry, and the state it leaves. *)
Lemma scan_files_spec root files e st :
  let after := foldl (scan_file sid root) (e, st) files in
  after.1 = de_add e (own_size files) (own_count files) 0 ∧
  st_db after.2 = log_errors (st_db st) sid (file_errors root files) ∧
  dir_sizes after.2 = dir_sizes st ∧
  entries_batch after.2 = entries_batch st ∧
  stats after.2 = stats_add (stats st) (own_size files) (own_count files) 0
                            (failed_count files).
Proof.
  revert e st. induction files as [|[fname r] files IH]; intros e st; simpl.
  - by rewrite de_add_0, stats_add_0.
  - destruct (IH (scan_file sid root (e, st) (fname, r)).1
                 (scan_file sid root (e, st) (fname, r)).2)
      as (H1 & H2 & H3 & H4 & H5).
    rewrite <- surjective_pairing in H1, H2, H3, H4, H5.
    rewrite H1, H2, H3, H4, H5. clear.
    destruct r as [sz|err]; simpl.
    + rewrite de_add_add. repeat split; try done.
      unfold stats_add; simpl; f_equal; lia.
    + repeat split; try done. unfold stats_add; simpl; f_equal; lia.
Qed.

(** Whether the loop body reaches line 122 for [root]. *)
Definition emitted (root : string) : bool :=
  negb (_should_skip self root)
  && negb ((0 <? max_depth self)
           && (max_depth self <? _get_depth root mount_point)).

(** The entry the body builds for [root], given the dictionary so far. *)
Definition built_entry (sizes : gmap string dir_entry) (root : string)
  (dirs : list string) (files : list (string * lstat_result)) : dir_entry :=
  foldl (add_subdir root sizes)
    (de_add (new_dir_entry root mount_point (_get_depth root mount_point))
            (own_size files) (own_count files) 0)
    dirs.

Lemma visit_skipped root dirs files st :
  emitted root = false → visit self sid mount_point root dirs files st = (st, None).
Proof.
  unfold emitted, visit. destruct (_should_skip self root); [done|]. simpl.
  intros ->%negb_false_iff. done.
Qed.

Lemma visit_emitted root dirs files st :
  emitted root = true →
  let st' := (visit self sid mount_point root dirs files st).1 in
  let E := built_entry (dir_sizes st) root dirs files in
  dir_sizes st' = <[root := E]> (dir_sizes st) ∧
  rows sid st' = rows sid st ++ [entry_row sid E] ∧
  stats st' = stats_add (stats st) (own_size files) (own_count files) 1
                        (failed_count files) ∧
  db_meta (st_db st')
  = db_meta (log_errors (st_db st) sid (file_errors root files)).
Proof.
  unfold emitted, visit, built_entry.
  destruct (_should_skip self root); [done|]. simpl.
  intros ->%negb_true_iff.
  destruct (scan_files_spec root files
              (new_dir_entry root mount_point (_get_depth root mount_point)) st)
    as (H1 & H2 & H3 & H4 & H5).
  simpl in H1, H2, H3, H4, H5. rewrite H1, H2, H3, H4, H5.
  set (E := foldl _ _ dirs).
  assert (∀ s : Stats.t,
    Stats.Mk (Stats.total_size s) (Stats.total_files s)
             (Stats.total_dirs s + 1) (Stats.errors s)
    = stats_add s 0 0 1 0) as Hst.
  { intros s. unfold stats_add. f_equal; lia. }
  rewrite Hst, stats_add_add.
  replace (stats_add (stats st) (own_size files + 0) (own_count files + 0)
                     (0 + 1) (failed_count files + 0))
    with (stats_add (stats st) (own_size files) (own_count files) 1
                    (failed_count files))
    by (f_equal; lia).
  unfold rows.
  destruct (BATCH_SIZE self <=? length (entries_batch st ++ [E]))%nat.
  - destruct (_progress_callback self); simpl;
      rewrite insert_batch_entries, insert_batch_meta, log_errors_entries,
        map_app, app_nil_r, app_assoc; done.
  - simpl. rewrite log_errors_entries, map_app, app_assoc. done.
Qed.

End VisitFacts.

(** ** The aggregate of a directory, by recursion on the tree

    [subtree_entry] is the entry of a directory as the specification
    defines it: its own readable files, plus the entry of every
    subdirectory that was entered and not excluded, each counting as one
    directory more than it holds. *)

Definition is_walked (n : node) : bool :=
  match n with Directory _ _ => true | _ => false end.

Definition node_files (n : node) : list (string * lstat_result) :=
  match n with Directory files _ => files | _ => [] end.

Definition node_subdirs (n : node) : list (string * node) :=
  match n with Directory _ subdirs => subdirs | _ => [] end.

Section TreeSpec.
Context (self : DiskScanner) (sid : Z) (mount_point : string).

Definition contributes (p : string) (n : node) : bool :=
  is_walked n && emitted self mount_point p.

Fixpoint subtree_entry (top : string) (n : node) : dir_entry :=
  let e0 := new_dir_entry top mount_point (_get_depth top mount_point) in
  match n with
  | Directory files subdirs =>
    foldl (fun e sub =>
             let p := Path.join top sub.1 in
             if contributes p sub.2
             then let c := subtree_entry p sub.2 in
                  de_add e (de_size c) (de_file_count c) (de_dir_count c + 1)
             else e)
          (de_add e0 (own_size files) (own_count files) 0)
          subdirs
  | _ => e0
  end.

(** One subdirectory's share of its parent's entry. *)
Definition add_child (top : string) (e : dir_entry) (sub : string * node)
  : dir_entry :=
  let p := Path.join top sub.1 in
  if contributes p sub.2
  then let c := subtree_entry p sub.2 in
       de_add e (de_size c) (de_file_count c) (de_dir_count c + 1)
  else e.

Lemma subtree_entry_dir top files subdirs :
  subtree_entry top (Directory files subdirs)
  = foldl (add_child top)
      (de_add (new_dir_entry top mount_point (_get_depth top mount_point))
              (own_size files) (own_count files) 0)
      subdirs.
Proof. done. Qed.

(** The directories that get an entry, children before parents, each
    with its path. *)
Fixpoint emitted_nodes (top : string) (n : node) : list (string * node) :=
  match n with
  | Directory _ subdirs =>
    flat_map (fun sub => emitted_nodes (Path.join top sub.1) sub.2) subdirs
    ++ (if emitted self mount_point top then [(top, n)] else [])
  | _ => []
  end.

Definition expected_entry (pn : string * node) : dir_entry :=
  subtree_entry pn.1 pn.2.

Definition expected_entries (top : string) (n : node) : list dir_entry :=
  map expected_entry (emitted_nodes top n).


Definition sum_over (f : list (string * lstat_result) → Z)
  (nodes : list (string * node)) : Z :=
  foldr (fun pn acc => f (node_files pn.2) + acc) 0 nodes.

Definition visit_item (st : scan_state) (it : walk_item) : scan_state :=
  match it with
  | Yield root dirs files => (visit self sid mount_point root dirs files st).1
  | Raise _ => st
  end.

(** The state after the loop body has run on every triple of [items]. *)
Definition run (items : list walk_item) (st : scan_state) : scan_state :=
  foldl visit_item st items.

Definition insert_all (m : gmap string dir_entry) (es : list dir_entry)
  : gmap string dir_entry :=
  foldl (fun m e => <[de_path e := e]> m) m es.

Lemma insert_all_app m a b :
  insert_all m (a ++ b) = insert_all (insert_all m a) b.
Proof. apply foldl_app. Qed.

Lemma insert_all_notin m es k :
  k ∉ map de_path es → insert_all m es !! k = m !! k.
Proof.
  revert m. induction es as [|e es IH]; intros m Hk; [done|].
  simpl in *. apply not_elem_of_cons in Hk as [Hne Hk].
  rewrite IH by done. by rewrite lookup_insert_ne.
Qed.

Lemma insert_all_snoc m es e :
  insert_all m (es ++ [e]) !! de_path e = Some e.
Proof. rewrite insert_all_app. simpl. apply lookup_insert_eq. Qed.

Lemma add_children_path top subdirs e :
  de_path (foldl (add_child top) e subdirs) = de_path e.
Proof.
  revert e. induction subdirs as [|sub subdirs IH]; intros e; [done|].
  simpl. rewrite IH. unfold add_child. by destruct (contributes _ _).
Qed.

Lemma subtree_entry_path top n : de_path (subtree_entry top n) = top.
Proof.
  destruct n as [files subdirs|e| |e]; try done.
  rewrite subtree_entry_dir. by rewrite add_children_path.
Qed.

Lemma emitted_paths_in (t : node) :
  ∀ top pn, pn ∈ emitted_nodes top t → pn.1 ∈ all_paths top t.
Proof.
  induction t as [files subdirs IH|e| |e] using node_ind;
    intros top pn Hpn; simpl in Hpn; try by apply elem_of_nil in Hpn.
  simpl. apply elem_of_app in Hpn as [Hpn | Hpn].
  - right. apply elem_of_flat_map in Hpn as (sub & Hsub & Hpn).
    apply elem_of_flat_map. exists sub. split; [done|].
    rewrite Forall_forall in IH. by apply IH.
  - destruct (emitted self mount_point top); [|by apply elem_of_nil in Hpn].
    apply list_elem_of_singleton in Hpn as ->. by left.
Qed.

Lemma expected_paths_in top t k :
  k ∈ map de_path (expected_entries top t) → k ∈ all_paths top t.
Proof.
  unfold expected_entries. rewrite <- list_fmap_compose.
  intros (pn & -> & Hpn)%list_elem_of_fmap.
  simpl. unfold expected_entry. rewrite subtree_entry_path.
  by apply emitted_paths_in.
Qed.

(** After a subtree has been walked, the dictionary holds the entry of
    its top exactly when the top was entered and not excluded. *)
Lemma subtree_lookup top t m :
  NoDup (all_paths top t) → m !! top = None →
  insert_all m (expected_entries top t) !! top
  = if contributes top t then Some (subtree_entry top t) else None.
Proof.
  intros Hnd Hm. unfold contributes, expected_entries.
  destruct t as [files subdirs|e| |e]; simpl; try done.
  simpl in Hnd. apply NoDup_cons in Hnd as [Hfresh _].
  assert (top ∉ map de_path (map expected_entry
            (flat_map (fun sub => emitted_nodes (Path.join top sub.1) sub.2)
                      subdirs))) as Hnot.
  { intros Hin. apply Hfresh.
    rewrite <- list_fmap_compose in Hin.
    apply list_elem_of_fmap in Hin as (pn & Hk & Hpn).
    simpl in Hk. unfold expected_entry in Hk. rewrite subtree_entry_path in Hk.
    apply elem_of_flat_map in Hpn as (sub & Hsub & Hpn).
    apply elem_of_flat_map. exists sub. split; [done|].
    apply emitted_paths_in in Hpn. by rewrite <- Hk in Hpn. }
  destruct (emitted self mount_point top).
  - rewrite map_app, insert_all_app.
    change (map expected_entry [(top, Directory files subdirs)])
      with [subtree_entry top (Directory files subdirs)].
    unfold insert_all at 1. cbn [foldl].
    rewrite subtree_entry_path. apply lookup_insert_eq.
  - rewrite app_nil_r, insert_all_notin by done. done.
Qed.

Lemma children_lookup top subdirs m :
  NoDup (flat_map (fun sub => all_paths (Path.join top sub.1) sub.2) subdirs) →
  (∀ sub, sub ∈ subdirs → m !! Path.join top sub.1 = None) →
  ∀ sub, sub ∈ subdirs →
    insert_all m
      (flat_map (fun sub => expected_entries (Path.join top sub.1) sub.2)
                subdirs)
      !! Path.join top sub.1
    = if contributes (Path.join top sub.1) sub.2
      then Some (subtree_entry (Path.join top sub.1) sub.2) else None.
Proof.
  revert m. induction subdirs as [|a subdirs IH]; intros m Hnd Hm sub Hsub.
  { by apply elem_of_nil in Hsub. }
  simpl in *. apply NoDup_app in Hnd as (Hnda & Hdisj & Hndr).
  rewrite insert_all_app.
  assert (∀ sub', sub' ∈ subdirs →
            Path.join top sub'.1
            ∉ map de_path (expected_entries (Path.join top a.1) a.2)) as Hout.
  { intros sub' Hsub' Hin. apply expected_paths_in in Hin.
    apply (Hdisj _ Hin). apply elem_of_flat_map. exists sub'.
    split; [done|]. destruct sub'.2; simpl; left. }
  apply elem_of_cons in Hsub as [-> | Hsub].
  - rewrite insert_all_notin.
    + apply subtree_lookup; [done|]. apply Hm. by left.
    + intros Hin.
      assert (Path.join top a.1 ∈ all_paths (Path.join top a.1) a.2) as Hhead.
      { destruct a.2; simpl; left. }
      apply (Hdisj _ Hhead).
      apply list_elem_of_fmap in Hin as (e & Hk & He).
      apply elem_of_flat_map in He as (sub' & Hsub' & He).
      apply elem_of_flat_map. exists sub'. split; [done|].
      apply expected_paths_in. rewrite Hk. by apply list_elem_of_fmap_2.
  - apply IH; [done| |done].
    intros sub' Hsub'. rewrite insert_all_notin by auto.
    apply Hm. by right.
Qed.

Lemma add_subdirs_spec top sizes subdirs e :
  (∀ sub, sub ∈ subdirs →
     sizes !! Path.join top sub.1
     = if contributes (Path.join top sub.1) sub.2
       then Some (subtree_entry (Path.join top sub.1) sub.2) else None) →
  foldl (add_subdir top sizes) e (map fst subdirs)
  = foldl (add_child top) e subdirs.
Proof.
  revert e. induction subdirs as [|sub subdirs IH]; intros e Hl; [done|].
  simpl. rewrite IH by (intros; apply Hl; by right).
  f_equal. unfold add_subdir, add_child.
  rewrite (Hl sub) by (by left). by destruct (contributes _ _).
Qed.

End TreeSpec.

(** ** The loop body over the walk of a tree *)

Section RunFacts.
Context (self : DiskScanner) (sid : Z) (mount_point : string).

Local Abbreviation enodes := (emitted_nodes self mount_point).
Local Abbreviation eentry := (expected_entry self mount_point).
Local Abbreviation run' := (run self sid mount_point).

(** [st'] is [st] after the directories [nodes] got their entries. *)
Definition run_post (st st' : scan_state) (nodes : list (string * node))
  : Prop :=
  dir_sizes st' = insert_all (dir_sizes st) (map eentry nodes) ∧
  rows sid st'
  = rows sid st ++ map (fun pn => entry_row sid (eentry pn)) nodes ∧
  stats st'
  = stats_add (stats st) (sum_over own_size nodes) (sum_over own_count nodes)
              (Z.of_nat (length nodes)) (sum_over failed_count nodes) ∧
  db_meta (st_db st')
  = db_meta (log_errors (st_db st) sid
               (flat_map (fun pn => file_errors pn.1 (node_files pn.2)) nodes)).

Lemma sum_over_app f (a b : list (string * node)) :
  sum_over f (a ++ b) = sum_over f a + sum_over f b.
Proof.
  unfold sum_over. induction a as [|x a IH]; simpl; [done|]. rewrite IH. lia.
Qed.

Lemma log_errors_meta db db' errs :
  db_meta db = db_meta db' →
  db_meta (log_errors db sid errs) = db_meta (log_errors db' sid errs).
Proof.
  revert db db'. induction errs as [|pe errs IH]; intros db db' H; [done|].
  simpl. apply IH. unfold db_meta in *. simpl.
  injection H as H1 H2 H3 H4. by rewrite H1, H2, H3, H4.
Qed.

Lemma run_post_refl st : run_post st st [].
Proof.
  unfold run_post. simpl. rewrite app_nil_r, stats_add_0. done.
Qed.

Lemma run_post_trans st st1 st2 n1 n2 :
  run_post st st1 n1 → run_post st1 st2 n2 → run_post st st2 (n1 ++ n2).
Proof.
  intros (D1 & R1 & S1 & M1) (D2 & R2 & S2 & M2). unfold run_post.
  rewrite !map_app, insert_all_app, <- D1, !sum_over_app, length_app,
    flat_map_app, log_errors_app.
  repeat split.
  - done.
  - by rewrite R2, R1, app_assoc.
  - rewrite S2, S1, stats_add_add. f_equal. lia.
  - rewrite M2. by apply log_errors_meta.
Qed.

Lemma run_app items1 items2 st :
  run' (items1 ++ items2) st = run' items2 (run' items1 st).
Proof. apply foldl_app. Qed.

Lemma map_flat_map {A B C} (f : B → C) (g : A → list B) (l : list A) :
  map f (flat_map g l) = flat_map (fun x => map f (g x)) l.
Proof. induction l as [|x l IH]; simpl; [done|]. by rewrite map_app, IH. Qed.

Definition run_subtree_stmt (t : node) : Prop :=
  ∀ top st,
    NoDup (all_paths top t) →
    (∀ p, p ∈ all_paths top t → dir_sizes st !! p = None) →
    run_post st (run' (os_walk top t) st) (enodes top t).

Lemma run_children top subdirs :
  Forall (fun sub : string * node => run_subtree_stmt sub.2) subdirs →
  ∀ st,
    NoDup (flat_map (fun sub => all_paths (Path.join top sub.1) sub.2) subdirs) →
    (∀ p, p ∈ flat_map (fun sub => all_paths (Path.join top sub.1) sub.2)
                       subdirs → dir_sizes st !! p = None) →
    run_post st
      (run' (flat_map (fun sub => os_walk (Path.join top sub.1) sub.2) subdirs) st)
      (flat_map (fun sub => enodes (Path.join top sub.1) sub.2) subdirs).
Proof.
  induction 1 as [|sub subdirs Hsub _ IH]; intros st Hnd Hfree.
  { apply run_post_refl. }
  simpl in *. apply NoDup_app in Hnd as (Hnda & Hdisj & Hndr).
  rewrite run_app.
  pose proof (Hsub (Path.join top sub.1) st Hnda) as Hfirst.
  assert (∀ p, p ∈ all_paths (Path.join top sub.1) sub.2 →
               dir_sizes st !! p = None) as Hfree1.
  { intros p Hp. apply Hfree, elem_of_app. by left. }
  specialize (Hfirst Hfree1).
  eapply run_post_trans; [exact Hfirst|].
  apply IH; [done|].
  intros p Hp. destruct Hfirst as (-> & _).
  rewrite insert_all_notin.
  - apply Hfree, elem_of_app. by right.
  - intros Hin. apply (expected_paths_in self mount_point) in Hin.
    by apply (Hdisj p).
Qed.

Lemma run_subtree (t : node) : run_subtree_stmt t.
Proof.
  induction t as [files subdirs IH|e| |e] using node_ind;
    intros top st Hnd Hfree; try apply run_post_refl.
  simpl in Hnd. apply NoDup_cons in Hnd as [Hfresh Hnd].
  cbn [os_walk emitted_nodes].
  rewrite run_app.
  pose proof (run_children top subdirs IH st Hnd) as Hch.
  assert (∀ p, p ∈ flat_map (fun sub => all_paths (Path.join top sub.1) sub.2)
                            subdirs → dir_sizes st !! p = None) as Hfree'.
  { intros p Hp. apply Hfree. simpl. by right. }
  specialize (Hch Hfree').
  set (st1 := run' (flat_map _ subdirs) st) in *.
  eapply run_post_trans; [exact Hch|].
  unfold run at 1. cbn [foldl visit_item].
  destruct (emitted self mount_point top) eqn:Hem.
  2:{ rewrite visit_skipped by done. apply run_post_refl. }
  destruct (visit_emitted self sid mount_point top (map fst subdirs) files
              st1 Hem) as (D & R & S & M).
  assert (built_entry mount_point (dir_sizes st1) top (map fst subdirs) files
          = subtree_entry self mount_point top (Directory files subdirs))
    as HE.
  { unfold built_entry. rewrite subtree_entry_dir.
    apply add_subdirs_spec. intros sub Hsub.
    destruct Hch as (-> & _). rewrite map_flat_map.
    apply (children_lookup self mount_point); [done| |done].
    intros sub' Hsub'. apply Hfree'. apply elem_of_flat_map.
    exists sub'. split; [done|]. destruct sub'.2; simpl; left. }
  rewrite HE in D, R. unfold run_post. rewrite D, R, S, M.
  split; [|split; [|split]].
  - change (<[top := subtree_entry self mount_point top
                       (Directory files subdirs)]> (dir_sizes st1)
            = <[de_path (subtree_entry self mount_point top
                           (Directory files subdirs))
                := subtree_entry self mount_point top
                     (Directory files subdirs)]> (dir_sizes st1)).
    by rewrite subtree_entry_path.
  - done.
  - unfold stats_add, sum_over. cbn [foldr length node_files snd].
    f_equal; lia.
  - change (flat_map (fun pn => file_errors pn.1 (node_files pn.2))
                     [(top, Directory files subdirs)])
      with (file_errors top files ++ []).
    by rewrite app_nil_r.
Qed.

End RunFacts.

(** ** Depth below the mount point *)

(** The path of the directory reached from [base] through [names]. *)
Definition joins (base : string) (names : list string) : string :=
  foldl Path.join base names.

Section DepthFacts.

Lemma split_sep_cons (s : string) : ∃ piece pieces, Path.split_sep s = piece :: pieces.
Proof.
  induction s as [|c s (piece & pieces & IH)]; simpl; [by eauto|].
  destruct (Ascii.eqb c "/"); [by eauto|]. rewrite IH. by eauto.
Qed.

Lemma split_app_sep (a b : string) :
  Path.split_sep (a +:+ "/" +:+ b) = Path.split_sep a ++ Path.split_sep b.
Proof.
  induction a as [|c a IH]; [done|].
  rewrite app_cons. simpl. rewrite IH.
  destruct (Ascii.eqb c "/"); [done|].
  by destruct (split_sep_cons a) as (piece & pieces & ->).
Qed.

Lemma split_no_sep (n : string) :
  Path.has_sep n = false → Path.split_sep n = [n].
Proof.
  induction n as [|c n IH]; [done|]. simpl.
  intros [-> Hn]%orb_false_iff. by rewrite IH.
Qed.

Lemma components_app_sep (a b : string) :
  Path.components (a +:+ "/" +:+ b) = Path.components a ++ Path.components b.
Proof. unfold Path.components. by rewrite split_app_sep, filter_app. Qed.

Lemma components_name (n : string) :
  wf_name n = true → Path.components n = [n].
Proof.
  intros [Hne Hsep]%wf_name_spec. unfold Path.components.
  rewrite split_no_sep by done. by rewrite filter_cons_True.
Qed.

Lemma components_join (a n : string) :
  wf_name n = true → Path.components (Path.join a n) = Path.components a ++ [n].
Proof.
  intros Hn. rewrite (join_wf a n Hn). unfold with_sep.
  destruct (String.eqb a "") eqn:Ea; simpl.
  { apply String.eqb_eq in Ea as ->.
    rewrite app_nil_l, components_name by done. reflexivity. }
  destruct (Path.ends_with_sep a) eqn:Eend.
  - apply ends_with_sep_inv in Eend as [a' ->].
    rewrite app_assoc_s, components_app_sep, (components_name n) by done.
    change (a' +:+ "/") with (a' +:+ "/" +:+ "").
    rewrite components_app_sep. by rewrite app_nil_r.
  - by rewrite app_assoc_s, components_app_sep, (components_name n).
Qed.

Lemma components_joins (base : string) (names : list string) :
  Forall (fun n => wf_name n = true) names →
  Path.components (joins base names) = Path.components base ++ names.
Proof.
  revert base. induction names as [|n names IH]; intros base Hwf.
  { by rewrite app_nil_r. }
  apply Forall_cons in Hwf as [Hn Hwf]. unfold joins in *. simpl.
  rewrite IH, components_join by done. by rewrite <- app_assoc.
Qed.

Lemma commonprefix_len_app (l k : list string) :
  Path.commonprefix_len l (l ++ k) = length l.
Proof.
  induction l as [|x l IH]; simpl; [by destruct k|].
  by rewrite String.eqb_refl, IH.
Qed.

Lemma joins_snoc (base : string) (names : list string) (n : string) :
  joins base (names ++ [n]) = Path.join (joins base names) n.
Proof. unfold joins. by rewrite foldl_app. Qed.

Lemma joins_good (base : string) (names : list string) :
  Forall (fun n => wf_name n = true) names → names ≠ [] →
  good_path (joins base names).
Proof.
  intros Hwf Hne. destruct (exists_last Hne) as [names' [n Heq]]. subst names.
  rewrite joins_snoc. apply join_good.
  apply Forall_app in Hwf as [_ Hn]. by inversion Hn.
Qed.

Lemma split_joined_length (x : string) (names : list string) :
  good_path x → Forall (fun n => wf_name n = true) names →
  length (Path.split_sep (joins x names))
  = (length (Path.split_sep x) + length names)%nat.
Proof.
  revert x. induction names as [|n names IH]; intros x Hx Hwf.
  { simpl. lia. }
  apply Forall_cons in Hwf as [Hn Hwf]. unfold joins in *. simpl.
  rewrite IH; [|by apply join_good|done].
  rewrite join_good_eq, split_app_sep, length_app by done.
  apply wf_name_spec in Hn as [_ Hn].
  rewrite (split_no_sep n Hn). simpl. lia.
Qed.

(** A directory reached through [names] lies [length names] deep. *)
Lemma get_depth_joins (base : string) (names : list string) :
  Forall (fun n => wf_name n = true) names → names ≠ [] →
  _get_depth (joins base names) base = Z.of_nat (length names).
Proof.
  intros Hwf Hne. unfold _get_depth.
  pose proof (components_joins base names Hwf) as Hc.
  destruct (String.eqb (joins base names) base) eqn:E.
  { apply String.eqb_eq in E. rewrite E in Hc.
    apply (f_equal length) in Hc. rewrite length_app in Hc.
    destruct names; [done | simpl in Hc; lia]. }
  f_equal. unfold Path.relpath.
  rewrite Hc, commonprefix_len_app, Nat.sub_diag, drop_app_length. simpl.
  destruct names as [|r rs]; [done|].
  apply Forall_cons in Hwf as [Hr Hrs].
  change (foldl Path.join r rs) with (joins r rs).
  rewrite split_joined_length; [|by apply wf_name_spec in Hr as [? ?%no_sep_ends]|done].
  apply wf_name_spec in Hr as [_ Hr]. rewrite (split_no_sep r Hr). done.
Qed.

End DepthFacts.

(** ** Exclusion is inherited, so every entry reaches the root *)

Section Closure.
Context (self : DiskScanner) (mount_point : string).

Local Abbreviation wf_names := (Forall (fun n => wf_name n = true)).

Lemma emitted_child_closed (names : list string) (m : string) :
  wf_names names → names ≠ [] → wf_name m = true →
  emitted self mount_point (joins mount_point names) = false →
  emitted self mount_point (Path.join (joins mount_point names) m) = false.
Proof.
  intros Hwf Hne Hm. unfold emitted.
  pose proof (joins_good mount_point names Hwf Hne) as Hgood.
  rewrite !andb_false_iff, !negb_false_iff.
  intros [Hskip | Hdepth]; [left | right].
  - apply should_skip_iff in Hskip as (skip & Hin & Hunder).
    apply should_skip_iff. exists skip. split; [done|]. right.
    rewrite (join_good_eq _ m Hgood Hm).
    destruct Hunder as [-> | [rest ->]].
    + by exists m.
    + exists (rest +:+ "/" +:+ m). by rewrite !app_assoc_s.
  - apply andb_true_iff in Hdepth as [-> Hlt]. simpl.
    rewrite <- joins_snoc.
    rewrite get_depth_joins in Hlt by done.
    rewrite get_depth_joins.
    + rewrite length_app. simpl. apply Z.ltb_lt in Hlt. apply Z.ltb_lt. lia.
    + apply Forall_app. split; [done|]. by apply Forall_singleton.
    + by destruct names.
Qed.

Lemma flat_map_nil {A B} (f : A → list B) (l : list A) :
  (∀ x, x ∈ l → f x = []) → flat_map f l = [].
Proof.
  induction l as [|x l IH]; intros H; [done|]. simpl.
  rewrite H by (by left). apply IH. intros; apply H; by right.
Qed.

Lemma emitted_nodes_closed (t : node) :
  ∀ names, wf_names names → names ≠ [] → wf_tree t = true →
    emitted self mount_point (joins mount_point names) = false →
    emitted_nodes self mount_point (joins mount_point names) t = [].
Proof.
  induction t as [files subdirs IH|e| |e] using node_ind;
    intros names Hwf Hne Hwt Hem; try done.
  simpl. rewrite Hem, app_nil_r.
  apply wf_tree_dir in Hwt as (Hnames & _ & Hsubs).
  rewrite Forall_forall in IH, Hnames, Hsubs.
  apply flat_map_nil. intros sub Hsub.
  rewrite <- joins_snoc. apply IH; auto.
  - apply Forall_app. split; [done|]. apply Forall_singleton; auto.
  - by destruct names.
  - rewrite joins_snoc. apply emitted_child_closed; auto.
Qed.

(** The entries written for the directories strictly below [top]. *)
Definition below (top : string) (t : node) : list (string * node) :=
  flat_map (fun sub => emitted_nodes self mount_point (Path.join top sub.1) sub.2)
           (node_subdirs t).

(** The entry of [t] accounts for exactly the directories below it that
    got an entry, and for their readable files and its own. *)
Definition totals_ok (top : string) (t : node) : Prop :=
  let e := subtree_entry self mount_point top t in
  de_size e = own_size (node_files t) + sum_over own_size (below top t) ∧
  de_file_count e
  = own_count (node_files t) + sum_over own_count (below top t) ∧
  de_dir_count e = Z.of_nat (length (below top t)).

Lemma emitted_nodes_dir top files subdirs :
  emitted self mount_point top = true →
  emitted_nodes self mount_point top (Directory files subdirs)
  = below top (Directory files subdirs) ++ [(top, Directory files subdirs)].
Proof. intros Hem. simpl. by rewrite Hem. Qed.

Lemma sum_over_snoc f (l : list (string * node)) (pn : string * node) :
  sum_over f (l ++ [pn]) = sum_over f l + f (node_files pn.2).
Proof. rewrite sum_over_app. unfold sum_over. simpl. lia. Qed.

(** What a subdirectory passes up equals what was written for its
    subtree: nothing when it was not entered or was excluded. *)
Lemma child_share (names : list string) (c : node) :
  wf_names names → names ≠ [] → wf_tree c = true →
  totals_ok (joins mount_point names) c →
  let k := joins mount_point names in
  let written := emitted_nodes self mount_point k c in
  if contributes self mount_point k c
  then sum_over own_size written = de_size (subtree_entry self mount_point k c) ∧
       sum_over own_count written
       = de_file_count (subtree_entry self mount_point k c) ∧
       Z.of_nat (length written)
       = de_dir_count (subtree_entry self mount_point k c) + 1
  else written = [].
Proof.
  intros Hwf Hne Hwt (Hs & Hf & Hd). simpl. unfold contributes.
  destruct c as [files subdirs|e| |e]; try done. simpl is_walked.
  destruct (emitted self mount_point (joins mount_point names)) eqn:Hem.
  - cbn [andb]. rewrite emitted_nodes_dir by done.
    rewrite !sum_over_snoc, length_app, Hs, Hf, Hd. simpl. lia.
  - cbn [andb]. by apply emitted_nodes_closed.
Qed.

Lemma add_children_totals (names : list string) (subdirs : list (string * node)) :
  wf_names names →
  Forall (fun sub : string * node => wf_name sub.1 = true) subdirs →
  Forall (fun sub : string * node => wf_tree sub.2 = true) subdirs →
  Forall (fun sub : string * node =>
            totals_ok (Path.join (joins mount_point names) sub.1) sub.2) subdirs →
  ∀ e,
    let top := joins mount_point names in
    let written :=
      flat_map (fun sub => emitted_nodes self mount_point
                             (Path.join top sub.1) sub.2) subdirs in
    let e' := foldl (add_child self mount_point top) e subdirs in
    de_size e' = de_size e + sum_over own_size written ∧
    de_file_count e' = de_file_count e + sum_over own_count written ∧
    de_dir_count e' = de_dir_count e + Z.of_nat (length written).
Proof.
  intros Hwf Hnames Hsubs Hok.
  induction subdirs as [|sub subdirs IH]; intros e; simpl.
  { unfold sum_over. simpl. lia. }
  apply Forall_cons in Hnames as [Hn Hnames].
  apply Forall_cons in Hsubs as [Ht Hsubs].
  apply Forall_cons in Hok as [Hc Hok].
  destruct (IH Hnames Hsubs Hok
              (add_child self mount_point (joins mount_point names) e sub))
    as (Hs & Hf & Hd).
  rewrite Hs, Hf, Hd, !sum_over_app, length_app. clear IH Hs Hf Hd.
  rewrite <- joins_snoc in Hc.
  assert (wf_names (names ++ [sub.1])) as Hwf'.
  { apply Forall_app. split; [done|]. by apply Forall_singleton. }
  assert (names ++ [sub.1] ≠ []) as Hne' by (by destruct names).
  pose proof (child_share (names ++ [sub.1]) sub.2 Hwf' Hne' Ht Hc) as Hshare.
  rewrite joins_snoc in Hshare. simpl in Hshare.
  unfold add_child.
  destruct (contributes self mount_point
              (Path.join (joins mount_point names) sub.1) sub.2).
  - destruct Hshare as (Hs & Hf & Hd).
    rewrite Hs, Hf. set (c := subtree_entry _ _ _ _) in *.
    unfold de_add. cbn [de_size de_file_count de_dir_count].
    repeat split; lia.
  - rewrite Hshare.
    change (sum_over own_size []) with 0.
    change (sum_over own_count []) with 0. cbn [length].
    repeat split; lia.
Qed.

Lemma subtree_totals (t : node) :
  ∀ names, wf_names names → wf_tree t = true →
           totals_ok (joins mount_point names) t.
Proof.
  induction t as [files subdirs IH|e| |e] using node_ind;
    intros names Hwf Hwt; try (unfold totals_ok, below; simpl; done).
  apply wf_tree_dir in Hwt as (Hnames & _ & Hsubs).
  unfold totals_ok, below. rewrite subtree_entry_dir.
  cbn [node_files node_subdirs].
  destruct (add_children_totals names subdirs Hwf Hnames Hsubs) with
    (e := de_add (new_dir_entry (joins mount_point names) mount_point
                    (_get_depth (joins mount_point names) mount_point))
                 (own_size files) (own_count files) 0)
    as (Hs & Hf & Hd).
  - rewrite Forall_forall in IH, Hnames, Hsubs. apply Forall_forall.
    intros sub Hsub. rewrite <- joins_snoc. apply IH; auto.
    apply Forall_app. split; [done|]. apply Forall_singleton; auto.
  - rewrite Hs, Hf, Hd. simpl. repeat split; lia.
Qed.

End Closure.

(** ** The loop as a prefix of the walk *)

Definition is_yield (it : walk_item) : bool :=
  match it with Yield _ _ _ => true | Raise _ => false end.

(** The callback, if one is set, never raises. *)
Definition callback_quiet (self : DiskScanner) : Prop :=
  ∀ cb p, _progress_callback self = Some cb → cb p = None.

Section LoopFacts.
Context (self : DiskScanner) (cancel_req : nat → bool) (sid : Z)
        (mount_point : string).

Local Abbreviation run' := (run self sid mount_point).
Local Abbreviation loop := (walk_loop self cancel_req sid mount_point).

Lemma visit_quiet root dirs files st :
  callback_quiet self →
  (visit self sid mount_point root dirs files st).2 = None.
Proof.
  intros Hq. unfold visit.
  destruct (_should_skip self root); [done|].
  destruct (_ && _); [done|].
  destruct (_ <=? _)%nat; [|done].
  destruct (_progress_callback self) as [cb|] eqn:Hcb; [|done].
  simpl. by apply (Hq cb).
Qed.

(** However the loop is left, its state is that of the loop body run on
    the first [k] triples, every one of them in full, and [k] is the
    number of flag readings that came back false.  It is left by an
    exception only if the walk or the callback raised one. *)
Lemma walk_loop_spec (items : list walk_item) :
  ∀ i st,
    ∃ k, (k ≤ length items)%nat ∧
         (loop items i st).2 = run' (take k items) st ∧
         (∀ j, (j < k)%nat → cancel_req (i + j)%nat = false) ∧
         match (loop items i st).1 with
         | Exhausted => k = length items
         | Broke => (k < length items)%nat ∧ cancel_req (i + k)%nat = true
         | Threw _ =>
           ¬ (callback_quiet self ∧
              Forall (fun it => is_yield it = true) items)
         end.
Proof.
  induction items as [|it items IH]; intros i st.
  { exists 0%nat. simpl. repeat split; [lia | intros; lia]. }
  destruct it as [root dirs files|e]; cbn [walk_loop].
  2:{ exists 0%nat. simpl. repeat split; [lia | intros; lia |].
      intros [_ Hy]. by apply Forall_cons in Hy as [? _]. }
  destruct (cancel_req i) eqn:Hc.
  { exists 0%nat. simpl. rewrite Nat.add_0_r.
    repeat split; [lia | intros; lia | lia | done]. }
  destruct (visit self sid mount_point root dirs files st) as [st' [e|]] eqn:Hv.
  - exists 1%nat. cbn [take length fst snd]. unfold run.
    cbn [foldl visit_item]. rewrite Hv.
    repeat split; [lia | |].
    + intros j Hj. replace j with 0%nat by lia. by rewrite Nat.add_0_r.
    + intros [Hq _]. pose proof (visit_quiet root dirs files st Hq) as Hn.
      by rewrite Hv in Hn.
  - destruct (IH (S i) st') as (k & Hk & Hst & Hfalse & Hhow).
    exists (S k). cbn [take length]. rewrite Hst. unfold run.
    cbn [foldl visit_item]. rewrite Hv.
    repeat split; [lia | |].
    + intros [|j] Hj; [by rewrite Nat.add_0_r|].
      rewrite <- Nat.add_succ_comm. apply Hfalse. lia.
    + destruct (walk_loop _ _ _ _ items (S i) st').1; [by f_equal | |].
      * rewrite <- Nat.add_succ_comm. split; [lia | tauto].
      * intros [Hq Hy]. apply Hhow. split; [done|].
        by apply Forall_cons in Hy as [_ ?].
Qed.

(** The loop reads the scanner's configuration only. *)
Lemma walk_loop_started (items : list walk_item) :
  ∀ i st, walk_loop (scanner_started self) cancel_req sid mount_point items i st
          = loop items i st.
Proof.
  induction items as [|it items IH]; intros i st; [done|].
  destruct it as [root dirs files|e]; [|done]. cbn [walk_loop].
  destruct (cancel_req i); [done|].
  change (visit (scanner_started self) sid mount_point root dirs files st)
    with (visit self sid mount_point root dirs files st).
  destruct (visit self sid mount_point root dirs files st) as [st' [e|]];
    [done | apply IH].
Qed.

End LoopFacts.

(** A tree on which no listing raises past [os.walk]. *)
Fixpoint crash_free (n : node) : bool :=
  match n with
  | Directory _ subdirs => forallb (fun sub => crash_free sub.2) subdirs
  | WalkCrash _ => false
  | _ => true
  end.

Lemma os_walk_yields (t : node) :
  ∀ top, crash_free t = true →
         Forall (fun it => is_yield it = true) (os_walk top t).
Proof.
  induction t as [files subdirs IH|e| |e] using node_ind; intros top Hcf;
    simpl; try done.
  apply Forall_app. split; [|by repeat constructor].
  simpl in Hcf. apply forallb_Forall in Hcf.
  rewrite Forall_forall in IH, Hcf. apply Forall_forall.
  intros it (sub & Hsub & Hit)%elem_of_flat_map.
  specialize (IH sub Hsub (Path.join top sub.1) (Hcf sub Hsub)).
  rewrite Forall_forall in IH. by apply IH.
Qed.

(** ** The outcomes of a scan *)

(** The normalised mount point, the id the new snapshot gets, and the
    state in which the loop starts. *)
Definition scan_root (fs : FileSystem) (mount_point : string) : string :=
  abspath fs mount_point.

Definition scan_sid (db : Database) : Z := Z.of_nat (S (seq_snapshots db)).

Definition scan_start (fs : FileSystem) (db : Database) (mount_point : string)
  : scan_state :=
  MkState (create_snapshot db (scan_root fs mount_point)).2 ∅ [] stats0.

(** The store after lines 182-195, after lines 182-202 on a
    cancellation, and after lines 204-207. *)
Definition finish_completed (sid : Z) (st : scan_state) : Database :=
  complete_snapshot
    (insert_entries_batch (st_db st) sid (entries_batch st)) sid
    (Stats.total_size (stats st)) (Stats.total_files (stats st))
    (Stats.total_dirs (stats st)).

Definition finish_cancelled (sid : Z) (st : scan_state) : Database :=
  fail_snapshot (insert_entries_batch (st_db st) sid (entries_batch st)) sid
                "Cancelled by user".

Definition finish_failed (sid : Z) (st : scan_state) (e : exn) : Database :=
  fail_snapshot (st_db st) sid (exn_msg e).

Section ScanCases.
Context (self : DiskScanner) (fs : FileSystem) (cancel_req : nat → bool)
        (db : Database) (mount_point : string).

Local Abbreviation root := (scan_root fs mount_point).
Local Abbreviation sid := (scan_sid db).

Lemma scan_busy :
  _running self = true →
  scan self fs cancel_req db mount_point
  = (Raised (Exn "RuntimeError" "Scan already in progress"), self, db).
Proof. intros H. unfold scan, scan_begin. by rewrite H. Qed.

Lemma scan_no_mount :
  _running self = false → dir_at fs root = None →
  scan self fs cancel_req db mount_point
  = (Raised (Exn "ValueError" ("Mount point does not exist: " +:+ root)),
     scanner_done self false, db).
Proof.
  intros H1 H2. unfold scan, scan_begin, scan_root in *. by rewrite H1, H2.
Qed.

(** A scan that got past its checks stops after [k] whole turns of the
    loop, for one of three reasons. *)
Lemma scan_cases (t : node) :
  _running self = false → dir_at fs root = Some t →
  ∃ k, (k ≤ length (os_walk root t))%nat ∧
       (∀ j, (j < k)%nat → cancel_req j = false) ∧
       let st := run self sid root (take k (os_walk root t))
                     (scan_start fs db mount_point) in
       (k = length (os_walk root t) ∧ cancel_req k = false ∧
        scan self fs cancel_req db mount_point
        = (Returned (stats st), scanner_done self false,
           finish_completed sid st))
       ∨ (cancel_req k = true ∧
          scan self fs cancel_req db mount_point
          = (Returned (stats st), scanner_done self true,
             finish_cancelled sid st))
       ∨ (¬ (callback_quiet self ∧
             Forall (fun it => is_yield it = true) (os_walk root t)) ∧
          ∃ e, scan self fs cancel_req db mount_point
               = (Raised e, scanner_done self false, finish_failed sid st e)).
Proof.
  intros Hrun Hdir. unfold scan, scan_begin, scan_resume, scan_root in *.
  rewrite Hrun, Hdir. cbn [create_snapshot fst snd].
  rewrite walk_loop_started.
  destruct (walk_loop_spec self cancel_req sid (abspath fs mount_point)
              (os_walk (abspath fs mount_point) t) 0
              (scan_start fs db mount_point))
    as (k & Hk & Hst & Hfalse & Hhow).
  exists k. split; [done|]. split; [exact Hfalse|].
  unfold scan_start, scan_root, scan_sid in *.
  cbn [create_snapshot fst snd] in *.
  destruct (walk_loop _ _ _ _ _ _ _) as [how st'].
  cbn [fst snd] in *. subst st'.
  destruct how as [| |e].
  - subst k. rewrite firstn_all.
    destruct (cancel_req (length _)) eqn:Hc; [right; left | left]; done.
  - destruct Hhow as [_ Hc]. right. left. done.
  - right. right. split; [done|]. exists e.
    by replace (Z.of_nat (S (seq_snapshots db)) =? 0) with false
      by (symmetry; apply Z.eqb_neq; lia).
Qed.

End ScanCases.

(** *** What any run of the loop body leaves alone *)

Section RunKeeps.
Context (self : DiskScanner) (sid : Z) (mount_point : string).

Lemma log_errors_snapshots db errs :
  snapshots (log_errors db sid errs) = snapshots db
  ∧ seq_snapshots (log_errors db sid errs) = seq_snapshots db.
Proof.
  revert db. induction errs as [|pe errs IH]; intros db; [done|].
  simpl. by destruct (IH (log_error db sid pe.1 (exn_type pe.2) (exn_msg pe.2)))
    as [-> ->].
Qed.

(** The error rows without their timestamps. *)
Definition error_key (r : ScanError.t) : Z * string * string * string :=
  (ScanError.snapshot_id r, ScanError.path r, ScanError.error_type r,
   ScanError.error_message r).

Definition logged_key (pe : string * exn) : Z * string * string * string :=
  (sid, pe.1, exn_type pe.2, exn_msg pe.2).

Lemma log_errors_keys db errs :
  map error_key (scan_errors (log_errors db sid errs))
  = map error_key (scan_errors db) ++ map logged_key errs.
Proof.
  revert db. induction errs as [|pe errs IH]; intros db.
  { by rewrite app_nil_r. }
  simpl. rewrite IH. simpl. rewrite map_app, <- app_assoc. done.
Qed.

Lemma visit_keeps root dirs files st :
  ∃ errs more,
    db_meta (st_db (visit self sid mount_point root dirs files st).1)
    = db_meta (log_errors (st_db st) sid errs) ∧
    rows sid (visit self sid mount_point root dirs files st).1
    = rows sid st ++ more.
Proof.
  destruct (emitted self mount_point root) eqn:Hem.
  - destruct (visit_emitted self sid mount_point root dirs files st Hem)
      as (_ & R & _ & M). eauto.
  - rewrite visit_skipped by done. exists [], []. by rewrite app_nil_r.
Qed.

Lemma run_cons it items st :
  run self sid mount_point (it :: items) st
  = run self sid mount_point items (visit_item self sid mount_point st it).
Proof. done. Qed.

Lemma run_keeps items :
  ∀ st, ∃ errs more,
    db_meta (st_db (run self sid mount_point items st))
    = db_meta (log_errors (st_db st) sid errs) ∧
    rows sid (run self sid mount_point items st) = rows sid st ++ more.
Proof.
  induction items as [|it items IH]; intros st.
  { exists [], []. by rewrite app_nil_r. }
  rewrite run_cons.
  destruct (IH (visit_item self sid mount_point st it))
    as (errs2 & more2 & M2 & R2).
  destruct it as [root dirs files|e]; cbn [visit_item] in *.
  - destruct (visit_keeps root dirs files st) as (errs1 & more1 & M1 & R1).
    exists (errs1 ++ errs2), (more1 ++ more2).
    rewrite M2, R2, R1, log_errors_app, app_assoc.
    split; [|done]. by apply log_errors_meta.
  - eauto.
Qed.


End RunKeeps.

(** ** The store a scan leaves *)

(** The row [create_snapshot] writes. *)
Definition new_snapshot_row (db : Database) (root : string) : Snapshot.t :=
  Snapshot.Mk (scan_sid db) root (clock db) None 0 0 0 running.

Section Finish.
Context (self : DiskScanner) (fs : FileSystem) (db : Database)
        (mount_point : string).

Local Abbreviation root := (scan_root fs mount_point).
Local Abbreviation sid := (scan_sid db).
Local Abbreviation start := (scan_start fs db mount_point).

Lemma last_update_snoc f (l : list Snapshot.t) (x : Snapshot.t) :
  Snapshot.id x = sid →
  last (update_snapshot f sid (l ++ [x])) = Some (f x).
Proof.
  intros Hid. unfold update_snapshot. rewrite map_app. cbn [map].
  by rewrite last_snoc, Hid, Z.eqb_refl.
Qed.

Lemma run_from_start (items : list walk_item) :
  let st := run self sid root items start in
  snapshots (st_db st) = snapshots db ++ [new_snapshot_row db root] ∧
  (∃ errs, map error_key (scan_errors (st_db st))
           = map error_key (scan_errors db) ++ map (logged_key sid) errs) ∧
  (∃ more, rows sid st = entries db ++ more).
Proof.
  cbv zeta. destruct (run_keeps self sid root items start)
    as (errs & more & M & R).
  unfold db_meta in M. injection M as M1 M2 _ _.
  destruct (log_errors_snapshots sid (st_db start) errs) as [S1 _].
  split; [etrans; [exact M1 | exact S1]|]. split.
  - exists errs. by rewrite M2, log_errors_keys.
  - exists more. rewrite R. unfold rows, scan_start. cbn [st_db entries_batch create_snapshot snd entries map]. by rewrite app_nil_r.
Qed.

Lemma insert_batch_snapshots d batch :
  snapshots (insert_entries_batch d sid batch) = snapshots d
  ∧ scan_errors (insert_entries_batch d sid batch) = scan_errors d.
Proof. by destruct batch. Qed.

Lemma finish_completed_last (items : list walk_item) :
  let st := run self sid root items start in
  ∃ ended,
    last (snapshots (finish_completed sid st))
    = Some (Snapshot.Mk sid root (clock db) (Some ended)
              (Stats.total_size (stats st)) (Stats.total_files (stats st))
              (Stats.total_dirs (stats st)) completed).
Proof.
  cbv zeta. destruct (run_from_start items) as (S & _).
  unfold finish_completed, complete_snapshot. cbn [snapshots].
  destruct (insert_batch_snapshots
              (st_db (run self sid root items start))
              (entries_batch (run self sid root items start))) as [-> _].
  rewrite S, last_update_snoc by done. by eexists.
Qed.

Lemma finish_cancelled_last (items : list walk_item) :
  let st := run self sid root items start in
  (∃ ended,
     last (snapshots (finish_cancelled sid st))
     = Some (Snapshot.Mk sid root (clock db) (Some ended) 0 0 0 failed)) ∧
  (∃ earlier logged,
     scan_errors (finish_cancelled sid st)
     = earlier ++ [ScanError.Mk sid "/" "FATAL" "Cancelled by user" logged]).
Proof.
  cbv zeta. destruct (run_from_start items) as (S & _).
  unfold finish_cancelled, fail_snapshot. cbn [snapshots scan_errors].
  destruct (insert_batch_snapshots
              (st_db (run self sid root items start))
              (entries_batch (run self sid root items start))) as [-> ->].
  rewrite S, last_update_snoc by done. split; by repeat eexists.
Qed.


Lemma finish_entries (st : scan_state) :
  entries (finish_completed sid st) = rows sid st
  ∧ entries (finish_cancelled sid st) = rows sid st
  ∧ ∀ e, entries (finish_failed sid st e) = entries (st_db st).
Proof.
  unfold finish_completed, finish_cancelled, finish_failed, rows.
  cbn [complete_snapshot fail_snapshot entries].
  by rewrite insert_batch_entries.
Qed.

End Finish.

(** ** Complete, cancelled and failed scans *)

Section Outcomes.
Context (self : DiskScanner) (fs : FileSystem) (cancel_req : nat → bool)
        (db : Database) (mount_point : string) (t : node).

Local Abbreviation root := (scan_root fs mount_point).
Local Abbreviation sid := (scan_sid db).
Local Abbreviation start := (scan_start fs db mount_point).
Local Abbreviation items := (os_walk (scan_root fs mount_point) t).

(** The loop body over the whole walk of a well-formed tree writes the
    expected entries, children before parents. *)
Lemma full_run_post :
  wf_tree t = true →
  run_post self sid root start (run self sid root items start)
           (emitted_nodes self root root t).
Proof.
  intros Hwf. apply run_subtree; [by apply all_paths_nodup|].
  intros p _. apply lookup_empty.
Qed.

Lemma full_run_rows :
  wf_tree t = true →
  rows sid (run self sid root items start)
  = entries db ++ map (entry_row sid) (expected_entries self root root t).
Proof.
  intros Hwf. destruct (full_run_post Hwf) as (_ & R & _).
  rewrite R. unfold rows, scan_start, expected_entries.
  cbn [st_db entries_batch create_snapshot snd entries map].
  by rewrite app_nil_r, <- list_fmap_compose.
Qed.

(** With nothing to stop it, the scan completes. *)
Lemma scan_completes :
  _running self = false → dir_at fs root = Some t →
  crash_free t = true → callback_quiet self →
  (∀ j, (j ≤ length items)%nat → cancel_req j = false) →
  let st := run self sid root items start in
  scan self fs cancel_req db mount_point
  = (Returned (stats st), scanner_done self false, finish_completed sid st).
Proof.
  intros Hrun Hdir Hcf Hq Hc.
  destruct (scan_cases self fs cancel_req db mount_point t Hrun Hdir)
    as (k & Hk & Hfalse & [(-> & _ & Hscan) | [(Hck & _) | (Hno & _)]]).
  - by rewrite firstn_all in Hscan.
  - rewrite Hc in Hck by done. done.
  - destruct Hno. split; [done|]. by apply os_walk_yields.
Qed.


End Outcomes.

(** ** Example environments *)

(** A directory with a readable and an unreadable file, a subdirectory
    holding a nested one, a directory that cannot be listed, a link to a
    directory, and a directory named like a built-in skip path. *)
Definition demo_tree : node :=
  Directory
    [("readme", StatOk 7);
     ("secret", StatErr (Exn "PermissionError" "Permission denied"))]
    [("a", Directory [("x", StatOk 10); ("y", StatOk 5)]
                     [("deep", Directory [("z", StatOk 1)] [])]);
     ("locked", Unlistable (Exn "PermissionError" "Permission denied"));
     ("link", DirSymlink);
     ("tmp", Directory [("junk", StatOk 100)] [])].

(** A directory in which one listing raises past the walk. *)
Definition crash_tree : node :=
  Directory []
    [("a", Directory [("f", StatOk 1)] []);
     ("boom", WalkCrash (Exn "UnicodeDecodeError" "bad file name"))].

(** [demo_tree] is mounted at "/data" and at "/", [crash_tree] at
    "/crash"; paths are given in normal form. *)
Definition demo_fs : FileSystem :=
  MkFs (fun p => p)
       (fun p => if String.eqb p "/data" then Some demo_tree
                 else if String.eqb p "/" then Some demo_tree
                 else if String.eqb p "/crash" then Some crash_tree
                 else None).

Definition demo_scanner : DiskScanner := DiskScanner_init None 0.


Lemma demo_scanner_quiet : callback_quiet demo_scanner.
Proof. intros cb p H. discriminate H. Qed.

(** The scan of "/data" that nothing interrupts, evaluated: what it
    returns and the store it leaves. *)
Definition demo_stats : Stats.t :=
  Eval vm_compute in
    match (scan demo_scanner demo_fs never_cancel empty_db "/data").1.1 with
    | Returned s => s
    | Raised _ => stats0
    end.

Definition demo_db : Database :=
  Eval vm_compute in
    (scan demo_scanner demo_fs never_cancel empty_db "/data").2.

Lemma demo_scan :
  scan demo_scanner demo_fs never_cancel empty_db "/data"
  = (Returned demo_stats, scanner_done demo_scanner false, demo_db).
Proof. vm_compute. reflexivity. Qed.

Lemma demo_dir : dir_at demo_fs (scan_root demo_fs "/data") = Some demo_tree.
Proof. reflexivity. Qed.

Lemma demo_wf : wf_tree demo_tree = true.
Proof. vm_compute. reflexivity. Qed.

Lemma demo_crash_free : crash_free demo_tree = true.
Proof. reflexivity. Qed.

Lemma demo_root_kept :
  _should_skip demo_scanner (scan_root demo_fs "/data") = false.
Proof. vm_compute. reflexivity. Qed.

Lemma demo_completed :
  Snapshot.status <$> last (snapshots demo_db) = Some completed.
Proof. reflexivity. Qed.

(** ** Cancellation *)



(** ** Fatal failures *)




(** ** The directories of a tree and the rows written for them *)

(** Every node of a tree with its path. *)
Fixpoint tree_nodes (top : string) (n : node) : list (string * node) :=
  (top, n) :: match n with
              | Directory _ subdirs =>
                flat_map (fun sub => tree_nodes (Path.join top sub.1) sub.2)
                         subdirs
              | _ => []
              end.

(** The row of a snapshot at a path. *)
Definition row_at (written : list Entry.t) (p : string) : option Entry.t :=
  head (filter (fun e => Entry.path e = p) written).

(** The rows of the immediate subdirectories of [p] that have one. *)
Definition child_rows (written : list Entry.t) (p : string)
  (subdirs : list (string * node)) : list Entry.t :=
  omap (fun sub => row_at written (Path.join p sub.1)) subdirs.

Definition Zsum (l : list Z) : Z := foldr Z.add 0 l.

Section TreeNodes.
Context (self : DiskScanner) (sid : Z) (mount_point : string).

Local Abbreviation wf_names := (Forall (fun n => wf_name n = true)).

Lemma tree_nodes_paths (t : node) :
  ∀ top, map fst (tree_nodes top t) = all_paths top t.
Proof.
  induction t as [files subdirs IH|e| |e] using node_ind; intros top;
    simpl; try done.
  f_equal. rewrite map_flat_map.
  induction IH as [|sub subdirs Hsub _ IHl]; simpl; [done|].
  by rewrite Hsub, IHl.
Qed.

Lemma tree_nodes_head top t : (top, t) ∈ tree_nodes top t.
Proof. destruct t; simpl; left. Qed.

Lemma tree_nodes_child (t : node) :
  ∀ top p files subdirs sub,
    (p, Directory files subdirs) ∈ tree_nodes top t → sub ∈ subdirs →
    (Path.join p sub.1, sub.2) ∈ tree_nodes top t.
Proof.
  induction t as [files' subdirs' IH|e| |e] using node_ind;
    intros top p files subdirs sub Hp Hsub; simpl in Hp;
    try (apply list_elem_of_singleton in Hp; done).
  simpl. right. apply elem_of_flat_map.
  apply elem_of_cons in Hp as [Hp | Hp].
  - injection Hp as -> -> ->. exists sub. split; [done|].
    apply tree_nodes_head.
  - apply elem_of_flat_map in Hp as (sub' & Hsub' & Hp).
    exists sub'. split; [done|].
    rewrite Forall_forall in IH. by apply (IH sub' Hsub' _ p files subdirs).
Qed.

(** Every node is reached from the mount point through well-formed names. *)
Lemma tree_nodes_joins (t : node) :
  ∀ names pn, wf_names names → wf_tree t = true →
    pn ∈ tree_nodes (joins mount_point names) t →
    ∃ names', wf_names names' ∧ pn.1 = joins mount_point names'
              ∧ wf_tree pn.2 = true.
Proof.
  induction t as [files subdirs IH|e| |e] using node_ind;
    intros names pn Hwf Hwt Hpn; simpl in Hpn;
    try (apply list_elem_of_singleton in Hpn as ->; by exists names).
  apply elem_of_cons in Hpn as [-> | Hpn]; [by exists names|].
  apply elem_of_flat_map in Hpn as (sub & Hsub & Hpn).
  apply wf_tree_dir in Hwt as (Hnames & _ & Hsubs).
  rewrite Forall_forall in IH, Hnames, Hsubs.
  rewrite <- joins_snoc in Hpn.
  apply (IH sub Hsub (names ++ [sub.1])); auto.
  apply Forall_app. split; [done|]. apply Forall_singleton. auto.
Qed.

Lemma emitted_iff (t : node) :
  ∀ top pn,
    pn ∈ emitted_nodes self mount_point top t ↔
    pn ∈ tree_nodes top t ∧ contributes self mount_point pn.1 pn.2 = true.
Proof.
  induction t as [files subdirs IH|e| |e] using node_ind; intros top pn; simpl.
  2-4: split; [by intros ?%elem_of_nil
               | intros [->%list_elem_of_singleton Hc];
                 by unfold contributes in Hc].
  rewrite Forall_forall in IH.
  rewrite elem_of_app, elem_of_cons, !elem_of_flat_map. split.
  - intros [(sub & Hsub & Hpn) | Hpn].
    + apply (IH sub Hsub) in Hpn as [Hpn Hc]. split; [|done].
      right. by exists sub.
    + destruct (emitted self mount_point top) eqn:Hem;
        [|by apply elem_of_nil in Hpn].
      apply list_elem_of_singleton in Hpn as ->. split; [by left|].
      unfold contributes. simpl. by rewrite Hem.
  - intros [[-> | (sub & Hsub & Hpn)] Hc].
    + right. unfold contributes in Hc. simpl in Hc. rewrite Hc. by left.
    + left. exists sub. split; [done|]. by apply (IH sub Hsub).
Qed.

Lemma NoDup_fst_inj {A B} (l : list (A * B)) x y1 y2 :
  NoDup (map fst l) → (x, y1) ∈ l → (x, y2) ∈ l → y1 = y2.
Proof.
  induction l as [|[a b] l IH]; intros Hnd H1 H2.
  { by apply elem_of_nil in H1. }
  simpl in Hnd. apply NoDup_cons in Hnd as [Hfresh Hnd].
  apply elem_of_cons in H1 as [H1 | H1]; apply elem_of_cons in H2 as [H2 | H2].
  - congruence.
  - injection H1 as -> ->. destruct Hfresh.
    by apply (list_elem_of_fmap_2 fst) in H2.
  - injection H2 as -> ->. destruct Hfresh.
    by apply (list_elem_of_fmap_2 fst) in H1.
  - by apply IH.
Qed.

Lemma emitted_paths_nodup top t :
  wf_tree t = true → NoDup (map fst (emitted_nodes self mount_point top t)).
Proof.
  intros Hwf. pose proof (all_paths_nodup t top Hwf) as Hnd. clear Hwf.
  revert top Hnd.
  induction t as [files subdirs IH|e| |e] using node_ind; intros top Hnd;
    simpl; try constructor.
  simpl in Hnd. apply NoDup_cons in Hnd as [Hfresh Hnd].
  rewrite map_app. apply NoDup_app. split; [|split].
  - clear Hfresh. induction IH as [|sub subdirs Hsub _ IHl]; simpl;
      [constructor|].
    simpl in Hnd. apply NoDup_app in Hnd as (Hnd1 & Hdisj & Hnd2).
    rewrite map_app. apply NoDup_app. split; [by apply Hsub|].
    split; [|by apply IHl].
    intros p Hp Hp'. apply (Hdisj p).
    + apply list_elem_of_fmap in Hp as (pn & -> & Hpn).
      by apply (emitted_paths_in self mount_point).
    + apply list_elem_of_fmap in Hp' as (pn & -> & Hpn).
      apply elem_of_flat_map in Hpn as (sub' & Hsub' & Hpn).
      apply elem_of_flat_map. exists sub'. split; [done|].
      by apply (emitted_paths_in self mount_point).
  - intros p Hp Hp'.
    destruct (emitted self mount_point top); [|by apply elem_of_nil in Hp'].
    apply list_elem_of_singleton in Hp'. simpl in Hp'. subst p.
    apply Hfresh.
    apply list_elem_of_fmap in Hp as (pn & -> & Hpn).
    apply elem_of_flat_map in Hpn as (sub' & Hsub' & Hpn).
    apply elem_of_flat_map. exists sub'. split; [done|].
    by apply (emitted_paths_in self mount_point).
  - destruct (emitted self mount_point top); simpl;
      [apply NoDup_singleton | constructor].
Qed.

(** The row at a path, among the rows written for [nodes]. *)
Lemma row_at_written (nodes : list (string * node)) (k : string) :
  row_at (map (fun pn => entry_row sid (expected_entry self mount_point pn))
              nodes) k
  = (fun pn => entry_row sid (expected_entry self mount_point pn))
      <$> head (filter (fun pn : string * node => pn.1 = k) nodes).
Proof.
  unfold row_at. induction nodes as [|pn nodes IH]; [done|].
  cbn [map]. rewrite !filter_cons.
  assert (Entry.path (entry_row sid (expected_entry self mount_point pn))
          = pn.1) as Hp.
  { simpl. unfold expected_entry. apply subtree_entry_path. }
  rewrite Hp. by destruct (decide (pn.1 = k)).
Qed.

Lemma node_at_unique (nodes : list (string * node)) (k : string) (c : node) :
  NoDup (map fst nodes) → (k, c) ∈ nodes →
  head (filter (fun pn : string * node => pn.1 = k) nodes) = Some (k, c).
Proof.
  induction nodes as [|[a b] nodes IH]; intros Hnd Hin.
  { by apply elem_of_nil in Hin. }
  simpl in Hnd. apply NoDup_cons in Hnd as [Hfresh Hnd].
  rewrite filter_cons. simpl.
  apply elem_of_cons in Hin as [Hin | Hin].
  - injection Hin as -> ->. by rewrite decide_True.
  - rewrite decide_False; [by apply IH|].
    intros ->. apply Hfresh. by apply (list_elem_of_fmap_2 fst) in Hin.
Qed.

Lemma node_at_none (nodes : list (string * node)) (k : string) :
  (∀ c, (k, c) ∉ nodes) →
  head (filter (fun pn : string * node => pn.1 = k) nodes) = None.
Proof.
  intros Hno. rewrite filter_none; [done|].
  intros [a b] Hin Hk. simpl in Hk. subst a. by apply (Hno b).
Qed.

(** In the rows of a scanned tree, the row at the path of a node is the
    expected entry of that node when it was entered and not excluded,
    and there is none otherwise. *)
Lemma row_at_node top t k c :
  wf_tree t = true → (k, c) ∈ tree_nodes top t →
  row_at (map (fun pn => entry_row sid (expected_entry self mount_point pn))
              (emitted_nodes self mount_point top t)) k
  = if contributes self mount_point k c
    then Some (entry_row sid (subtree_entry self mount_point k c))
    else None.
Proof.
  intros Hwf Hin. rewrite row_at_written.
  destruct (contributes self mount_point k c) eqn:Hc.
  - rewrite (node_at_unique _ k c); [done | by apply emitted_paths_nodup|].
    by apply emitted_iff.
  - rewrite node_at_none; [done|].
    intros c' Hc'. apply emitted_iff in Hc' as [Hin' Hc'].
    simpl in Hc'.
    assert (c' = c) as ->; [|congruence].
    apply (NoDup_fst_inj (tree_nodes top t) k); [|done..].
    rewrite tree_nodes_paths. by apply all_paths_nodup.
Qed.

End TreeNodes.

(** ** Completed scans *)

Section Completed.
Context (self : DiskScanner) (fs : FileSystem) (cancel_req : nat → bool)
        (db : Database) (mount_point : string) (t : node).

Local Abbreviation root := (scan_root fs mount_point).
Local Abbreviation sid := (scan_sid db).
Local Abbreviation start := (scan_start fs db mount_point).
Local Abbreviation items := (os_walk (scan_root fs mount_point) t).

(** A scan that returned and left its snapshot completed ran the loop
    body over the whole walk. *)
Lemma scan_completed_inv (result_stats : Stats.t) self' db' :
  dir_at fs root = Some t →
  scan self fs cancel_req db mount_point
  = (Returned result_stats, self', db') →
  Snapshot.status <$> last (snapshots db') = Some completed →
  result_stats = stats (run self sid root items start)
  ∧ db' = finish_completed sid (run self sid root items start).
Proof.
  intros Hdir Hscan Hstatus.
  destruct (_running self) eqn:Hrun.
  { by rewrite scan_busy in Hscan. }
  destruct (scan_cases self fs cancel_req db mount_point t Hrun Hdir)
    as (k & Hk & Hfalse & [(-> & _ & Hs) | [(_ & Hs) | (_ & e & Hs)]]);
    rewrite Hs in Hscan.
  - rewrite firstn_all in Hscan. by injection Hscan as <- _ <-.
  - injection Hscan as _ _ <-.
    destruct (finish_cancelled_last self fs db mount_point (take k items))
      as [[ended Hlast] _].
    cbv zeta in Hlast. rewrite Hlast in Hstatus. done.
  - done.
Qed.

Lemma children_rows_sum (written : list Entry.t) (p : string)
  (subdirs : list (string * node)) :
  (∀ sub, sub ∈ subdirs →
     row_at written (Path.join p sub.1)
     = if contributes self root (Path.join p sub.1) sub.2
       then Some (entry_row sid (subtree_entry self root (Path.join p sub.1)
                                               sub.2))
       else None) →
  ∀ e,
    let e' := foldl (add_child self root p) e subdirs in
    let rows := child_rows written p subdirs in
    de_size e' = de_size e + Zsum (map Entry.size rows) ∧
    de_file_count e' = de_file_count e + Zsum (map Entry.file_count rows) ∧
    de_dir_count e'
    = de_dir_count e + Zsum (map (fun c => Entry.dir_count c + 1) rows).
Proof.
  induction subdirs as [|sub subdirs IH]; intros Hrows e.
  { unfold Zsum. simpl. lia. }
  cbv zeta. cbn [foldl]. unfold child_rows. cbn [omap list_omap].
  fold (child_rows written p subdirs).
  destruct (IH (fun s Hs => Hrows s (list_elem_of_further _ _ _ Hs))
               (add_child self root p e sub)) as (Hs & Hf & Hd).
  cbv zeta in Hs, Hf, Hd. rewrite Hs, Hf, Hd. clear Hs Hf Hd IH.
  rewrite (Hrows sub) by (by left). unfold add_child.
  destruct (contributes self root (Path.join p sub.1) sub.2).
  - set (c := subtree_entry _ _ _ _). unfold Zsum, de_add.
    cbn [map foldr de_size de_file_count de_dir_count entry_row Entry.size
         Entry.file_count Entry.dir_count].
    repeat split; lia.
  - done.
Qed.

End Completed.

(** ** The aggregation invariant *)

(** C1.  In the rows a completed scan of a well-formed tree wrote, every
    row belongs to a listed directory of the tree, and its size is the
    sum of the sizes of the files directly inside that could be read
    plus the sizes in the rows of its immediate subdirectories that have
    a row; its file count adds up the same way; its directory count is
    the sum, over those child rows, of the child's count plus one, and it
    is the number of directories strictly below that got a row. *)
Theorem completed_entries_aggregate
  (self : DiskScanner) (fs : FileSystem) (cancel_req : nat → bool)
  (db : Database) (mount_point : string) (t : node)
  (result_stats : Stats.t) (self' : DiskScanner) (db' : Database) :
  dir_at fs (scan_root fs mount_point) = Some t →
  wf_tree t = true →
  scan self fs cancel_req db mount_point
  = (Returned result_stats, self', db') →
  Snapshot.status <$> last (snapshots db') = Some completed →
  ∃ written : list Entry.t,
    entries db' = entries db ++ written ∧
    ∀ e, e ∈ written →
      Entry.snapshot_id e = scan_sid db ∧
      ∃ files subdirs,
        (Entry.path e, Directory files subdirs)
          ∈ tree_nodes (scan_root fs mount_point) t ∧
        let children := child_rows written (Entry.path e) subdirs in
        Entry.size e = own_size files + Zsum (map Entry.size children) ∧
        Entry.file_count e
        = own_count files + Zsum (map Entry.file_count children) ∧
        Entry.dir_count e
        = Zsum (map (fun c => Entry.dir_count c + 1) children) ∧
        Entry.dir_count e
        = Z.of_nat (length (below self (scan_root fs mount_point)
                                  (Entry.path e) (Directory files subdirs))).
Proof.
  intros Hdir Hwf Hscan Hstatus.
  destruct (scan_completed_inv self fs cancel_req db mount_point t
              result_stats self' db' Hdir Hscan Hstatus) as [_ ->].
  exists (map (fun pn => entry_row (scan_sid db)
                           (expected_entry self (scan_root fs mount_point) pn))
              (emitted_nodes self (scan_root fs mount_point)
                             (scan_root fs mount_point) t)).
  split.
  { destruct (finish_entries db
                (run self (scan_sid db) (scan_root fs mount_point)
                     (os_walk (scan_root fs mount_point) t)
                     (scan_start fs db mount_point))) as (-> & _).
    rewrite (full_run_rows self fs db mount_point t Hwf).
    unfold expected_entries. by rewrite <- list_fmap_compose. }
  clear Hscan Hstatus.
  intros e (pn & -> & Hpn)%list_elem_of_fmap. split; [done|].
  destruct pn as [p n].
  apply emitted_iff in Hpn as [Hin Hc]. cbn [fst snd] in Hc.
  destruct n as [files subdirs| | |]; try (by unfold contributes in Hc).
  exists files, subdirs.
  assert (Entry.path (entry_row (scan_sid db)
                        (expected_entry self (scan_root fs mount_point)
                                        (p, Directory files subdirs))) = p)
    as Hp by apply subtree_entry_path.
  rewrite Hp. split; [done|].
  destruct (tree_nodes_joins (scan_root fs mount_point) t []
              (p, Directory files subdirs))
    as (names & Hnames & Hjoin & Hwfn); [constructor | done | done |].
  cbn [fst snd] in Hjoin, Hwfn.
  pose proof (subtree_totals self (scan_root fs mount_point)
                (Directory files subdirs) names Hnames Hwfn)
    as (_ & _ & Hcount).
  rewrite <- Hjoin in Hcount.
  change (expected_entry self (scan_root fs mount_point)
                          (p, Directory files subdirs))
    with (subtree_entry self (scan_root fs mount_point) p
                        (Directory files subdirs)).
  cbn [entry_row Entry.size Entry.file_count Entry.dir_count].
  rewrite <- Hcount.
  rewrite subtree_entry_dir.
  destruct (children_rows_sum self fs db mount_point
              (map (fun pn => entry_row (scan_sid db)
                                (expected_entry self (scan_root fs mount_point)
                                                pn))
                   (emitted_nodes self (scan_root fs mount_point)
                                  (scan_root fs mount_point) t)) p subdirs)
    with
    (e := de_add (new_dir_entry p (scan_root fs mount_point)
                                (_get_depth p (scan_root fs mount_point)))
                 (own_size files) (own_count files) 0)
    as (Hs & Hf & Hd).
  { intros sub Hsub.
    apply (row_at_node self (scan_sid db) (scan_root fs mount_point)
                       (scan_root fs mount_point) t); [done|].
    by apply (tree_nodes_child t (scan_root fs mount_point) p files subdirs). }
  cbv zeta in Hs, Hf, Hd. rewrite Hs, Hf, Hd.
  cbn [de_add de_size de_file_count de_dir_count new_dir_entry].
  repeat split; lia.
Qed.

Lemma completed_entries_aggregate_witness :
  scan demo_scanner demo_fs never_cancel empty_db "/data"
  = (Returned demo_stats, scanner_done demo_scanner false, demo_db) ∧
  ∃ written : list Entry.t,
    entries demo_db = entries empty_db ++ written ∧
    ∀ e, e ∈ written → Entry.snapshot_id e = scan_sid empty_db.
Proof.
  split; [exact demo_scan|].
  destruct (completed_entries_aggregate demo_scanner demo_fs never_cancel
              empty_db "/data" demo_tree demo_stats
              (scanner_done demo_scanner false) demo_db
              demo_dir demo_wf demo_scan demo_completed)
    as (written & Hw & Hall).
  exists written. split; [exact Hw|].
  intros e He. by destruct (Hall e He).
Defined.

(** ** The totals of the snapshot *)

Lemma root_emitted (self : DiskScanner) (root : string) :
  _should_skip self root = false → emitted self root root = true.
Proof.
  intros Hskip. unfold emitted, _get_depth.
  rewrite Hskip, String.eqb_refl. simpl.
  destruct (0 <? max_depth self) eqn:E; [|done]. simpl.
  apply Z.ltb_lt in E. apply negb_true_iff, Z.ltb_ge. lia.
Qed.

(** C10.  When a scan of a well-formed tree completes, its root was
    listed and was not skipped, the totals kept with the snapshot are
    those of the root's row, the last row written: the same size, the
    same file count, and the directory count plus one. *)
Theorem completed_totals_match_root
  (self : DiskScanner) (fs : FileSystem) (cancel_req : nat → bool)
  (db : Database) (mount_point : string) (t : node)
  (result_stats : Stats.t) (self' : DiskScanner) (db' : Database) :
  dir_at fs (scan_root fs mount_point) = Some t →
  wf_tree t = true →
  is_walked t = true →
  _should_skip self (scan_root fs mount_point) = false →
  scan self fs cancel_req db mount_point
  = (Returned result_stats, self', db') →
  Snapshot.status <$> last (snapshots db') = Some completed →
  ∃ snap root_row,
    last (snapshots db') = Some snap ∧
    Snapshot.id snap = scan_sid db ∧
    last (entries db') = Some root_row ∧
    Entry.snapshot_id root_row = scan_sid db ∧
    Entry.path root_row = scan_root fs mount_point ∧
    Snapshot.total_size snap = Entry.size root_row ∧
    Snapshot.total_files snap = Entry.file_count root_row ∧
    Snapshot.total_dirs snap = Entry.dir_count root_row + 1.
Proof.
  intros Hdir Hwf Hwalked Hskip Hscan Hstatus.
  destruct (scan_completed_inv self fs cancel_req db mount_point t
              result_stats self' db' Hdir Hscan Hstatus) as [_ ->].
  clear Hscan Hstatus.
  destruct (finish_completed_last self fs db mount_point
              (os_walk (scan_root fs mount_point) t)) as [ended Hlast].
  cbv zeta in Hlast. rewrite Hlast.
  destruct (finish_entries db
              (run self (scan_sid db) (scan_root fs mount_point)
                   (os_walk (scan_root fs mount_point) t)
                   (scan_start fs db mount_point))) as (-> & _).
  rewrite (full_run_rows self fs db mount_point t Hwf).
  destruct (full_run_post self fs db mount_point t Hwf) as (_ & _ & -> & _).
  destruct t as [files subdirs| | |]; try done.
  pose proof (root_emitted self _ Hskip) as Hem.
  unfold expected_entries.
  rewrite (emitted_nodes_dir self _ _ files subdirs Hem).
  rewrite map_app, map_app. cbn [map]. rewrite app_assoc, last_snoc.
  eexists _, _. split; [reflexivity|].
  split; [reflexivity|]. split; [reflexivity|].
  pose proof (subtree_totals self (scan_root fs mount_point)
                (Directory files subdirs) [] (Forall_nil_2 _) Hwf)
    as (Hs & Hf & Hd).
  change (joins (scan_root fs mount_point) []) with (scan_root fs mount_point)
    in Hs, Hf, Hd.
  change (expected_entry self (scan_root fs mount_point)
            (scan_root fs mount_point, Directory files subdirs))
    with (subtree_entry self (scan_root fs mount_point)
            (scan_root fs mount_point) (Directory files subdirs)).
  cbn [Snapshot.id Snapshot.total_size Snapshot.total_files
       Snapshot.total_dirs entry_row Entry.snapshot_id Entry.path Entry.size
       Entry.file_count Entry.dir_count].
  rewrite Hs, Hf, Hd, subtree_entry_path, !sum_over_snoc, length_app.
  change (stats (scan_start fs db mount_point)) with stats0.
  cbn [node_files snd stats_add stats0 Stats.total_size Stats.total_files
       Stats.total_dirs length].
  repeat split; lia.
Qed.

Lemma completed_totals_match_root_witness :
  scan demo_scanner demo_fs never_cancel empty_db "/data"
  = (Returned demo_stats, scanner_done demo_scanner false, demo_db) ∧
  ∃ snap root_row,
    last (snapshots demo_db) = Some snap ∧
    last (entries demo_db) = Some root_row ∧
    Snapshot.total_size snap = Entry.size root_row ∧
    Snapshot.total_files snap = Entry.file_count root_row ∧
    Snapshot.total_dirs snap = Entry.dir_count root_row + 1.
Proof.
  split; [exact demo_scan|].
  destruct (completed_totals_match_root demo_scanner demo_fs never_cancel
              empty_db "/data" demo_tree demo_stats
              (scanner_done demo_scanner false) demo_db
              demo_dir demo_wf eq_refl demo_root_kept demo_scan demo_completed)
    as (snap & root_row & H1 & _ & H2 & _ & _ & H3 & H4 & H5).
  exists snap, root_row.
  split; [exact H1|]. split; [exact H2|]. split; [exact H3|].
  split; [exact H4|exact H5].
Defined.

(** ** Directories that cannot be listed *)


Ltac in_tree_nodes :=
  apply list_elem_of_In; vm_compute;
  repeat first [solve [left; reflexivity] | right].



(** ** Files that cannot be read *)



Section Readable.
Context (self : DiskScanner) (mount_point : string).











End Readable.




(** ** The scheduler ([scheduler.py]) *)

(** [asyncio.Task]: all the scheduler asks of it is [done()]. *)
Record Task := MkTask { task_done : bool }.

(** The [scanner] section of the configuration; a key that is absent is
    [None]. *)
Record ScannerConfig := MkConfig {
  cfg_mount_points : option (list string);
  cfg_skip_paths : option (list string);
  cfg_max_depth : option Z
}.

(** The fields [ScanScheduler.__init__] sets.  The status callback gets
    the event name and its data; it returns or raises. *)
Record ScanScheduler := MkScheduler {
  config : ScannerConfig;
  _scan_task : option Task;
  _status_callback : option (string → progress → option exn)
}.

(** [ScanScheduler.__init__] (lines 23-28). *)
Definition ScanScheduler_init (cfg : ScannerConfig) : ScanScheduler :=
  {| config := cfg; _scan_task := None; _status_callback := None |}.

(** [ScanScheduler.is_scan_running] (lines 150-152), and the same test
    at the head of [trigger_scan] (line 110). *)
Definition is_scan_running (self : ScanScheduler) : bool :=
  match _scan_task self with
  | Some task => negb (task_done task)
  | None => false
  end.

(** [ScanScheduler._notify_progress] (lines 131-141). *)
Definition _notify_progress (self : ScanScheduler) (data : progress)
  : option exn :=
  match _status_callback self with
  | Some callback => callback "scan_progress" data
  | None => None
  end.

(** [set_progress_callback] (scanner.py, lines 41-43). *)
Definition set_progress_callback (scanner : DiskScanner)
  (callback : progress → option exn) : DiskScanner :=
  {| skip_paths := skip_paths scanner;
     max_depth := max_depth scanner;
     _running := _running scanner;
     _cancelled := _cancelled scanner;
     _progress_callback := Some callback;
     BATCH_SIZE := BATCH_SIZE scanner |}.

(** One element of the list [run_scan] returns. *)
Inductive scan_report :=
| Success (mount_point : string) (st : Stats.t)
| Failure (mount_point : string) (error : string).

(** The loop of [run_scan] (scanner.py, lines 248-263).  Nothing outside
    [run_scan] holds the scanner, so nothing calls its [cancel]. *)
Fixpoint run_scan_loop (scanner : DiskScanner) (fs : FileSystem)
  (db : Database) (mount_points : list string)
  : list scan_report * Database :=
  match mount_points with
  | [] => ([], db)
  | mount_point :: rest =>
    match scan scanner fs never_cancel db mount_point with
    | (Returned st, scanner', db') =>
      let later := run_scan_loop scanner' fs db' rest in
      (Success mount_point st :: later.1, later.2)
    | (Raised e, scanner', db') =>
      let later := run_scan_loop scanner' fs db' rest in
      (Failure mount_point (exn_msg e) :: later.1, later.2)
    end
  end.

(** [run_scan] (scanner.py, lines 236-265): a scanner of its own for
    every call. *)
Definition run_scan (fs : FileSystem) (db : Database)
  (mount_points : list string) (skip : option (list string)) (depth : Z)
  (progress_callback : progress → option exn)
  : list scan_report * Database :=
  run_scan_loop (set_progress_callback (DiskScanner_init skip depth)
                                       progress_callback)
                fs db mount_points.

(** The arguments [trigger_scan] hands on (lines 114-118). *)
Definition trigger_mount_points (self : ScanScheduler)
  (mount_points : option (list string)) : list string :=
  match mount_points with
  | Some (mp :: mps) => mp :: mps
  | _ => default ["/"] (cfg_mount_points (config self))
  end.

(** [ScanScheduler.trigger_scan] (lines 105-129), run to its end.  It
    never assigns [self._scan_task]: the scheduler is left as it was. *)
Definition trigger_scan (self : ScanScheduler) (fs : FileSystem)
  (db : Database) (mount_points : option (list string))
  : result (list scan_report) * Database :=
  if is_scan_running self
  then (Raised (Exn "RuntimeError" "A scan is already in progress"), db)
  else
    let done := run_scan fs db (trigger_mount_points self mount_points)
                  (Some (default [] (cfg_skip_paths (config self))))
                  (default 0 (cfg_max_depth (config self)))
                  (_notify_progress self) in
    (Returned done.1, done.2).

(** Where a call of [trigger_scan] stands when it first gives up
    control: rejected, suspended inside the scan of a mount point, or
    already returned because no mount point got as far as a snapshot. *)
Inductive triggered :=
| TriggerRejected (e : exn)
| TriggerSuspended (scanner : DiskScanner) (snapshot_id : Z)
                   (mount_point : string) (tree : node) (db : Database)
| TriggerReturned (db : Database).

Fixpoint run_scan_begin (scanner : DiskScanner) (fs : FileSystem)
  (db : Database) (mount_points : list string) : triggered :=
  match mount_points with
  | [] => TriggerReturned db
  | mount_point :: rest =>
    match scan_begin scanner fs db mount_point with
    | Started scanner' sid root tree db' =>
      TriggerSuspended scanner' sid root tree db'
    | NoMount _ => run_scan_begin (scanner_done scanner false) fs db rest
    | Rejected _ => run_scan_begin scanner fs db rest
    end
  end.

Definition trigger_scan_begin (self : ScanScheduler) (fs : FileSystem)
  (db : Database) (mount_points : option (list string)) : triggered :=
  if is_scan_running self
  then TriggerRejected (Exn "RuntimeError" "A scan is already in progress")
  else
    run_scan_begin
      (set_progress_callback
         (DiskScanner_init (Some (default [] (cfg_skip_paths (config self))))
                           (default 0 (cfg_max_depth (config self))))
         (_notify_progress self))
      fs db (trigger_mount_points self mount_points).

Definition demo_scheduler : ScanScheduler :=
  ScanScheduler_init (MkConfig (Some ["/data"]) None None).

(** ** A second request while a scan runs *)

(** On one scanner the guard of [scan] works: while it is marked
    running, a second call raises and changes neither the scanner nor
    the store. *)
Lemma running_scanner_rejects (self : DiskScanner) (fs : FileSystem)
  (cancel_req : nat → bool) (db : Database) (mount_point : string) :
  ∀ self1 sid root tree db1,
    scan_begin self fs db mount_point = Started self1 sid root tree db1 →
    ∀ mount_point', scan self1 fs cancel_req db1 mount_point'
    = (Raised (Exn "RuntimeError" "Scan already in progress"), self1, db1).
Proof.
  intros self1 sid root tree db1 Hb mp'. apply scan_busy.
  unfold scan_begin in Hb. destruct (_running self); [done|].
  destruct (dir_at fs (abspath fs mount_point)); [|done].
  by injection Hb as <- _ _ _ _.
Qed.

(** C6 on the code.  Through the scheduler the guard never fires: its
    [_scan_task] is never set, and every request builds a scanner of its
    own.  A second [trigger_scan] that arrives while the first is
    suspended in its scan is not rejected, and the store then holds two
    running snapshots. *)
Theorem second_trigger_starts_second_scan :
  is_scan_running demo_scheduler = false ∧
  ∃ scanner1 tree1 db1 scanner2 tree2 db2,
    trigger_scan_begin demo_scheduler demo_fs empty_db None
    = TriggerSuspended scanner1 1 "/data" tree1 db1 ∧
    map Snapshot.status (running_snapshots db1) = [running] ∧
    trigger_scan_begin demo_scheduler demo_fs db1 None
    = TriggerSuspended scanner2 2 "/data" tree2 db2 ∧
    map Snapshot.id (running_snapshots db2) = [1; 2].
Proof.
  split; [reflexivity|].
  eexists _, _, _, _, _, _.
  split; [reflexivity|]. split; [reflexivity|].
  split; [reflexivity|]. reflexivity.
Qed.

(** * More of the scanner and of the store

    ** What every row of a scan looks like *)

(** The fields of an entry that the sums of lines 141-159 leave alone. *)
Definition de_static (e : dir_entry)
  : string * string * Z * option string * Z :=
  (de_path e, de_name e, de_depth e, de_parent_path e, de_is_dir e).

(** A row as line 123-132 and 166 make it for a directory the loop body
    did not pass over. *)
Definition kept_row (self : DiskScanner) (sid : Z) (mount_point : string)
  (e : Entry.t) : Prop :=
  Entry.snapshot_id e = sid ∧
  emitted self mount_point (Entry.path e) = true ∧
  Entry.depth e = _get_depth (Entry.path e) mount_point ∧
  Entry.name e = (let b := Path.basename (Entry.path e) in
                  if String.eqb b "" then Entry.path e else b) ∧
  Entry.parent_path e = (if String.eqb (Entry.path e) mount_point then None
                         else Some (Path.dirname (Entry.path e))) ∧
  Entry.is_dir e = 1 ∧
  Entry.error e = None.

(** The ids AUTOINCREMENT has handed out and the readings the clock has
    given: what every store built by the operations of [models.py] from
    the empty one satisfies. *)
Definition db_ok (db : Database) : Prop :=
  Forall (fun s => Snapshot.id s ≤ Z.of_nat (seq_snapshots db)
                   ∧ Snapshot.started_at s < clock db
                   ∧ match Snapshot.completed_at s with
                     | Some ended => ended < clock db
                     | None => True
                     end)
         (snapshots db)
  ∧ Forall (fun e => Entry.snapshot_id e ≤ Z.of_nat (seq_snapshots db))
           (entries db)
  ∧ 0 ≤ clock db.

(** The mount point a report of [run_scan] is about. *)
Definition report_mount (r : scan_report) : string :=
  match r with
  | Success mount_point _ => mount_point
  | Failure mount_point _ => mount_point
  end.

Section RowFacts.
Context (self : DiskScanner) (sid : Z) (mount_point : string).

Lemma add_subdirs_static root sizes dirs :
  ∀ e, de_static (foldl (add_subdir root sizes) e dirs) = de_static e.
Proof.
  induction dirs as [|d dirs IH]; intros e; [done|].
  cbn [foldl]. rewrite IH. unfold add_subdir.
  by destruct (sizes !! Path.join root d).
Qed.

Lemma built_entry_static sizes root dirs files :
  de_static (built_entry mount_point sizes root dirs files)
  = de_static (new_dir_entry root mount_point (_get_depth root mount_point)).
Proof. unfold built_entry. by rewrite add_subdirs_static. Qed.

Lemma built_entry_kept sizes root dirs files :
  emitted self mount_point root = true →
  kept_row self sid mount_point
           (entry_row sid (built_entry mount_point sizes root dirs files)).
Proof.
  intros Hem. pose proof (built_entry_static sizes root dirs files) as Hs.
  unfold de_static in Hs. cbn [new_dir_entry de_path de_name de_depth
    de_parent_path de_is_dir] in Hs.
  injection Hs as Hp Hn Hd Hpp Hi.
  unfold kept_row. cbn [entry_row Entry.snapshot_id Entry.path Entry.depth
    Entry.name Entry.parent_path Entry.is_dir Entry.error].
  rewrite Hp, Hn, Hd, Hpp, Hi. by repeat split.
Qed.

(** One turn that builds an entry either flushes the whole batch, the new
    entry included, or adds the entry to the batch. *)
Lemma visit_flush root dirs files st :
  emitted self mount_point root = true →
  let st' := (visit self sid mount_point root dirs files st).1 in
  let batch := entries_batch st
               ++ [built_entry mount_point (dir_sizes st) root dirs files] in
  if (BATCH_SIZE self <=? length batch)%nat
  then entries (st_db st') = entries (st_db st) ++ map (entry_row sid) batch
       ∧ entries_batch st' = []
  else entries (st_db st') = entries (st_db st) ∧ entries_batch st' = batch.
Proof.
  unfold emitted, visit, built_entry.
  destruct (_should_skip self root); [done|]. simpl.
  intros ->%negb_true_iff.
  destruct (scan_files_spec sid root files
              (new_dir_entry root mount_point (_get_depth root mount_point)) st)
    as (H1 & H2 & H3 & H4 & H5).
  simpl in H1, H2, H3, H4, H5. rewrite H1, H2, H3, H4.
  set (E := foldl _ _ dirs).
  destruct (BATCH_SIZE self <=? length (entries_batch st ++ [E]))%nat.
  - destruct (_progress_callback self); simpl;
      by rewrite insert_batch_entries, log_errors_entries.
  - simpl. by rewrite log_errors_entries.
Qed.

(** Whatever the walk hands over, the loop body only ever appends rows
    of directories it kept. *)
Lemma run_rows_kept (items : list walk_item) :
  ∀ st,
    Forall (kept_row self sid mount_point)
           (map (entry_row sid) (entries_batch st)) →
    ∃ flushed,
      entries (st_db (run self sid mount_point items st))
      = entries (st_db st) ++ flushed ∧
      Forall (kept_row self sid mount_point) flushed ∧
      Forall (kept_row self sid mount_point)
             (map (entry_row sid)
                  (entries_batch (run self sid mount_point items st))).
Proof.
  induction items as [|it items IH]; intros st Hb.
  { exists []. by rewrite app_nil_r. }
  rewrite run_cons. destruct it as [root dirs files|e]; cbn [visit_item];
    [|by apply IH].
  destruct (emitted self mount_point root) eqn:Hem.
  2:{ rewrite visit_skipped by done. by apply IH. }
  pose proof (visit_flush root dirs files st Hem) as Hv. cbv zeta in Hv.
  pose proof (built_entry_kept (dir_sizes st) root dirs files Hem) as Hk.
  set (st' := (visit self sid mount_point root dirs files st).1) in *.
  set (E := built_entry mount_point (dir_sizes st) root dirs files) in *.
  assert (Forall (kept_row self sid mount_point)
                 (map (entry_row sid) (entries_batch st ++ [E]))) as Hall.
  { rewrite map_app. apply Forall_app. split; [done|]. by apply Forall_singleton. }
  destruct (BATCH_SIZE self <=? length (entries_batch st ++ [E]))%nat.
  - destruct Hv as [Hent Hbatch].
    destruct (IH st') as (flushed & Hf & Hkf & Hkb).
    { rewrite Hbatch. constructor. }
    exists (map (entry_row sid) (entries_batch st ++ [E]) ++ flushed).
    rewrite Hf, Hent, <- app_assoc. split; [done|]. split; [|done].
    by apply Forall_app.
  - destruct Hv as [Hent Hbatch].
    destruct (IH st') as (flushed & Hf & Hkf & Hkb).
    { by rewrite Hbatch. }
    exists flushed. by rewrite Hf, Hent.
Qed.

(** With a positive batch size, the rows go to the store in groups of
    exactly that size, and fewer than that wait in the batch. *)
Lemma run_flushes_batches (items : list walk_item) :
  (0 < BATCH_SIZE self)%nat →
  ∀ st,
    (length (entries_batch st) < BATCH_SIZE self)%nat →
    ∃ flushed q,
      entries (st_db (run self sid mount_point items st))
      = entries (st_db st) ++ flushed ∧
      length flushed = (q * BATCH_SIZE self)%nat ∧
      (length (entries_batch (run self sid mount_point items st))
       < BATCH_SIZE self)%nat.
Proof.
  intros Hpos. induction items as [|it items IH]; intros st Hb.
  { exists [], 0%nat. by rewrite app_nil_r. }
  rewrite run_cons. destruct it as [root dirs files|e]; cbn [visit_item];
    [|by apply IH].
  destruct (emitted self mount_point root) eqn:Hem.
  2:{ rewrite visit_skipped by done. by apply IH. }
  pose proof (visit_flush root dirs files st Hem) as Hv. cbv zeta in Hv.
  set (st' := (visit self sid mount_point root dirs files st).1) in *.
  set (E := built_entry mount_point (dir_sizes st) root dirs files) in *.
  destruct (BATCH_SIZE self <=? length (entries_batch st ++ [E]))%nat eqn:Hfull.
  - destruct Hv as [Hent Hbatch]. apply Nat.leb_le in Hfull.
    destruct (IH st') as (flushed & q & Hf & Hq & Hlt).
    { rewrite Hbatch. simpl. lia. }
    exists (map (entry_row sid) (entries_batch st ++ [E]) ++ flushed), (S q).
    rewrite Hf, Hent, <- app_assoc. split; [done|]. split; [|done].
    rewrite length_app, length_map, Hq.
    rewrite length_app in Hfull |- *. simpl in *. lia.
  - destruct Hv as [Hent Hbatch].
    destruct (IH st') as (flushed & q & Hf & Hq & Hlt).
    { rewrite Hbatch. by apply Nat.leb_gt in Hfull. }
    exists flushed, q. by rewrite Hf, Hent.
Qed.

Lemma log_errors_clock db errs :
  clock (log_errors db sid errs) = clock db + Z.of_nat (length errs).
Proof.
  revert db. induction errs as [|pe errs IH]; intros db.
  { simpl. lia. }
  cbn [log_errors foldl length]. fold (log_errors
    (log_error db sid pe.1 (exn_type pe.2) (exn_msg pe.2)) sid errs).
  rewrite IH. cbn [log_error clock]. lia.
Qed.

End RowFacts.

Section SettleFacts.

Lemma kept_row_bounds self sid mount_point e :
  kept_row self sid mount_point e →
  Entry.snapshot_id e = sid ∧
  _should_skip self (Entry.path e) = false ∧
  (0 < max_depth self → Entry.depth e ≤ max_depth self) ∧
  Entry.depth e = _get_depth (Entry.path e) mount_point ∧
  Entry.is_dir e = 1 ∧
  Entry.error e = None.
Proof.
  intros (Hs & Hem & Hd & _ & _ & Hi & He).
  unfold emitted in Hem. apply andb_true_iff in Hem as [Hskip Hdepth].
  apply negb_true_iff in Hskip. apply negb_true_iff in Hdepth.
  repeat split; try done.
  intros Hmax. rewrite Hd. apply andb_false_iff in Hdepth as [H | H].
  - apply Z.ltb_ge in H. lia.
  - by apply Z.ltb_ge in H.
Qed.

Lemma update_snapshot_fresh f sid (l : list Snapshot.t) :
  Forall (fun s => Snapshot.id s ≠ sid) l → update_snapshot f sid l = l.
Proof.
  induction 1 as [|s l Hs _ IH]; [done|].
  unfold update_snapshot in *. cbn [map]. rewrite IH.
  by apply Z.eqb_neq in Hs as ->.
Qed.

Lemma update_snapshot_snoc f sid (l : list Snapshot.t) (x : Snapshot.t) :
  Forall (fun s => Snapshot.id s ≠ sid) l → Snapshot.id x = sid →
  update_snapshot f sid (l ++ [x]) = l ++ [f x].
Proof.
  intros Hl Hx. pose proof (update_snapshot_fresh f sid l Hl) as Hf.
  unfold update_snapshot in *. rewrite map_app, Hf. cbn [map].
  by rewrite Hx, Z.eqb_refl.
Qed.

Lemma running_snapshots_snoc (l : list Snapshot.t) (s : Snapshot.t) :
  Snapshot.status s ≠ running →
  filter (fun s => Snapshot.status s = running) (l ++ [s])
  = filter (fun s => Snapshot.status s = running) l.
Proof.
  intros Hs. rewrite filter_app, filter_cons_False by done.
  by rewrite filter_nil, app_nil_r.
Qed.

Lemma db_ok_fresh (db : Database) :
  db_ok db → Forall (fun s => Snapshot.id s ≠ scan_sid db) (snapshots db).
Proof.
  intros (Hs & _). eapply Forall_impl; [exact Hs|].
  intros s (Hid & _). unfold scan_sid. cbv beta. lia.
Qed.

(** A store that grew by one settled snapshot and by rows of that
    snapshot is as well-formed as it was. *)
Lemma db_ok_extend (db d : Database) (s : Snapshot.t) (more : list Entry.t) :
  db_ok db →
  snapshots d = snapshots db ++ [s] →
  entries d = entries db ++ more →
  Forall (fun e => Entry.snapshot_id e = scan_sid db) more →
  seq_snapshots d = S (seq_snapshots db) →
  clock db ≤ clock d →
  Snapshot.id s = scan_sid db →
  Snapshot.started_at s < clock d →
  match Snapshot.completed_at s with
  | Some ended => ended < clock d
  | None => True
  end →
  db_ok d.
Proof.
  intros (Hs & He & H0) Hsn Hen Hmore Hseq Hclock Hid Hst Hco.
  split; [|split; [|lia]].
  - rewrite Hsn, Hseq. apply Forall_app. split.
    + eapply Forall_impl; [exact Hs|]. intros x (H1 & H2 & H3). cbv beta.
      repeat split; [lia | lia |]. destruct (Snapshot.completed_at x); [lia|done].
    + apply Forall_singleton. rewrite Hid. unfold scan_sid. by repeat split.
  - rewrite Hen, Hseq. apply Forall_app. split.
    + eapply Forall_impl; [exact He|]. intros x Hx. cbv beta in *. lia.
    + eapply Forall_impl; [exact Hmore|]. intros x Hx. cbv beta in *.
      rewrite Hx. unfold scan_sid. lia.
Qed.

End SettleFacts.

Section ScanStore.
Context (self : DiskScanner) (fs : FileSystem) (db : Database)
        (mount_point : string).

(** The store's bookkeeping after any number of turns of the loop. *)
Lemma run_store (items : list walk_item) :
  let st := run self (scan_sid db) (scan_root fs mount_point) items
                (scan_start fs db mount_point) in
  snapshots (st_db st)
  = snapshots db ++ [new_snapshot_row db (scan_root fs mount_point)] ∧
  seq_snapshots (st_db st) = S (seq_snapshots db) ∧
  clock db < clock (st_db st) ∧
  ∃ flushed,
    entries (st_db st) = entries db ++ flushed ∧
    Forall (kept_row self (scan_sid db) (scan_root fs mount_point)) flushed ∧
    Forall (kept_row self (scan_sid db) (scan_root fs mount_point))
           (map (entry_row (scan_sid db)) (entries_batch st)).
Proof.
  cbv zeta.
  destruct (run_from_start self fs db mount_point items) as (Hsn & _).
  cbv zeta in Hsn.
  destruct (run_keeps self (scan_sid db) (scan_root fs mount_point) items
              (scan_start fs db mount_point)) as (errs & _ & M & _).
  pose proof (f_equal (fun m : _ * _ * nat * Z => m.1.2) M) as M3.
  pose proof (f_equal (fun m : _ * _ * nat * Z => m.2) M) as M4.
  cbv beta in M3, M4. unfold db_meta in M3, M4. cbn [fst snd] in M3, M4.
  destruct (log_errors_snapshots (scan_sid db)
              (st_db (scan_start fs db mount_point)) errs) as [_ S3].
  rewrite S3 in M3. rewrite log_errors_clock in M4.
  split; [exact Hsn|]. split; [exact M3|]. split.
  { rewrite M4. unfold scan_start. cbn [st_db create_snapshot snd clock]. lia. }
  destruct (run_rows_kept self (scan_sid db) (scan_root fs mount_point) items
              (scan_start fs db mount_point)) as (flushed & Hf & Hkf & Hkb).
  { constructor. }
  exists flushed. split; [exact Hf | by split].
Qed.

End ScanStore.

(** What a scan that created its snapshot leaves of it: one row more,
    settled; on a well-formed store the earlier rows are untouched. *)
Definition settled (db : Database) (root : string) (final : Database) : Prop :=
  length (snapshots final) = S (length (snapshots db)) ∧
  (db_ok db →
   db_ok final ∧
   ∃ s ended,
     snapshots final = snapshots db ++ [s] ∧
     Snapshot.id s = scan_sid db ∧
     Snapshot.mount_point s = root ∧
     Snapshot.started_at s = clock db ∧
     Snapshot.completed_at s = Some ended ∧
     clock db < ended ∧
     Snapshot.status s ≠ running).

Section Settled.
Context (self : DiskScanner) (fs : FileSystem) (cancel_req : nat → bool)
        (db : Database) (mount_point : string).

Lemma insert_batch_counters d sid batch :
  seq_snapshots (insert_entries_batch d sid batch) = seq_snapshots d
  ∧ clock (insert_entries_batch d sid batch) = clock d.
Proof. by destruct batch. Qed.

Lemma settled_from (final : Database) (f : Snapshot.t → Snapshot.t)
  (more : list Entry.t) (ended : Z) :
  let root := scan_root fs mount_point in
  snapshots final
  = update_snapshot f (scan_sid db) (snapshots db ++ [new_snapshot_row db root]) →
  Snapshot.id (f (new_snapshot_row db root)) = scan_sid db →
  Snapshot.mount_point (f (new_snapshot_row db root)) = root →
  Snapshot.started_at (f (new_snapshot_row db root)) = clock db →
  Snapshot.completed_at (f (new_snapshot_row db root)) = Some ended →
  Snapshot.status (f (new_snapshot_row db root)) ≠ running →
  entries final = entries db ++ more →
  Forall (fun x : Entry.t => Entry.snapshot_id x = scan_sid db) more →
  seq_snapshots final = S (seq_snapshots db) →
  clock db < ended → ended < clock final →
  settled db root final.
Proof.
  intros root Hsn Hid Hmp Hst Hco Hstatus Hen Hmore Hseq Hlo Hhi. split.
  { rewrite Hsn. unfold update_snapshot. rewrite length_map, length_app.
    simpl. lia. }
  intros Hok.
  rewrite update_snapshot_snoc in Hsn; [|by apply db_ok_fresh|done].
  split.
  - apply (db_ok_extend db final (f (new_snapshot_row db root)) more);
      try done; [lia | lia | by rewrite Hco].
  - by exists (f (new_snapshot_row db root)), ended.
Qed.

Lemma finish_settled (items : list walk_item) (e : exn) :
  let st := run self (scan_sid db) (scan_root fs mount_point) items
                (scan_start fs db mount_point) in
  settled db (scan_root fs mount_point) (finish_completed (scan_sid db) st) ∧
  settled db (scan_root fs mount_point) (finish_cancelled (scan_sid db) st) ∧
  settled db (scan_root fs mount_point) (finish_failed (scan_sid db) st e).
Proof.
  cbv zeta.
  destruct (run_store self fs db mount_point items)
    as (Hsn & Hseq & Hclock & flushed & Hent & Hkf & Hkb).
  cbv zeta in Hsn, Hseq, Hclock, Hent, Hkb.
  set (st := run _ _ _ items _) in *.
  destruct (insert_batch_snapshots db (st_db st) (entries_batch st))
    as [Hbs _].
  destruct (insert_batch_counters (st_db st) (scan_sid db) (entries_batch st))
    as [Hbq Hbc].
  pose proof (insert_batch_entries (scan_sid db) (st_db st) (entries_batch st))
    as Hbe.
  assert (Forall (fun x : Entry.t => Entry.snapshot_id x = scan_sid db) flushed)
    as Hidf.
  { eapply Forall_impl; [exact Hkf|]. by intros x [? _]. }
  assert (Forall (fun x : Entry.t => Entry.snapshot_id x = scan_sid db)
                 (flushed ++ map (entry_row (scan_sid db)) (entries_batch st)))
    as Hidb.
  { apply Forall_app. split; [done|].
    eapply Forall_impl; [exact Hkb|]. by intros x [? _]. }
  split; [|split].
  - eapply (settled_from _ _
              (flushed ++ map (entry_row (scan_sid db)) (entries_batch st))
              (clock (st_db st)));
      unfold finish_completed, complete_snapshot;
      cbn [snapshots entries seq_snapshots clock];
      rewrite ?Hbs, ?Hbq, ?Hbc, ?Hbe, ?Hsn, ?Hseq, ?Hent, <- ?app_assoc;
      try done; lia.
  - eapply (settled_from _ _
              (flushed ++ map (entry_row (scan_sid db)) (entries_batch st))
              (clock (st_db st)));
      unfold finish_cancelled, fail_snapshot;
      cbn [snapshots entries seq_snapshots clock];
      rewrite ?Hbs, ?Hbq, ?Hbc, ?Hbe, ?Hsn, ?Hseq, ?Hent, <- ?app_assoc;
      try done; lia.
  - eapply (settled_from _ _ flushed (clock (st_db st)));
      unfold finish_failed, fail_snapshot;
      cbn [snapshots entries seq_snapshots clock];
      rewrite ?Hsn, ?Hseq, ?Hent; try done; lia.
Qed.

(** The store after any call of [scan]: untouched when the call was
    rejected or the mount point is no directory, settled otherwise. *)
Lemma scan_store :
  let r := scan self fs cancel_req db mount_point in
  (_running self = false → _running r.1.2 = false) ∧
  (r.2 = db ∧
   (_running self = true ∨ dir_at fs (scan_root fs mount_point) = None)
   ∨ settled db (scan_root fs mount_point) r.2 ∧
     _running self = false ∧
     is_Some (dir_at fs (scan_root fs mount_point))).
Proof.
  cbv zeta. destruct (_running self) eqn:Hrun.
  { rewrite scan_busy by done. split; [done|]. left. auto. }
  destruct (dir_at fs (scan_root fs mount_point)) as [t|] eqn:Hdir.
  2:{ rewrite scan_no_mount by done. split; [done|]. left. auto. }
  destruct (scan_cases self fs cancel_req db mount_point t Hrun Hdir)
    as (k & _ & _ & Hcases). cbv zeta in Hcases.
  destruct (finish_settled (take k (os_walk (scan_root fs mount_point) t))
              (Exn "" "")) as (S1 & S2 & _).
  cbv zeta in S1, S2.
  destruct Hcases as [(_ & _ & ->) | [(_ & ->) | (_ & e & ->)]];
    (split; [done|]); right; (split; [|by eauto]); try done.
  by destruct (finish_settled (take k (os_walk (scan_root fs mount_point) t)) e)
    as (_ & _ & S3).
Qed.

End Settled.

Section ScanRows.
Context (self : DiskScanner) (fs : FileSystem) (cancel_req : nat → bool)
        (db : Database) (mount_point : string).

(** The rows any call of [scan] adds to the [entries] table. *)
Lemma scan_entries :
  let r := scan self fs cancel_req db mount_point in
  ∃ written,
    entries r.2 = entries db ++ written ∧
    Forall (kept_row self (scan_sid db) (scan_root fs mount_point)) written ∧
    ((0 < BATCH_SIZE self)%nat → (∃ e, r.1.1 = Raised e) →
     ∃ q, length written = (q * BATCH_SIZE self)%nat).
Proof.
  cbv zeta. destruct (_running self) eqn:Hrun.
  { rewrite scan_busy by done. exists []. rewrite app_nil_r.
    repeat split; [constructor|]. intros _ _. by exists 0%nat. }
  destruct (dir_at fs (scan_root fs mount_point)) as [t|] eqn:Hdir.
  2:{ rewrite scan_no_mount by done. exists []. rewrite app_nil_r.
      repeat split; [constructor|]. intros _ _. by exists 0%nat. }
  destruct (scan_cases self fs cancel_req db mount_point t Hrun Hdir)
    as (k & _ & _ & Hcases). cbv zeta in Hcases.
  destruct (run_store self fs db mount_point
              (take k (os_walk (scan_root fs mount_point) t)))
    as (_ & _ & _ & flushed & Hent & Hkf & Hkb).
  cbv zeta in Hent, Hkb.
  set (st := run _ _ _ (take k _) _) in *.
  destruct (finish_entries db st) as (E1 & E2 & E3). unfold rows in E1, E2.
  destruct Hcases as [(_ & _ & ->) | [(_ & ->) | (_ & e & ->)]]; cbn [fst snd].
  - exists (flushed ++ map (entry_row (scan_sid db)) (entries_batch st)).
    rewrite E1, Hent, <- app_assoc. split; [done|].
    split; [by apply Forall_app|]. by intros _ [e He].
  - exists (flushed ++ map (entry_row (scan_sid db)) (entries_batch st)).
    rewrite E2, Hent, <- app_assoc. split; [done|].
    split; [by apply Forall_app|]. by intros _ [e He].
  - exists flushed. rewrite E3, Hent. split; [done|]. split; [done|].
    intros Hpos _.
    destruct (run_flushes_batches self (scan_sid db) (scan_root fs mount_point)
                (take k (os_walk (scan_root fs mount_point) t)) Hpos
                (scan_start fs db mount_point))
      as (flushed' & q & Hf & Hq & _).
    { simpl. lia. }
    fold st in Hf. rewrite Hent in Hf.
    change (entries (st_db (scan_start fs db mount_point))) with (entries db)
      in Hf.
    apply app_inv_head in Hf as ->. by exists q.
Qed.

End ScanRows.

Section RunScan.
Context (fs : FileSystem).

Lemma run_scan_loop_spec (mount_points : list string) :
  ∀ scanner db,
    _running scanner = false →
    let r := run_scan_loop scanner fs db mount_points in
    map report_mount r.1 = mount_points ∧
    (∀ i mp, mount_points !! i = Some mp →
             dir_at fs (scan_root fs mp) = None →
             r.1 !! i = Some (Failure mp ("Mount point does not exist: "
                                          +:+ scan_root fs mp))) ∧
    length (snapshots r.2)
    = (length (snapshots db)
       + length (filter (fun mp => is_Some (dir_at fs (scan_root fs mp)))
                        mount_points))%nat ∧
    (db_ok db →
     db_ok r.2 ∧ running_snapshots r.2 = running_snapshots db).
Proof.
  induction mount_points as [|mp mps IH]; intros scanner db Hrun.
  { cbv zeta. cbn [run_scan_loop fst snd map]. split; [done|].
    split; [intros i mp' H; by rewrite lookup_nil in H|].
    split; [rewrite filter_nil; simpl; lia | done]. }
  cbv zeta. cbn [run_scan_loop].
  destruct (scan_store scanner fs never_cancel db mp) as [Hrel Hstore].
  cbv zeta in Hrel, Hstore. specialize (Hrel Hrun).
  pose proof (scan_no_mount scanner fs never_cancel db mp Hrun) as Hnone.
  destruct (scan scanner fs never_cancel db mp) as [[outcome scanner'] db']
    eqn:Hscan.
  cbn [fst snd] in Hrel, Hstore.
  destruct (IH scanner' db' Hrel) as (Hmap & Hfail & Hlen & Hok).
  cbv zeta in Hmap, Hfail, Hlen, Hok.
  assert (length (snapshots db')
          = (length (snapshots db)
             + length (filter (fun mp => is_Some (dir_at fs (scan_root fs mp)))
                              [mp]))%nat
          ∧ (db_ok db →
             db_ok db' ∧ running_snapshots db' = running_snapshots db))
    as [Hlen1 Hok1].
  { destruct Hstore as [[-> [Hr | Hd]] | ([Hl Hs] & _ & Hd)].
    - congruence.
    - rewrite filter_cons_False, filter_nil by (rewrite Hd; by intros [? ?]).
      simpl. split; [lia | done].
    - rewrite filter_cons_True, filter_nil by done. simpl. split; [lia|].
      intros Hdb.
      destruct (Hs Hdb) as (Hok' & s & ended & Hsn & _ & _ & _ & _ & _ & Hst).
      split; [done|]. unfold running_snapshots. rewrite Hsn.
      by apply running_snapshots_snoc. }
  assert (∀ rep, report_mount rep = mp →
            (dir_at fs (scan_root fs mp) = None →
             rep = Failure mp ("Mount point does not exist: "
                               +:+ scan_root fs mp)) →
            let r := (rep :: (run_scan_loop scanner' fs db' mps).1,
                      (run_scan_loop scanner' fs db' mps).2) in
            map report_mount r.1 = mp :: mps ∧
            (∀ i mp', (mp :: mps) !! i = Some mp' →
               dir_at fs (scan_root fs mp') = None →
               r.1 !! i = Some (Failure mp' ("Mount point does not exist: "
                                             +:+ scan_root fs mp'))) ∧
            length (snapshots r.2)
            = (length (snapshots db)
               + length (filter (fun mp => is_Some (dir_at fs (scan_root fs mp)))
                                (mp :: mps)))%nat ∧
            (db_ok db →
             db_ok r.2 ∧ running_snapshots r.2 = running_snapshots db))
    as Hboth.
  { intros rep Hrep Hmiss. cbv zeta. cbn [fst snd map]. rewrite Hrep, Hmap.
    split; [done|]. split; [|split].
    - intros [|i] mp' Hi Hd; cbn in Hi |- *.
      + injection Hi as <-. by rewrite Hmiss.
      + by apply Hfail.
    - change (mp :: mps) with ([mp] ++ mps). rewrite filter_app, length_app.
      lia.
    - intros Hdb. destruct (Hok1 Hdb) as [Hdb' Hr'].
      destruct (Hok Hdb') as [? ->]. done. }
  destruct outcome as [st|e]; apply Hboth; try done;
    intros Hd; specialize (Hnone Hd);
    [discriminate | by injection Hnone as -> _ _].
Qed.

End RunScan.

(** ** Examples: a store that is well-formed, and a scan that fails *)

Lemma empty_db_ok : db_ok empty_db.
Proof. split; [constructor | split; [constructor | done]]. Qed.

(** The scan of "/crash", evaluated: the walk raises after "/crash/a"
    was handled. *)
Definition crash_db : Database :=
  Eval vm_compute in
    (scan demo_scanner demo_fs never_cancel empty_db "/crash").2.

Lemma crash_scan :
  scan demo_scanner demo_fs never_cancel empty_db "/crash"
  = (Raised (Exn "UnicodeDecodeError" "bad file name"),
     scanner_done demo_scanner false, crash_db).
Proof. vm_compute. reflexivity. Qed.

(** ** Depth, exclusion and the shape of rows *)

(** A name as a directory listing reports it: not empty, without
    separator, and neither of the two names "." and ".." that
    [os.path.relpath] would resolve. *)
Definition listed_name (n : string) : Prop :=
  wf_name n = true ∧ n ≠ "." ∧ n ≠ "..".

Lemma listed_names_wf (names : list string) :
  Forall listed_name names → Forall (fun n => wf_name n = true) names.
Proof. intros H. eapply Forall_impl; [exact H|]. by intros n [? _]. Qed.

(** X1.  [_get_depth] counts names: a directory reached from the base
    path through a chain of names, as directory listings report them,
    lies as deep as the chain is long; the base path itself lies at
    depth 0. *)
Theorem get_depth_counts_names (base : string) (names : list string) :
  Forall listed_name names →
  _get_depth (joins base names) base = Z.of_nat (length names).
Proof.
  intros Hwf%listed_names_wf. destruct names as [|n names].
  - unfold _get_depth, joins. simpl. by rewrite String.eqb_refl.
  - by apply get_depth_joins.
Qed.

Lemma get_depth_counts_names_witness :
  _get_depth "/data/a/deep" "/data" = 2.
Proof.
  apply (get_depth_counts_names "/data" ["a"; "deep"]).
  repeat (constructor; [by repeat split|]). constructor.
Defined.

(** X2.  Whatever a call of [scan] does, the rows it adds to the
    [entries] table carry the id of its own snapshot, belong to
    directories that the exclusion predicate does not match and that lie
    no deeper than [max_depth] when that is positive, record the depth
    [_get_depth] computes, and are marked as directories without an
    error text.  The earlier rows stay, in place. *)
Theorem scan_writes_rows_of_kept_directories
  (self : DiskScanner) (fs : FileSystem) (cancel_req : nat → bool)
  (db : Database) (mount_point : string) :
  ∃ written,
    entries (scan self fs cancel_req db mount_point).2 = entries db ++ written ∧
    ∀ e, e ∈ written →
      Entry.snapshot_id e = scan_sid db ∧
      _should_skip self (Entry.path e) = false ∧
      (0 < max_depth self → Entry.depth e ≤ max_depth self) ∧
      Entry.depth e = _get_depth (Entry.path e) (scan_root fs mount_point) ∧
      Entry.is_dir e = 1 ∧
      Entry.error e = None.
Proof.
  destruct (scan_entries self fs cancel_req db mount_point)
    as (written & Hent & Hkept & _).
  cbv zeta in Hent. exists written. split; [exact Hent|].
  intros e He. rewrite Forall_forall in Hkept.
  by apply (kept_row_bounds self (scan_sid db) (scan_root fs mount_point)),
           Hkept.
Qed.

(** ** The snapshot of a scan is settled when the scan ends *)



(** ** A failed scan loses the batch *)

(** X4.  When [scan] raises, the rows it has added to the store are
    whole batches: their number is a multiple of [BATCH_SIZE].  The
    entries computed since the last flush are dropped with the
    exception, whereas a cancelled scan flushes them. *)
Theorem failed_scan_keeps_whole_batches
  (self : DiskScanner) (fs : FileSystem) (cancel_req : nat → bool)
  (db : Database) (mount_point : string)
  (e : exn) (self' : DiskScanner) (db' : Database) :
  (0 < BATCH_SIZE self)%nat →
  scan self fs cancel_req db mount_point = (Raised e, self', db') →
  ∃ written q,
    entries db' = entries db ++ written ∧
    length written = (q * BATCH_SIZE self)%nat.
Proof.
  intros Hpos Hscan.
  destruct (scan_entries self fs cancel_req db mount_point)
    as (written & Hent & _ & Hq).
  cbv zeta in Hent, Hq. rewrite Hscan in Hent, Hq. cbn [fst snd] in Hent, Hq.
  destruct (Hq Hpos) as [q Hlen]; [by exists e|].
  by exists written, q.
Qed.

Lemma failed_scan_keeps_whole_batches_witness :
  ∃ written q,
    entries crash_db = entries empty_db ++ written ∧
    length written = (q * BATCH_SIZE demo_scanner)%nat.
Proof.
  apply (failed_scan_keeps_whole_batches demo_scanner demo_fs never_cancel
           empty_db "/crash" (Exn "UnicodeDecodeError" "bad file name")
           (scanner_done demo_scanner false) crash_db).
  - simpl. lia.
  - exact crash_scan.
Defined.

(** ** [run_scan] and [trigger_scan] *)

(** X5.  [run_scan] returns one report for every mount point it was
    given, in the order given, and raises nothing: a mount point that is
    no directory is reported as failed with the message of the
    [ValueError], and the mount points after it are scanned all the
    same.  The store gets one snapshot row for each mount point that is
    a directory and none for the others; on a well-formed store none of
    the new rows is left running. *)
Theorem run_scan_reports_every_mount_point
  (fs : FileSystem) (db : Database) (mount_points : list string)
  (skip : option (list string)) (depth : Z)
  (progress_callback : progress → option exn) :
  let r := run_scan fs db mount_points skip depth progress_callback in
  map report_mount r.1 = mount_points ∧
  (∀ i mp, mount_points !! i = Some mp →
           dir_at fs (scan_root fs mp) = None →
           r.1 !! i = Some (Failure mp ("Mount point does not exist: "
                                        +:+ scan_root fs mp))) ∧
  length (snapshots r.2)
  = (length (snapshots db)
     + length (filter (fun mp => is_Some (dir_at fs (scan_root fs mp)))
                      mount_points))%nat ∧
  (db_ok db → db_ok r.2 ∧ running_snapshots r.2 = running_snapshots db).
Proof. cbv zeta. unfold run_scan. by apply run_scan_loop_spec. Qed.

Lemma run_scan_reports_every_mount_point_witness :
  let r := run_scan demo_fs empty_db ["/nope"; "/data"] None 0
                    (fun _ => None) in
  map report_mount r.1 = ["/nope"; "/data"] ∧
  r.1 !! 0%nat = Some (Failure "/nope" "Mount point does not exist: /nope") ∧
  length (snapshots r.2) = 1%nat ∧
  running_snapshots r.2 = [].
Proof.
  destruct (run_scan_reports_every_mount_point demo_fs empty_db
              ["/nope"; "/data"] None 0 (fun _ => None))
    as (H1 & H2 & H3 & H4).
  split; [exact H1|]. split; [|split].
  - exact (H2 0%nat "/nope" eq_refl eq_refl).
  - exact H3.
  - by destruct (H4 empty_db_ok) as [_ ->].
Defined.

(** X6.  A scheduler on which no task was ever recorded, which is every
    scheduler the code builds, never refuses a manual scan: the call
    returns one report per mount point scanned.  These are the mount
    points asked for; when none is asked for ([None] or the empty list)
    they are the configured ones, and "/" when the configuration names
    none.  A configured empty list scans nothing and leaves the store
    as it is. *)
Theorem trigger_scan_reports_mount_points
  (self : ScanScheduler) (fs : FileSystem) (db : Database)
  (mount_points : option (list string)) :
  _scan_task self = None →
  ∃ reports db',
    trigger_scan self fs db mount_points = (Returned reports, db') ∧
    map report_mount reports = trigger_mount_points self mount_points ∧
    (∀ mp mps, mount_points = Some (mp :: mps) →
               map report_mount reports = mp :: mps) ∧
    (mount_points = None ∨ mount_points = Some [] →
     map report_mount reports = default ["/"] (cfg_mount_points (config self))
     ∧ (cfg_mount_points (config self) = Some [] → reports = [] ∧ db' = db)).
Proof.
  intros Htask. unfold trigger_scan, is_scan_running. rewrite Htask.
  eexists _, _. split; [reflexivity|].
  destruct (run_scan_loop_spec fs (trigger_mount_points self mount_points)
    (set_progress_callback
       (DiskScanner_init (Some (default [] (cfg_skip_paths (config self))))
                         (default 0 (cfg_max_depth (config self))))
       (_notify_progress self)) db eq_refl) as (Hmap & _).
  cbv zeta in Hmap. split; [exact Hmap|]. split.
  - intros mp mps ->. exact Hmap.
  - intros Hnone.
    assert (trigger_mount_points self mount_points
            = default ["/"] (cfg_mount_points (config self))) as Hdef.
    { by destruct Hnone as [-> | ->]. }
    split; [by rewrite <- Hdef|].
    intros Hcfg. unfold run_scan. rewrite Hdef, Hcfg. by cbn.
Qed.

Lemma trigger_scan_reports_mount_points_witness :
  ∃ reports db',
    trigger_scan demo_scheduler demo_fs empty_db (Some [])
    = (Returned reports, db') ∧
    map report_mount reports = ["/data"].
Proof.
  destruct (trigger_scan_reports_mount_points demo_scheduler demo_fs empty_db
              (Some []) eq_refl) as (reports & db' & H1 & _ & _ & H2).
  exists reports, db'. split; [exact H1|].
  by destruct (H2 (or_intror eq_refl)) as [-> _].
Defined.

(** ** The read queries of [models.py] *)

(** [if mount_point:] (lines 163 and 186): [None] and the empty string
    select every mount point. *)
Definition mount_selected (mount_point : option string) (s : Snapshot.t)
  : bool :=
  match mount_point with
  | Some mp => String.eqb mp "" || String.eqb (Snapshot.mount_point s) mp
  | None => true
  end.

(** [Database.get_latest_snapshot] (lines 160-177). *)
Definition get_latest_snapshot (db : Database) (mount_point : option string)
  : option Snapshot.t :=
  head (sql_limit 1
          (sort_desc completed_key
             (filter (fun s => mount_selected mount_point s = true
                               ∧ Snapshot.status s = completed)
                     (snapshots db)))).

(** The conditions [get_entries] adds to its query (lines 209-215). *)
Definition entry_selected (parent_path : option string) (depth : option Z)
  (e : Entry.t) : bool :=
  match parent_path with
  | Some p => bool_decide (Entry.parent_path e = Some p)
  | None => true
  end
  && match depth with
     | Some d => Entry.depth e =? d
     | None => true
     end.

(** [Database.get_entries] (lines 202-220). *)
Definition get_entries (db : Database) (snapshot_id : Z)
  (parent_path : option string) (depth : option Z) : list Entry.t :=
  sort_desc Entry.size
    (filter (fun e => Entry.snapshot_id e = snapshot_id
                      ∧ entry_selected parent_path depth e = true)
            (entries db)).

(** [Database.get_entry_by_path] (lines 222-231). *)
Definition get_entry_by_path (db : Database) (snapshot_id : Z) (path : string)
  : option Entry.t :=
  head (filter (fun e => Entry.snapshot_id e = snapshot_id
                         ∧ Entry.path e = path)
               (entries db)).


Section SortFacts.
Context {A : Type} (key : A → Z).

Lemma head_limit_1 (l : list A) : head (sql_limit 1 l) = head l.
Proof. by destruct l. Qed.

(** The first row of a descending order has the largest key. *)
Lemma head_sort_desc (l : list A) :
  match head (sort_desc key l) with
  | Some x => x ∈ l ∧ ∀ y, y ∈ l → key y ≤ key x
  | None => l = []
  end.
Proof.
  pose proof (sort_desc_sorted key l) as Hs.
  pose proof (sort_desc_perm key l) as Hp.
  destruct (sort_desc key l) as [|x s]; simpl.
  - by apply Permutation_nil in Hp.
  - apply StronglySorted_inv in Hs as [_ Hall]. split.
    + rewrite <- Hp. left.
    + intros y Hy. rewrite <- Hp in Hy.
      apply elem_of_cons in Hy as [-> | Hy]; [lia|].
      rewrite Forall_forall in Hall. by apply Hall.
Qed.

(** A row whose key is larger than every other comes first, and the
    others keep their order. *)
Lemma sort_desc_snoc_max (l : list A) (x : A) :
  (∀ y, y ∈ l → key y < key x) →
  sort_desc key (l ++ [x]) = x :: sort_desc key l.
Proof.
  intros Hmax. unfold sort_desc. rewrite foldr_app. cbn [foldr insert_desc].
  induction l as [|y l IH]; [done|].
  cbn [foldr]. rewrite IH by (intros z Hz; apply Hmax; by right).
  cbn [insert_desc].
  assert (key y < key x) as Hy by (apply Hmax; left).
  by replace (key x <=? key y) with false by (symmetry; apply Z.leb_gt; lia).
Qed.

End SortFacts.

(** X7.  [get_latest_snapshot] answers with a completed snapshot of the
    mount point asked for whose end time no other such snapshot
    exceeds, and with nothing exactly when there is no such snapshot;
    the empty string asks for every mount point, as [None] does. *)
Theorem latest_snapshot_is_newest_completed
  (db : Database) (mount_point : option string) :
  match get_latest_snapshot db mount_point with
  | Some s =>
    s ∈ snapshots db ∧ Snapshot.status s = completed ∧
    mount_selected mount_point s = true ∧
    ∀ s', s' ∈ snapshots db → Snapshot.status s' = completed →
          mount_selected mount_point s' = true →
          completed_key s' ≤ completed_key s
  | None =>
    ∀ s, s ∈ snapshots db → Snapshot.status s = completed →
         mount_selected mount_point s = false
  end
  ∧ get_latest_snapshot db (Some "") = get_latest_snapshot db None.
Proof.
  unfold get_latest_snapshot. rewrite !head_limit_1. split.
  - pose proof (head_sort_desc completed_key
      (filter (fun s => mount_selected mount_point s = true
                        ∧ Snapshot.status s = completed) (snapshots db)))
      as Hh.
    destruct (head _) as [s|].
    + destruct Hh as [Hin Hmax].
      apply list_elem_of_filter in Hin as [[Hm Hc] Hin].
      repeat split; try done.
      intros s' Hin' Hc' Hm'. apply Hmax. by apply list_elem_of_filter.
    + intros s Hin Hc. destruct (mount_selected mount_point s) eqn:Hm; [|done].
      assert (s ∈ filter (fun s => mount_selected mount_point s = true
                                   ∧ Snapshot.status s = completed)
                         (snapshots db)) as Hs
        by (by apply list_elem_of_filter).
      rewrite Hh in Hs. by apply elem_of_nil in Hs.
  - done.
Qed.

Section ListFacts.
Context {A : Type}.

Lemma filter_ext_in (P Q : A → Prop) `{∀ x, Decision (P x)}
  `{∀ x, Decision (Q x)} (l : list A) :
  (∀ x, x ∈ l → P x ↔ Q x) → filter P l = filter Q l.
Proof.
  induction l as [|x l IH]; intros Hpq; [done|].
  rewrite !filter_cons, IH by (intros y Hy; apply Hpq; by right).
  destruct (decide (P x)) as [Hp | Hp], (decide (Q x)) as [Hq | Hq];
    try done; destruct (Hpq x (list_elem_of_here _ _)); tauto.
Qed.

End ListFacts.

(** ** The store after the three ways a scan can end *)

Section FinishRows.
Context (self : DiskScanner) (fs : FileSystem) (db : Database)
        (mount_point : string).

(** The snapshot rows after the scan ended, on a well-formed store. *)
Lemma finish_snapshots (items : list walk_item) (e : exn) :
  db_ok db →
  let st := run self (scan_sid db) (scan_root fs mount_point) items
                (scan_start fs db mount_point) in
  clock db < clock (st_db st) ∧
  snapshots (finish_completed (scan_sid db) st)
  = snapshots db
    ++ [Snapshot.Mk (scan_sid db) (scan_root fs mount_point) (clock db)
          (Some (clock (st_db st)))
          (Stats.total_size (stats st)) (Stats.total_files (stats st))
          (Stats.total_dirs (stats st)) completed] ∧
  snapshots (finish_cancelled (scan_sid db) st)
  = snapshots db
    ++ [Snapshot.Mk (scan_sid db) (scan_root fs mount_point) (clock db)
          (Some (clock (st_db st))) 0 0 0 failed] ∧
  snapshots (finish_failed (scan_sid db) st e)
  = snapshots db
    ++ [Snapshot.Mk (scan_sid db) (scan_root fs mount_point) (clock db)
          (Some (clock (st_db st))) 0 0 0 failed].
Proof.
  intros Hok. cbv zeta.
  destruct (run_store self fs db mount_point items)
    as (Hsn & _ & Hclock & _).
  cbv zeta in Hsn, Hclock. set (st := run _ _ _ items _) in *.
  destruct (insert_batch_snapshots db (st_db st) (entries_batch st))
    as [Hbs _].
  destruct (insert_batch_counters (st_db st) (scan_sid db) (entries_batch st))
    as [_ Hbc].
  split; [done|].
  unfold finish_completed, finish_cancelled, finish_failed,
    complete_snapshot, fail_snapshot.
  cbn [snapshots]. rewrite Hbs, Hbc, Hsn.
  rewrite !update_snapshot_snoc by (by apply db_ok_fresh || done).
  done.
Qed.

End FinishRows.

Section Outcome.
Context (self : DiskScanner) (fs : FileSystem) (cancel_req : nat → bool)
        (db : Database) (mount_point : string).

(** A call that returned with the scanner not cancelled ran the loop
    body over the whole walk and completed its snapshot. *)
Lemma scan_returned_inv (result_stats : Stats.t) self' db' :
  scan self fs cancel_req db mount_point = (Returned result_stats, self', db') →
  _cancelled self' = false →
  ∃ t, dir_at fs (scan_root fs mount_point) = Some t ∧
       let st := run self (scan_sid db) (scan_root fs mount_point)
                     (os_walk (scan_root fs mount_point) t)
                     (scan_start fs db mount_point) in
       result_stats = stats st ∧ db' = finish_completed (scan_sid db) st.
Proof.
  intros Hscan Hc. destruct (_running self) eqn:Hrun.
  { by rewrite scan_busy in Hscan. }
  destruct (dir_at fs (scan_root fs mount_point)) as [t|] eqn:Hdir.
  2:{ by rewrite scan_no_mount in Hscan. }
  exists t. split; [done|].
  destruct (scan_cases self fs cancel_req db mount_point t Hrun Hdir)
    as (k & _ & _ & [(-> & _ & Hs) | [(_ & Hs) | (_ & e & Hs)]]);
    rewrite Hs in Hscan.
  - rewrite firstn_all in Hscan. by injection Hscan as <- _ <-.
  - injection Hscan as _ <- _. done.
  - done.
Qed.

(** Any other call leaves the store as it was or has added one failed
    snapshot to it. *)
Lemma scan_unfinished_inv outcome self' db' :
  db_ok db →
  scan self fs cancel_req db mount_point = (outcome, self', db') →
  (∃ e, outcome = Raised e) ∨ _cancelled self' = true →
  db' = db ∨
  ∃ s, snapshots db' = snapshots db ++ [s] ∧ Snapshot.status s = failed.
Proof.
  intros Hok Hscan Hwhy. destruct (_running self) eqn:Hrun.
  { rewrite scan_busy in Hscan by done. left. by injection Hscan as _ _ <-. }
  destruct (dir_at fs (scan_root fs mount_point)) as [t|] eqn:Hdir.
  2:{ rewrite scan_no_mount in Hscan by done. left.
      by injection Hscan as _ _ <-. }
  right.
  destruct (scan_cases self fs cancel_req db mount_point t Hrun Hdir)
    as (k & _ & _ & [(-> & _ & Hs) | [(_ & Hs) | (_ & e & Hs)]]);
    rewrite Hs in Hscan.
  - injection Hscan as <- <- _. by destruct Hwhy as [[e ?] | ?].
  - injection Hscan as _ _ <-.
    destruct (finish_snapshots self fs db mount_point
                (take k (os_walk (scan_root fs mount_point) t)) (Exn "" "") Hok)
      as (_ & _ & -> & _).
    by eexists.
  - injection Hscan as _ _ <-.
    destruct (finish_snapshots self fs db mount_point
                (take k (os_walk (scan_root fs mount_point) t)) e Hok)
      as (_ & _ & _ & ->).
    by eexists.
Qed.

End Outcome.

Section LatestFacts.
Context (db : Database).

Lemma completed_key_old (s : Snapshot.t) (ended : Z) :
  db_ok db → s ∈ snapshots db → clock db < ended → completed_key s < ended.
Proof.
  intros (Hs & _ & H0) Hin Hlt. rewrite Forall_forall in Hs.
  destruct (Hs s Hin) as (_ & _ & Hc). unfold completed_key.
  destruct (Snapshot.completed_at s); lia.
Qed.

Lemma recent_ids (x : Z) :
  x ∈ recent db → ∃ s, s ∈ snapshots db ∧ Snapshot.id s = x.
Proof.
  unfold recent. intros (s & -> & Hs)%list_elem_of_fmap.
  exists s. split; [|done].
  apply elem_of_take in Hs as (i & Hi & _).
  apply list_elem_of_lookup_2 in Hi.
  rewrite list_elem_of_In, (sort_desc_perm completed_key),
    <- list_elem_of_In in Hi.
  by apply list_elem_of_filter in Hi as [_ ?].
Qed.

Lemma latest_previous_old (x : Z) :
  db_ok db → latest db = Some x ∨ previous db = Some x → x ≠ scan_sid db.
Proof.
  intros Hok Hx.
  assert (x ∈ recent db) as Hin.
  { unfold latest, previous in Hx. destruct Hx as [Hx | Hx].
    - by apply head_Some_elem_of.
    - destruct (recent db) as [|a l]; [done|]. right.
      by apply head_Some_elem_of. }
  apply recent_ids in Hin as (s & Hs & <-).
  pose proof (db_ok_fresh db Hok) as Hf. rewrite Forall_forall in Hf.
  by apply Hf.
Qed.

End LatestFacts.

Section AfterScan.
Context (db d : Database) (s : Snapshot.t).

(** A completed snapshot added with an end time later than the store's
    clock is the latest, and the one that was the latest is the one
    before it. *)
Lemma latest_after_completed (ended : Z) :
  db_ok db → snapshots d = snapshots db ++ [s] →
  Snapshot.completed_at s = Some ended → clock db < ended →
  Snapshot.status s = completed →
  (∀ mp, mount_selected mp s = true → get_latest_snapshot d mp = Some s) ∧
  latest d = Some (Snapshot.id s) ∧
  previous d = latest db.
Proof.
  intros Hok Hsn Hco Hlt Hst.
  assert (∀ (P : Snapshot.t → Prop) `{∀ x, Decision (P x)}, P s →
    sort_desc completed_key (filter P (snapshots db ++ [s]))
    = s :: sort_desc completed_key (filter P (snapshots db))) as Hsort.
  { intros P HP Hs. rewrite filter_app, filter_cons_True, filter_nil by done.
    apply sort_desc_snoc_max. intros y [_ Hy]%list_elem_of_filter.
    replace (completed_key s) with ended by (unfold completed_key; by rewrite Hco).
    by apply (completed_key_old db). }
  split; [|split].
  - intros mp Hmp. unfold get_latest_snapshot.
    rewrite head_limit_1, Hsn, Hsort; done.
  - unfold latest, recent. rewrite Hsn, Hsort by done.
    by destruct (sort_desc _ _).
  - unfold previous, latest, recent. rewrite Hsn, Hsort by done.
    by destruct (sort_desc _ _) as [|a [|b l]].
Qed.

(** A snapshot added that is not completed changes neither the latest
    snapshot nor the two the growth query compares. *)
Lemma latest_after_unfinished :
  snapshots d = snapshots db ++ [s] → Snapshot.status s ≠ completed →
  (∀ mp, get_latest_snapshot d mp = get_latest_snapshot db mp) ∧
  recent d = recent db.
Proof.
  intros Hsn Hst. split.
  - intros mp. unfold get_latest_snapshot.
    rewrite Hsn, filter_app, filter_cons_False, filter_nil, app_nil_r; [done|].
    by intros [_ ?].
  - unfold recent.
    by rewrite Hsn, filter_app, filter_cons_False, filter_nil, app_nil_r.
Qed.

End AfterScan.

Section GrowthFacts.
Context (db d : Database).

Lemma join_previous_first (curr : Entry.t) (cp : Entry.t * option Entry.t) :
  cp ∈ join_previous db curr → cp.1 = curr.
Proof.
  unfold join_previous. destruct (filter _ _) as [|m ms].
  - by intros ->%list_elem_of_singleton.
  - by intros (prev & -> & _)%list_elem_of_fmap.
Qed.

(** Rows of a snapshot that is neither the latest nor the one before it
    do not show in the growth query. *)
Lemma growth_ignores_other_rows (written : list Entry.t) (sid limit : Z) :
  recent d = recent db →
  entries d = entries db ++ written →
  Forall (fun e => Entry.snapshot_id e = sid) written →
  latest db ≠ Some sid → previous db ≠ Some sid →
  get_top_growth d limit = get_top_growth db limit.
Proof.
  intros Hrecent Hent Hsid Hlat Hprv. rewrite Forall_forall in Hsid.
  assert (latest d = latest db) as Hl by (unfold latest; by rewrite Hrecent).
  assert (previous d = previous db) as Hp
    by (unfold previous; by rewrite Hrecent).
  assert (∀ curr, join_previous d curr = join_previous db curr) as Hjoin.
  { intros curr. unfold join_previous.
    rewrite Hp, Hent, filter_app.
    rewrite (filter_none _ written), app_nil_r; [done|].
    intros prev Hin [_ Hx]. apply Hprv. rewrite Hx. f_equal. by apply Hsid. }
  unfold get_top_growth, left_join_previous. rewrite Hl, Hent.
  rewrite flat_map_app, filter_app.
  rewrite (flat_map_ext (join_previous d) (join_previous db)) by done.
  rewrite (flat_map_ext (join_previous d) (join_previous db)) by done.
  rewrite (filter_none _ (flat_map (join_previous db) written)), app_nil_r;
    [done|].
  intros cp (curr & Hcurr & Hcp)%elem_of_flat_map [Hx _].
  apply join_previous_first in Hcp. apply Hlat. rewrite Hx, Hcp. f_equal.
  by apply Hsid.
Qed.

End GrowthFacts.

(** ** The latest snapshot and the growth query after a scan *)

(** X8.  On a well-formed store, when [scan] returns without having been
    cancelled, its snapshot is the one [get_latest_snapshot] answers
    with from then on, for every mount point and for the scanned one; it
    is completed and holds the totals [scan] returned.  The growth query
    takes it as the latest snapshot, and the snapshot that was the
    latest before as the one to compare with. *)
Theorem completed_scan_becomes_latest
  (self : DiskScanner) (fs : FileSystem) (cancel_req : nat → bool)
  (db : Database) (mount_point : string)
  (result_stats : Stats.t) (self' : DiskScanner) (db' : Database) :
  db_ok db →
  scan self fs cancel_req db mount_point = (Returned result_stats, self', db') →
  _cancelled self' = false →
  ∃ s,
    get_latest_snapshot db' None = Some s ∧
    get_latest_snapshot db' (Some (scan_root fs mount_point)) = Some s ∧
    Snapshot.id s = scan_sid db ∧
    Snapshot.mount_point s = scan_root fs mount_point ∧
    Snapshot.status s = completed ∧
    Snapshot.total_size s = Stats.total_size result_stats ∧
    Snapshot.total_files s = Stats.total_files result_stats ∧
    Snapshot.total_dirs s = Stats.total_dirs result_stats ∧
    latest db' = Some (scan_sid db) ∧
    previous db' = latest db.
Proof.
  intros Hok Hscan Hc.
  destruct (scan_returned_inv self fs cancel_req db mount_point result_stats
              self' db' Hscan Hc) as (t & _ & -> & ->).
  destruct (finish_snapshots self fs db mount_point
              (os_walk (scan_root fs mount_point) t) (Exn "" "") Hok)
    as (Hlt & Hsn & _).
  cbv zeta in Hlt, Hsn.
  destruct (latest_after_completed db _ _ _ Hok Hsn eq_refl Hlt eq_refl)
    as (Hget & Hl & Hp).
  eexists. split; [by apply Hget|]. split.
  { apply Hget. cbn. by rewrite String.eqb_refl, orb_true_r. }
  by repeat split.
Qed.

Lemma completed_scan_becomes_latest_witness :
  ∃ s,
    get_latest_snapshot demo_db None = Some s ∧
    Snapshot.id s = 1 ∧
    Snapshot.total_size s = Stats.total_size demo_stats ∧
    latest demo_db = Some 1 ∧
    previous demo_db = None.
Proof.
  destruct (completed_scan_becomes_latest demo_scanner demo_fs never_cancel
              empty_db "/data" demo_stats (scanner_done demo_scanner false)
              demo_db empty_db_ok demo_scan eq_refl)
    as (s & H1 & _ & H2 & _ & _ & H3 & _ & _ & H4 & H5).
  by exists s.
Defined.

(** X9.  On a well-formed store, a call of [scan] that raises, or that
    returns after a cancellation, changes nothing of what the dashboard
    reads: [get_latest_snapshot] answers as before for every mount
    point, and the growth query returns the same rows for every limit,
    although the rows of the unfinished scan are in the store. *)
Theorem unfinished_scan_keeps_dashboard
  (self : DiskScanner) (fs : FileSystem) (cancel_req : nat → bool)
  (db : Database) (mount_point : string)
  (outcome : result Stats.t) (self' : DiskScanner) (db' : Database) :
  db_ok db →
  scan self fs cancel_req db mount_point = (outcome, self', db') →
  (∃ e, outcome = Raised e) ∨ _cancelled self' = true →
  (∀ mp, get_latest_snapshot db' mp = get_latest_snapshot db mp) ∧
  (∀ limit, get_top_growth db' limit = get_top_growth db limit).
Proof.
  intros Hok Hscan Hwhy.
  destruct (scan_unfinished_inv self fs cancel_req db mount_point outcome
              self' db' Hok Hscan Hwhy) as [-> | (s & Hsn & Hst)]; [done|].
  destruct (latest_after_unfinished db db' s Hsn) as [Hget Hrecent].
  { by rewrite Hst. }
  split; [exact Hget|]. intros limit.
  destruct (scan_entries self fs cancel_req db mount_point)
    as (written & Hent & Hkept & _).
  cbv zeta in Hent. rewrite Hscan in Hent. cbn [snd] in Hent.
  apply (growth_ignores_other_rows db db' written (scan_sid db));
    [done | done | | |].
  - eapply Forall_impl; [exact Hkept|]. by intros x [? _].
  - intros H. by apply (latest_previous_old db (scan_sid db) Hok); [left|].
  - intros H. by apply (latest_previous_old db (scan_sid db) Hok); [right|].
Qed.

(** The store after the scan of "/data": well-formed, as every store a
    scan leaves of a well-formed one. *)
Lemma demo_db_ok : db_ok demo_db.
Proof.
  destruct (scan_store demo_scanner demo_fs never_cancel empty_db "/data")
    as [_ Hstore].
  cbv zeta in Hstore. rewrite demo_scan in Hstore. cbn [fst snd] in Hstore.
  destruct Hstore as [[_ [H | H]] | ([_ Hs] & _)]; [done | done |].
  by destruct (Hs empty_db_ok).
Qed.

(** A scan of "/crash" after the scan of "/data", evaluated. *)
Definition demo_crash_db : Database :=
  Eval vm_compute in
    (scan demo_scanner demo_fs never_cancel demo_db "/crash").2.

Lemma demo_crash_scan :
  scan demo_scanner demo_fs never_cancel demo_db "/crash"
  = (Raised (Exn "UnicodeDecodeError" "bad file name"),
     scanner_done demo_scanner false, demo_crash_db).
Proof. vm_compute. reflexivity. Qed.

Lemma unfinished_scan_keeps_dashboard_witness :
  (∀ mp, get_latest_snapshot demo_crash_db mp = get_latest_snapshot demo_db mp)
  ∧ (∀ limit, get_top_growth demo_crash_db limit = get_top_growth demo_db limit).
Proof.
  apply (unfinished_scan_keeps_dashboard demo_scanner demo_fs never_cancel
           demo_db "/crash" (Raised (Exn "UnicodeDecodeError" "bad file name"))
           (scanner_done demo_scanner false) demo_crash_db demo_db_ok
           demo_crash_scan).
  left. by eexists.
Defined.

(** ** Looking up what a scan wrote *)

Section Lookup.
Context (db : Database).

Lemma filter_old_entries (P : Entry.t → Prop) `{∀ e, Decision (P e)} :
  db_ok db →
  filter (fun e => Entry.snapshot_id e = scan_sid db ∧ P e) (entries db) = [].
Proof.
  intros (_ & He & _). rewrite Forall_forall in He.
  apply filter_none. intros e Hin [Hid _]. specialize (He e Hin).
  unfold scan_sid in Hid. lia.
Qed.

Lemma filter_new_entries (P : Entry.t → Prop) `{∀ e, Decision (P e)}
  (written : list Entry.t) :
  Forall (fun e => Entry.snapshot_id e = scan_sid db) written →
  filter (fun e => Entry.snapshot_id e = scan_sid db ∧ P e) written
  = filter P written.
Proof.
  intros Hw. rewrite Forall_forall in Hw. apply filter_ext_in.
  intros e He. specialize (Hw e He). tauto.
Qed.

End Lookup.

Section CompletedLookup.
Context (self : DiskScanner) (fs : FileSystem) (db : Database)
        (mount_point : string) (t : node).

(** The store a scan leaves that ran over the whole walk and completed. *)
Definition completed_store : Database :=
  finish_completed (scan_sid db)
    (run self (scan_sid db) (scan_root fs mount_point)
         (os_walk (scan_root fs mount_point) t)
         (scan_start fs db mount_point)).

Lemma completed_store_entries :
  wf_tree t = true →
  entries completed_store
  = entries db
    ++ map (fun pn => entry_row (scan_sid db)
                        (expected_entry self (scan_root fs mount_point) pn))
           (emitted_nodes self (scan_root fs mount_point)
                          (scan_root fs mount_point) t).
Proof.
  intros Hwf. unfold completed_store.
  destruct (finish_entries db
              (run self (scan_sid db) (scan_root fs mount_point)
                   (os_walk (scan_root fs mount_point) t)
                   (scan_start fs db mount_point))) as (Hent & _).
  rewrite (full_run_rows self fs db mount_point t Hwf) in Hent.
  unfold expected_entries in Hent. by rewrite <- list_fmap_compose in Hent.
Qed.

Lemma completed_store_lookup (q : string) (c : node) :
  db_ok db → wf_tree t = true →
  (q, c) ∈ tree_nodes (scan_root fs mount_point) t →
  get_entry_by_path completed_store (scan_sid db) q
  = if contributes self (scan_root fs mount_point) q c
    then Some (entry_row (scan_sid db)
                 (subtree_entry self (scan_root fs mount_point) q c))
    else None.
Proof.
  intros Hok Hwf Hin. unfold get_entry_by_path.
  rewrite (completed_store_entries Hwf), filter_app.
  rewrite (filter_old_entries db) by done. cbn [app].
  rewrite (filter_new_entries db).
  - apply (row_at_node self (scan_sid db) (scan_root fs mount_point)
                       (scan_root fs mount_point) t q c Hwf Hin).
  - apply Forall_forall. by intros e (pn & -> & _)%list_elem_of_fmap.
Qed.

Lemma completed_store_latest :
  db_ok db →
  Snapshot.id <$> get_latest_snapshot completed_store None
  = Some (scan_sid db).
Proof.
  intros Hok.
  destruct (finish_snapshots self fs db mount_point
              (os_walk (scan_root fs mount_point) t) (Exn "" "") Hok)
    as (Hlt & Hsn & _).
  cbv zeta in Hlt, Hsn.
  destruct (latest_after_completed db completed_store _ _ Hok Hsn eq_refl Hlt
              eq_refl) as (Hget & _).
  by rewrite (Hget None eq_refl).
Qed.

End CompletedLookup.

(** X10.  After a scan of a well-formed tree that returned without a
    cancellation, on a well-formed store, [get_entry_by_path] with the
    id of the new snapshot finds, at the path of every directory of the
    tree that was listed and not excluded, the row with that
    directory's aggregate; at the path of any other node of the tree it
    finds nothing. *)
Theorem completed_scan_rows_are_found
  (self : DiskScanner) (fs : FileSystem) (cancel_req : nat → bool)
  (db : Database) (mount_point : string) (t : node)
  (result_stats : Stats.t) (self' : DiskScanner) (db' : Database) :
  db_ok db →
  dir_at fs (scan_root fs mount_point) = Some t →
  wf_tree t = true →
  scan self fs cancel_req db mount_point = (Returned result_stats, self', db') →
  _cancelled self' = false →
  ∀ q c, (q, c) ∈ tree_nodes (scan_root fs mount_point) t →
    get_entry_by_path db' (scan_sid db) q
    = if contributes self (scan_root fs mount_point) q c
      then Some (entry_row (scan_sid db)
                   (subtree_entry self (scan_root fs mount_point) q c))
      else None.
Proof.
  intros Hok Hdir Hwf Hscan Hc q c Hin.
  destruct (scan_returned_inv self fs cancel_req db mount_point result_stats
              self' db' Hscan Hc) as (t' & Hdir' & _ & ->).
  rewrite Hdir in Hdir'. injection Hdir' as <-.
  by apply (completed_store_lookup self fs db mount_point t).
Qed.

Lemma completed_scan_rows_are_found_witness :
  Entry.size <$> get_entry_by_path demo_db (scan_sid empty_db) "/data/a"
  = Some 16 ∧
  get_entry_by_path demo_db (scan_sid empty_db) "/data/locked" = None.
Proof.
  pose proof (completed_scan_rows_are_found demo_scanner demo_fs never_cancel
                empty_db "/data" demo_tree demo_stats
                (scanner_done demo_scanner false) demo_db empty_db_ok demo_dir
                demo_wf demo_scan eq_refl) as H.
  split.
  - rewrite (H "/data/a"
               (Directory [("x", StatOk 10); ("y", StatOk 5)]
                          [("deep", Directory [("z", StatOk 1)] [])])).
    + vm_compute. reflexivity.
    + in_tree_nodes.
  - rewrite (H "/data/locked"
               (Unlistable (Exn "PermissionError" "Permission denied"))).
    + vm_compute. reflexivity.
    + in_tree_nodes.
Defined.

(** ** The running snapshot *)



(** ** Names and parents of paths *)

(** A path as [os.path.abspath] returns it: not empty, and without a
    trailing separator unless it consists of separators only, as "/"
    does. *)
Definition normalised (p : string) : Prop :=
  p ≠ "" ∧ (Path.ends_with_sep p = false ∨ Path.all_sep p = true).

Section DirnameFacts.

Lemma head_part_no_sep (n : string) :
  Path.has_sep n = false → Path.head_part n = "".
Proof. destruct n as [|c n]; [done|]. cbn [Path.head_part]. by intros ->. Qed.

Lemma basename_no_sep (n : string) :
  Path.has_sep n = false → Path.basename n = n.
Proof. destruct n as [|c n]; [done|]. cbn [Path.basename]. by intros ->. Qed.

Lemma has_sep_app_sep (x y : string) : Path.has_sep (x +:+ "/" +:+ y) = true.
Proof.
  induction x as [|c x IH]; [done|].
  rewrite app_cons. cbn [Path.has_sep]. rewrite IH. apply orb_true_r.
Qed.

Lemma head_part_app_sep (x n : string) :
  Path.has_sep n = false → Path.head_part (x +:+ "/" +:+ n) = x +:+ "/".
Proof.
  intros Hn. induction x as [|c x IH].
  - change ("" +:+ "/" +:+ n) with (String "/" n). cbn [Path.head_part].
    change (Path.has_sep (String "/" n)) with true. cbv iota.
    by rewrite head_part_no_sep.
  - rewrite !(app_cons c x). cbn [Path.head_part].
    change (Path.has_sep (String c (x +:+ "/" +:+ n)))
      with (Ascii.eqb c "/" || Path.has_sep (x +:+ "/" +:+ n)).
    by rewrite has_sep_app_sep, orb_true_r, IH.
Qed.

Lemma basename_app_sep (x n : string) :
  Path.has_sep n = false → Path.basename (x +:+ "/" +:+ n) = n.
Proof.
  intros Hn. induction x as [|c x IH].
  - change ("" +:+ "/" +:+ n) with (String "/" n). cbn [Path.basename].
    change (Path.has_sep (String "/" n)) with true. cbv iota.
    by apply basename_no_sep.
  - rewrite !(app_cons c x). cbn [Path.basename].
    change (Path.has_sep (String c (x +:+ "/" +:+ n)))
      with (Ascii.eqb c "/" || Path.has_sep (x +:+ "/" +:+ n)).
    by rewrite has_sep_app_sep, orb_true_r.
Qed.

Lemma all_sep_snoc (x : string) : Path.all_sep (x +:+ "/") = Path.all_sep x.
Proof.
  induction x as [|c x IH]; [done|].
  rewrite app_cons. cbn [Path.all_sep]. by rewrite IH.
Qed.

Lemma rstrip_sep_snoc (x : string) :
  Path.rstrip_sep (x +:+ "/") = Path.rstrip_sep x.
Proof.
  induction x as [|c x IH]; [done|].
  rewrite app_cons. cbn [Path.rstrip_sep]. rewrite IH.
  change (Path.all_sep (String c (x +:+ "/")))
    with (Ascii.eqb c "/" && Path.all_sep (x +:+ "/")).
  by rewrite all_sep_snoc.
Qed.

Lemma all_sep_ends (x : string) :
  x ≠ "" → Path.all_sep x = true → Path.ends_with_sep x = true.
Proof.
  induction x as [|c x IH]; [done|]. intros _. cbn [Path.all_sep].
  intros [Hc Hx]%andb_true_iff. cbn [Path.ends_with_sep].
  destruct x as [|d x]; [done|]. by apply IH.
Qed.

Lemma rstrip_sep_id (x : string) :
  Path.ends_with_sep x = false → Path.rstrip_sep x = x.
Proof.
  induction x as [|c x IH]; [done|]. intros Hend.
  assert (Path.all_sep (String c x) = false) as Hall.
  { destruct (Path.all_sep (String c x)) eqn:E; [|done].
    apply all_sep_ends in E; [congruence | done]. }
  cbn [Path.rstrip_sep]. rewrite Hall. f_equal.
  destruct x as [|d x]; [done|]. by apply IH.
Qed.

Lemma dirname_app_sep (x n : string) :
  Path.has_sep n = false →
  Path.dirname (x +:+ "/" +:+ n)
  = if Path.all_sep x then x +:+ "/" else Path.rstrip_sep x.
Proof.
  intros Hn. unfold Path.dirname. rewrite head_part_app_sep by done.
  rewrite all_sep_snoc, rstrip_sep_snoc.
  assert (String.eqb (x +:+ "/") "" = false) as ->.
  { apply String.eqb_neq. by destruct x. }
  by destruct (Path.all_sep x).
Qed.

(** The parent of a name joined to a normalised path is that path, and
    its last component is the name. *)
Lemma dirname_join (p n : string) :
  normalised p → wf_name n = true → Path.dirname (Path.join p n) = p.
Proof.
  intros [Hne Hp] Hn. rewrite (join_wf p n Hn).
  apply wf_name_spec in Hn as [_ Hn]. unfold with_sep.
  apply String.eqb_neq in Hne as Hne'. rewrite Hne'. cbn [orb].
  destruct (Path.ends_with_sep p) eqn:Hend.
  - destruct Hp as [? | Hall]; [done|].
    apply ends_with_sep_inv in Hend as [x ->].
    rewrite app_assoc_s, dirname_app_sep by done.
    rewrite all_sep_snoc in Hall. by rewrite Hall.
  - rewrite app_assoc_s, dirname_app_sep by done.
    destruct (Path.all_sep p) eqn:Hall.
    + apply all_sep_ends in Hall; [congruence | done].
    + by apply rstrip_sep_id.
Qed.

Lemma basename_join (p n : string) :
  wf_name n = true → Path.basename (Path.join p n) = n.
Proof.
  intros Hn. rewrite (join_wf p n Hn).
  apply wf_name_spec in Hn as [_ Hn]. unfold with_sep.
  destruct (String.eqb p "") eqn:Hp; cbn [orb].
  { apply String.eqb_eq in Hp as ->. by apply basename_no_sep. }
  destruct (Path.ends_with_sep p) eqn:Hend.
  - apply ends_with_sep_inv in Hend as [x ->].
    rewrite app_assoc_s. by apply basename_app_sep.
  - rewrite app_assoc_s. by apply basename_app_sep.
Qed.

Lemma good_path_normalised (p : string) : good_path p → normalised p.
Proof. intros [? ?]. split; [done | by left]. Qed.

Lemma joins_normalised (base : string) (names : list string) :
  normalised base → Forall (fun n => wf_name n = true) names →
  normalised (joins base names).
Proof.
  intros Hb Hwf. destruct names as [|n names]; [done|].
  by apply good_path_normalised, joins_good.
Qed.

Lemma join_name_inj (p n1 n2 : string) :
  wf_name n1 = true → wf_name n2 = true →
  Path.join p n1 = Path.join p n2 → n1 = n2.
Proof.
  intros H1 H2. rewrite (join_wf p n1 H1), (join_wf p n2 H2).
  apply (inj (String.app (with_sep p))).
Qed.

Lemma joins_not_base (base : string) (names : list string) :
  Forall (fun n => wf_name n = true) names → names ≠ [] →
  joins base names ≠ base.
Proof.
  intros Hwf Hne Heq. pose proof (components_joins base names Hwf) as Hc.
  rewrite Heq in Hc. apply (f_equal length) in Hc. rewrite length_app in Hc.
  destruct names; [done | simpl in Hc; lia].
Qed.

Lemma get_depth_joins_all (base : string) (names : list string) :
  Forall (fun n => wf_name n = true) names →
  _get_depth (joins base names) base = Z.of_nat (length names).
Proof.
  intros Hwf. destruct names as [|n names].
  - unfold _get_depth, joins. simpl. by rewrite String.eqb_refl.
  - by apply get_depth_joins.
Qed.

End DirnameFacts.

(** ** The rows of a completed scan form a tree *)

Section ParentFacts.
Context (self : DiskScanner) (sid : Z) (mount_point : string).

Local Abbreviation wf_names := (Forall (fun n => wf_name n = true)).

Lemma add_children_static top subdirs :
  ∀ e, de_static (foldl (add_child self mount_point top) e subdirs)
       = de_static e.
Proof.
  induction subdirs as [|sub subdirs IH]; intros e; [done|].
  cbn [foldl]. rewrite IH. unfold add_child.
  by destruct (contributes self mount_point (Path.join top sub.1) sub.2).
Qed.

Lemma subtree_entry_static top n :
  de_static (subtree_entry self mount_point top n)
  = de_static (new_dir_entry top mount_point (_get_depth top mount_point)).
Proof.
  destruct n as [files subdirs| | |]; try done.
  by rewrite subtree_entry_dir, add_children_static.
Qed.

(** The fields of the row of a directory that say where it is. *)
Lemma row_fields top n :
  let e := entry_row sid (subtree_entry self mount_point top n) in
  Entry.path e = top ∧
  Entry.depth e = _get_depth top mount_point ∧
  Entry.name e = (let b := Path.basename top in
                  if String.eqb b "" then top else b) ∧
  Entry.parent_path e = (if String.eqb top mount_point then None
                         else Some (Path.dirname top)).
Proof.
  pose proof (subtree_entry_static top n) as Hs.
  unfold de_static in Hs. cbn [new_dir_entry de_path de_name de_depth
    de_parent_path de_is_dir] in Hs.
  injection Hs as Hp Hn Hd Hpp _.
  cbv zeta. cbn [entry_row Entry.path Entry.depth Entry.name
    Entry.parent_path].
  by rewrite Hp, Hn, Hd, Hpp.
Qed.

(** Every node but the first is a subdirectory of a listed directory of
    the tree. *)
Lemma tree_nodes_parent (t : node) :
  ∀ names pn, wf_names names → wf_tree t = true →
    pn ∈ tree_nodes (joins mount_point names) t →
    pn = (joins mount_point names, t) ∨
    ∃ names' n files subdirs,
      wf_names names' ∧ wf_name n = true ∧
      pn.1 = Path.join (joins mount_point names') n ∧
      (joins mount_point names', Directory files subdirs)
        ∈ tree_nodes (joins mount_point names) t ∧
      (n, pn.2) ∈ subdirs.
Proof.
  induction t as [files subdirs IH|e| |e] using node_ind;
    intros names pn Hwf Hwt Hpn; simpl in Hpn;
    try (apply list_elem_of_singleton in Hpn as ->; by left).
  apply elem_of_cons in Hpn as [-> | Hpn]; [by left|]. right.
  apply elem_of_flat_map in Hpn as (sub & Hsub & Hpn).
  pose proof Hwt as (Hnames & _ & Hsubs)%wf_tree_dir.
  rewrite Forall_forall in IH, Hnames, Hsubs.
  rewrite <- joins_snoc in Hpn.
  assert (wf_names (names ++ [sub.1])) as Hwf'.
  { apply Forall_app. split; [done|]. apply Forall_singleton. auto. }
  destruct (IH sub Hsub (names ++ [sub.1]) pn Hwf' (Hsubs sub Hsub) Hpn)
    as [-> | (names' & n & files' & subdirs' & Hw & Hn & Hp & Hpar & Hch)].
  - exists names, sub.1, files, subdirs. cbn [fst snd].
    rewrite joins_snoc. repeat split; auto.
    + apply tree_nodes_head.
    + by destruct sub.
  - exists names', n, files', subdirs'. repeat split; auto.
    simpl. right. apply elem_of_flat_map. exists sub. split; [done|].
    by rewrite <- joins_snoc.
Qed.

End ParentFacts.

Section RowTree.
Context (self : DiskScanner) (sid : Z) (root : string) (t : node).

Local Abbreviation written :=
  (map (fun pn => entry_row sid (expected_entry self root pn))
       (emitted_nodes self root root t)).

(** The row of a subdirectory that got one names its parent, whose row
    was written as well. *)
Lemma child_row_fields (names : list string) (n : string) (c : node)
  (files : list (string * lstat_result)) (subdirs : list (string * node)) :
  normalised root → _should_skip self root = false → wf_tree t = true →
  Forall (fun n => wf_name n = true) names → wf_name n = true →
  (joins root names, Directory files subdirs) ∈ tree_nodes root t →
  (n, c) ∈ subdirs →
  contributes self root (Path.join (joins root names) n) c = true →
  let e := entry_row sid
             (subtree_entry self root (Path.join (joins root names) n) c) in
  let p := entry_row sid
             (subtree_entry self root (joins root names)
                            (Directory files subdirs)) in
  e ∈ written ∧ p ∈ written ∧
  Entry.path e = Path.join (joins root names) n ∧
  Entry.path p = joins root names ∧
  Entry.parent_path e = Some (joins root names) ∧
  Entry.name e = n ∧
  Entry.depth e = Entry.depth p + 1.
Proof.
  intros Hroot Hskip Hwf Hnames Hn Hpar Hch Hc. cbv zeta.
  assert (Forall (fun n => wf_name n = true) (names ++ [n])) as Hnames'.
  { apply Forall_app. split; [done|]. by apply Forall_singleton. }
  assert ((Path.join (joins root names) n, c) ∈ tree_nodes root t) as Hin.
  { by apply (tree_nodes_child t root (joins root names) files subdirs (n, c)). }
  assert (emitted self root (joins root names) = true) as Hem.
  { destruct names as [|m names]; [by apply root_emitted|].
    destruct (emitted self root (joins root (m :: names))) eqn:E; [done|].
    apply (emitted_child_closed self root (m :: names) n) in E; try done.
    unfold contributes in Hc. apply andb_true_iff in Hc as [_ Hc].
    congruence. }
  destruct (row_fields self sid root (Path.join (joins root names) n) c)
    as (E1 & E2 & E3 & E4).
  destruct (row_fields self sid root (joins root names)
              (Directory files subdirs)) as (P1 & P2 & _).
  cbv zeta in E1, E2, E3, E4, P1, P2.
  split; [|split].
  - apply list_elem_of_fmap.
    exists (Path.join (joins root names) n, c). split; [done|].
    by apply emitted_iff.
  - apply list_elem_of_fmap.
    exists (joins root names, Directory files subdirs). split; [done|].
    apply emitted_iff. split; [done|]. unfold contributes. cbn [fst snd].
    by rewrite Hem.
  - rewrite E1, E2, E3, E4, P1, P2.
    rewrite basename_join, dirname_join by (done || by apply joins_normalised).
    rewrite <- joins_snoc, !get_depth_joins_all by done.
    assert (String.eqb (joins root (names ++ [n])) root = false) as ->.
    { apply String.eqb_neq, joins_not_base; [done | by destruct names]. }
    assert (String.eqb n "" = false) as ->.
    { apply String.eqb_neq. by apply wf_name_spec in Hn as [? _]. }
    rewrite length_app. cbn [length]. repeat split; try done. lia.
Qed.

End RowTree.

(** X12.  After a scan of a well-formed tree that returned without a
    cancellation, with a normalised mount point that is not excluded,
    the rows written form a tree: the row of the mount point has no
    parent and depth 0, and every other row names as its parent the
    path of another row written by the same scan, lies one level below
    it, and its path is that parent path joined with its own name. *)
Theorem completed_rows_link_to_parents
  (self : DiskScanner) (fs : FileSystem) (cancel_req : nat → bool)
  (db : Database) (mount_point : string) (t : node)
  (result_stats : Stats.t) (self' : DiskScanner) (db' : Database) :
  dir_at fs (scan_root fs mount_point) = Some t →
  wf_tree t = true →
  normalised (scan_root fs mount_point) →
  _should_skip self (scan_root fs mount_point) = false →
  scan self fs cancel_req db mount_point = (Returned result_stats, self', db') →
  _cancelled self' = false →
  ∃ written,
    entries db' = entries db ++ written ∧
    ∀ e, e ∈ written →
      (Entry.path e = scan_root fs mount_point ∧
       Entry.parent_path e = None ∧ Entry.depth e = 0)
      ∨ ∃ p, p ∈ written ∧
             Entry.parent_path e = Some (Entry.path p) ∧
             Entry.depth e = Entry.depth p + 1 ∧
             wf_name (Entry.name e) = true ∧
             Entry.path e = Path.join (Entry.path p) (Entry.name e).
Proof.
  intros Hdir Hwf Hroot Hskip Hscan Hc.
  destruct (scan_returned_inv self fs cancel_req db mount_point result_stats
              self' db' Hscan Hc) as (t' & Hdir' & _ & ->).
  rewrite Hdir in Hdir'. injection Hdir' as <-.
  destruct (finish_entries db
              (run self (scan_sid db) (scan_root fs mount_point)
                   (os_walk (scan_root fs mount_point) t)
                   (scan_start fs db mount_point))) as (Hent & _).
  rewrite (full_run_rows self fs db mount_point t Hwf) in Hent.
  unfold expected_entries in Hent. rewrite <- list_fmap_compose in Hent.
  eexists. split; [exact Hent|].
  intros e (pn & -> & Hpn)%list_elem_of_fmap.
  apply emitted_iff in Hpn as [Hin Hcon]. destruct pn as [q c].
  cbn [fst snd] in Hcon.
  destruct (tree_nodes_parent (scan_root fs mount_point) t [] (q, c)
              (Forall_nil_2 _) Hwf Hin)
    as [Heq | (names & n & files & subdirs & Hnames & Hn & Hq & Hpar & Hch)].
  - left. injection Heq as -> ->.
    destruct (row_fields self (scan_sid db) (scan_root fs mount_point)
                (scan_root fs mount_point) t) as (E1 & E2 & _ & E4).
    cbv zeta in E1, E2, E4. unfold compose, expected_entry. cbn [fst snd].
    rewrite E1, E2, E4, String.eqb_refl.
    repeat split. unfold _get_depth. by rewrite String.eqb_refl.
  - right. cbn [fst snd] in Hq, Hch. subst q.
    destruct (child_row_fields self (scan_sid db) (scan_root fs mount_point) t
                names n c files subdirs Hroot Hskip Hwf Hnames Hn Hpar Hch Hcon)
      as (_ & Hp & E1 & P1 & E4 & E3 & E2).
    cbv zeta in Hp, E1, P1, E4, E3, E2.
    eexists. split; [exact Hp|]. unfold compose, expected_entry.
    cbn [fst snd]. rewrite E4, E3, E2, E1, P1. by repeat split.
Qed.

Lemma demo_root_normalised : normalised (scan_root demo_fs "/data").
Proof. split; [done | by left]. Qed.

Lemma completed_rows_link_to_parents_witness :
  ∃ written,
    entries demo_db = entries empty_db ++ written ∧
    ∀ e, e ∈ written →
      (Entry.path e = scan_root demo_fs "/data" ∧
       Entry.parent_path e = None ∧ Entry.depth e = 0)
      ∨ ∃ p, p ∈ written ∧
             Entry.parent_path e = Some (Entry.path p) ∧
             Entry.depth e = Entry.depth p + 1 ∧
             wf_name (Entry.name e) = true ∧
             Entry.path e = Path.join (Entry.path p) (Entry.name e).
Proof.
  exact (completed_rows_link_to_parents demo_scanner demo_fs never_cancel
           empty_db "/data" demo_tree demo_stats
           (scanner_done demo_scanner false) demo_db demo_dir demo_wf
           demo_root_normalised demo_root_kept demo_scan eq_refl).
Defined.

(** ** Listing the children of a directory *)

(** The rows of the subdirectories of the directory at [p] that were
    listed and not excluded, in listing order. *)
Definition rows_of_children (self : DiskScanner) (sid : Z) (root p : string)
  (subdirs : list (string * node)) : list Entry.t :=
  omap (fun sub : string * node =>
          if contributes self root (Path.join p sub.1) sub.2
          then Some (entry_row sid
                       (subtree_entry self root (Path.join p sub.1) sub.2))
          else None)
       subdirs.

Section Children.
Context (self : DiskScanner) (sid : Z) (root : string) (t : node).

Local Abbreviation written :=
  (map (fun pn => entry_row sid (expected_entry self root pn))
       (emitted_nodes self root root t)).

Lemma written_nodup : wf_tree t = true → NoDup written.
Proof.
  intros Hwf. apply (NoDup_fmap_1 Entry.path).
  rewrite <- list_fmap_compose.
  assert ((Entry.path
           ∘ (fun pn => entry_row sid (expected_entry self root pn)))
            <$> emitted_nodes self root root t
          = fst <$> emitted_nodes self root root t) as ->.
  { apply list_fmap_ext. intros i [q c] _. apply subtree_entry_path. }
  by apply emitted_paths_nodup.
Qed.

Lemma rows_of_children_nodup (p : string) (subdirs : list (string * node)) :
  Forall (fun sub : string * node => wf_name sub.1 = true) subdirs →
  NoDup (map fst subdirs) →
  NoDup (rows_of_children self sid root p subdirs).
Proof.
  unfold rows_of_children.
  induction subdirs as [|sub subdirs IH]; intros Hwf Hnd; [constructor|].
  apply Forall_cons in Hwf as [Hn Hwf]. cbn [map] in Hnd.
  apply NoDup_cons in Hnd as [Hfresh Hnd]. cbn [omap list_omap].
  destruct (contributes self root (Path.join p sub.1) sub.2);
    [|by apply IH].
  apply NoDup_cons. split; [|by apply IH].
  intros (sub' & Hsub' & Hrow)%list_elem_of_omap. apply Hfresh.
  destruct (contributes self root (Path.join p sub'.1) sub'.2); [|done].
  apply (inj Some) in Hrow. apply (f_equal Entry.path) in Hrow.
  cbn [entry_row Entry.path] in Hrow. rewrite !subtree_entry_path in Hrow.
  rewrite Forall_forall in Hwf.
  apply join_name_inj in Hrow; [|by apply Hwf|done].
  rewrite <- Hrow. by apply (list_elem_of_fmap_2 fst).
Qed.

(** Among the rows written, those that name [p] as their parent are the
    rows of the subdirectories of [p]. *)
Lemma children_by_parent (p : string) (files : list (string * lstat_result))
  (subdirs : list (string * node)) (e : Entry.t) :
  normalised root → _should_skip self root = false → wf_tree t = true →
  (p, Directory files subdirs) ∈ tree_nodes root t →
  e ∈ written ∧ Entry.parent_path e = Some p
  ↔ e ∈ rows_of_children self sid root p subdirs.
Proof.
  intros Hroot Hskip Hwf Hp.
  assert (NoDup (map fst (tree_nodes root t))) as Hnd.
  { rewrite tree_nodes_paths. by apply all_paths_nodup. }
  unfold rows_of_children. rewrite list_elem_of_omap. split.
  - intros [(pn & -> & Hpn)%list_elem_of_fmap Hpar].
    apply emitted_iff in Hpn as [Hin Hcon]. destruct pn as [q c].
    cbn [fst snd] in Hcon. unfold expected_entry in *. cbn [fst snd] in *.
    destruct (tree_nodes_parent root t [] (q, c) (Forall_nil_2 _) Hwf Hin)
      as [Heq | (names & n & files' & subdirs' & Hnames & Hn & Hq & Hpn & Hch)].
    + injection Heq as -> ->.
      destruct (row_fields self sid root root t) as (_ & _ & _ & E4).
      cbv zeta in E4. rewrite E4, String.eqb_refl in Hpar. done.
    + cbn [fst snd] in Hq, Hch. subst q.
      destruct (child_row_fields self sid root t names n c files' subdirs'
                  Hroot Hskip Hwf Hnames Hn Hpn Hch Hcon)
        as (_ & _ & _ & _ & E4 & _).
      cbv zeta in E4. rewrite E4 in Hpar. injection Hpar as Hpar.
      rewrite Hpar in Hpn, Hcon |- *.
      pose proof (NoDup_fst_inj (tree_nodes root t) p _ _ Hnd Hp Hpn) as Heq.
      injection Heq as -> ->.
      exists (n, c). split; [done|]. cbn [fst snd]. by rewrite Hcon.
  - intros ([n c] & Hch & Hrow). cbn [fst snd] in Hrow.
    destruct (contributes self root (Path.join p n) c) eqn:Hcon; [|done].
    injection Hrow as <-.
    destruct (tree_nodes_joins root t [] (p, Directory files subdirs)
                (Forall_nil_2 _) Hwf Hp)
      as (names & Hnames & Hpj & Hwfp).
    cbn [fst snd] in Hpj, Hwfp. subst p.
    apply wf_tree_dir in Hwfp as (Hwn & _). rewrite Forall_forall in Hwn.
    destruct (child_row_fields self sid root t names n c files subdirs
                Hroot Hskip Hwf Hnames (Hwn (n, c) Hch) Hp Hch Hcon)
      as (He & _ & _ & _ & E4 & _).
    by cbv zeta in He, E4.
Qed.

End Children.

Section CompletedChildren.
Context (self : DiskScanner) (fs : FileSystem) (db : Database)
        (mount_point : string) (t : node).

Lemma completed_store_children (p : string)
  (files : list (string * lstat_result)) (subdirs : list (string * node)) :
  db_ok db → wf_tree t = true →
  normalised (scan_root fs mount_point) →
  _should_skip self (scan_root fs mount_point) = false →
  (p, Directory files subdirs) ∈ tree_nodes (scan_root fs mount_point) t →
  get_entries (completed_store self fs db mount_point t) (scan_sid db)
              (Some p) None
  ≡ₚ rows_of_children self (scan_sid db) (scan_root fs mount_point) p subdirs.
Proof.
  intros Hok Hwf Hroot Hskip Hp.
  unfold get_entries.
  rewrite sort_desc_perm, (completed_store_entries self fs db mount_point t Hwf),
    filter_app.
  rewrite (filter_old_entries db) by done. cbn [app].
  pose proof (written_nodup self (scan_sid db) (scan_root fs mount_point) t Hwf)
    as Hnd.
  destruct (tree_nodes_joins (scan_root fs mount_point) t []
              (p, Directory files subdirs) (Forall_nil_2 _) Hwf Hp)
    as (_ & _ & _ & Hwfp).
  cbn [snd] in Hwfp. apply wf_tree_dir in Hwfp as (Hwn & Hndn & _).
  apply NoDup_Permutation.
  - by apply NoDup_filter.
  - by apply rows_of_children_nodup.
  - intros e.
    rewrite <- (children_by_parent self (scan_sid db) (scan_root fs mount_point)
                  t p files subdirs e Hroot Hskip Hwf Hp).
    rewrite list_elem_of_filter. unfold entry_selected.
    rewrite andb_true_r, bool_decide_eq_true. split.
    + by intros [[_ ?] ?].
    + intros [He Hpar]. split; [|done]. split; [|done].
      by apply list_elem_of_fmap in He as (pn & -> & _).
Qed.

End CompletedChildren.

(** X13.  After a scan of a well-formed tree that returned without a
    cancellation, on a well-formed store and with a normalised mount
    point that is not excluded, [get_entries] asked for the rows of the
    new snapshot whose parent is a listed directory of the tree
    returns exactly the rows of that directory's subdirectories that
    were listed and not excluded, each once, largest first. *)
Theorem completed_scan_lists_children
  (self : DiskScanner) (fs : FileSystem) (cancel_req : nat → bool)
  (db : Database) (mount_point : string) (t : node)
  (result_stats : Stats.t) (self' : DiskScanner) (db' : Database) :
  db_ok db →
  dir_at fs (scan_root fs mount_point) = Some t →
  wf_tree t = true →
  normalised (scan_root fs mount_point) →
  _should_skip self (scan_root fs mount_point) = false →
  scan self fs cancel_req db mount_point = (Returned result_stats, self', db') →
  _cancelled self' = false →
  ∀ p files subdirs,
    (p, Directory files subdirs) ∈ tree_nodes (scan_root fs mount_point) t →
    get_entries db' (scan_sid db) (Some p) None
    ≡ₚ rows_of_children self (scan_sid db) (scan_root fs mount_point) p
                        subdirs
    ∧ StronglySorted (fun a b => Entry.size b ≤ Entry.size a)
                     (get_entries db' (scan_sid db) (Some p) None).
Proof.
  intros Hok Hdir Hwf Hroot Hskip Hscan Hc p files subdirs Hp.
  split; [|apply sort_desc_sorted].
  destruct (scan_returned_inv self fs cancel_req db mount_point result_stats
              self' db' Hscan Hc) as (t' & Hdir' & _ & ->).
  rewrite Hdir in Hdir'. injection Hdir' as <-.
  by apply (completed_store_children self fs db mount_point t p files).
Qed.

Lemma completed_scan_lists_children_witness :
  map Entry.path (get_entries demo_db (scan_sid empty_db) (Some "/data") None)
  ≡ₚ ["/data/a"; "/data/tmp"].
Proof.
  destruct (completed_scan_lists_children demo_scanner demo_fs never_cancel
              empty_db "/data" demo_tree demo_stats
              (scanner_done demo_scanner false) demo_db empty_db_ok demo_dir
              demo_wf demo_root_normalised demo_root_kept demo_scan eq_refl
              "/data" (node_files demo_tree) (node_subdirs demo_tree))
    as [Hperm _].
  - in_tree_nodes.
  - rewrite Hperm. vm_compute. reflexivity.
Defined.

(** ** Retention *)




(** ** Browsing a snapshot ([server.py], lines 211-238) *)

(** What a route answers: its value, or the [HTTPException] it raises. *)
Inductive http (A : Type) :=
| HttpOk (a : A)
| HttpError (status : Z) (detail : string).
Arguments HttpOk {A} a.
Arguments HttpError {A} status detail.

(** The dictionary [browse_directory] returns. *)
Record browse_view := BrowseView {
  bv_current : Entry.t;
  bv_children : list Entry.t;
  bv_snapshot_id : Z
}.

(** [browse_directory(path, snapshot_id)]; the query's default for
    [path] is "/". *)
Definition browse_directory (db : Database) (path : string)
  (snapshot_id : option Z) : http browse_view :=
  let chosen :=
    match snapshot_id with
    | Some sid => Some sid
    | None => Snapshot.id <$> get_latest_snapshot db None
    end in
  match chosen with
  | None => HttpError 404 "No snapshots available"
  | Some sid =>
    match get_entry_by_path db sid path with
    | None => HttpError 404 ("Path not found: " +:+ path)
    | Some entry =>
      HttpOk (BrowseView entry (get_entries db sid (Some path) None) sid)
    end
  end.

Section BrowseFacts.
Context (self : DiskScanner) (sid : Z) (root : string).

Lemma Zsum_perm (l k : list Z) : l ≡ₚ k → Zsum l = Zsum k.
Proof.
  unfold Zsum. induction 1 as [|x l k _ IH|x y l|l k m _ IH1 _ IH2];
    simpl; lia.
Qed.

(** The sums of lines 153-159, over the rows of the children. *)
Lemma rows_of_children_sum (p : string) (subdirs : list (string * node)) :
  ∀ e,
    let e' := foldl (add_child self root p) e subdirs in
    let kids := rows_of_children self sid root p subdirs in
    de_size e' = de_size e + Zsum (map Entry.size kids) ∧
    de_file_count e' = de_file_count e + Zsum (map Entry.file_count kids).
Proof.
  induction subdirs as [|sub subdirs IH]; intros e.
  { unfold Zsum. simpl. lia. }
  cbv zeta. cbn [foldl]. unfold rows_of_children. cbn [omap list_omap].
  fold (rows_of_children self sid root p subdirs).
  destruct (IH (add_child self root p e sub)) as (Hs & Hf).
  cbv zeta in Hs, Hf. rewrite Hs, Hf. unfold add_child.
  destruct (contributes self root (Path.join p sub.1) sub.2); [|done].
  unfold Zsum, de_add.
  cbn [map foldr de_size de_file_count entry_row Entry.size Entry.file_count].
  lia.
Qed.

End BrowseFacts.

(** X15.  After a scan of a well-formed tree that returned without a
    cancellation, on a well-formed store and with a normalised mount
    point that is not excluded, browsing without naming a snapshot
    shows the new one.  At the path of a listed directory that was not
    excluded the answer holds that directory's row and, as children,
    exactly the rows of its subdirectories that were listed and not
    excluded; the size and the file count of the row are those of the
    files directly inside plus those of the children shown.  At the
    path of any other node of the tree the answer is the error 404
    "Path not found". *)
Theorem browse_shows_directory_and_children
  (self : DiskScanner) (fs : FileSystem) (cancel_req : nat → bool)
  (db : Database) (mount_point : string) (t : node)
  (result_stats : Stats.t) (self' : DiskScanner) (db' : Database) :
  db_ok db →
  dir_at fs (scan_root fs mount_point) = Some t →
  wf_tree t = true →
  normalised (scan_root fs mount_point) →
  _should_skip self (scan_root fs mount_point) = false →
  scan self fs cancel_req db mount_point = (Returned result_stats, self', db') →
  _cancelled self' = false →
  (∀ q files subdirs,
     (q, Directory files subdirs) ∈ tree_nodes (scan_root fs mount_point) t →
     emitted self (scan_root fs mount_point) q = true →
     ∃ current kids,
       browse_directory db' q None
       = HttpOk (BrowseView current kids (scan_sid db)) ∧
       Entry.path current = q ∧
       kids ≡ₚ rows_of_children self (scan_sid db) (scan_root fs mount_point)
                                q subdirs ∧
       Entry.size current = own_size files + Zsum (map Entry.size kids) ∧
       Entry.file_count current
       = own_count files + Zsum (map Entry.file_count kids)) ∧
  (∀ q c,
     (q, c) ∈ tree_nodes (scan_root fs mount_point) t →
     contributes self (scan_root fs mount_point) q c = false →
     browse_directory db' q None
     = HttpError 404 ("Path not found: " +:+ q)).
Proof.
  intros Hok Hdir Hwf Hroot Hskip Hscan Hc.
  destruct (scan_returned_inv self fs cancel_req db mount_point result_stats
              self' db' Hscan Hc) as (t' & Hdir' & _ & ->).
  rewrite Hdir in Hdir'. injection Hdir' as <-.
  fold (completed_store self fs db mount_point t).
  pose proof (completed_store_latest self fs db mount_point t Hok) as Hlatest.
  split.
  - intros q files subdirs Hq Hem.
    pose proof (completed_store_lookup self fs db mount_point t q _ Hok Hwf Hq)
      as Hrow.
    unfold contributes in Hrow. cbn [is_walked andb] in Hrow.
    rewrite Hem in Hrow.
    pose proof (completed_store_children self fs db mount_point t q files
                  subdirs Hok Hwf Hroot Hskip Hq) as Hkids.
    eexists _, _. unfold browse_directory. rewrite Hlatest. cbv zeta.
    rewrite Hrow. split; [reflexivity|].
    cbn [entry_row Entry.path Entry.size Entry.file_count].
    split; [apply subtree_entry_path|]. split; [exact Hkids|].
    rewrite (Zsum_perm _ _ (Permutation_map Entry.size Hkids)).
    rewrite (Zsum_perm _ _ (Permutation_map Entry.file_count Hkids)).
    rewrite subtree_entry_dir.
    destruct (rows_of_children_sum self (scan_sid db)
                (scan_root fs mount_point) q subdirs
                (de_add (new_dir_entry q (scan_root fs mount_point)
                           (_get_depth q (scan_root fs mount_point)))
                        (own_size files) (own_count files) 0))
      as (Hs & Hf).
    cbv zeta in Hs, Hf. rewrite Hs, Hf.
    cbn [de_add new_dir_entry de_size de_file_count]. lia.
  - intros q c Hq Hcon.
    pose proof (completed_store_lookup self fs db mount_point t q c Hok Hwf Hq)
      as Hrow.
    rewrite Hcon in Hrow.
    unfold browse_directory. rewrite Hlatest. cbv zeta. by rewrite Hrow.
Qed.

Lemma browse_shows_directory_and_children_witness :
  (∃ current kids,
     browse_directory demo_db "/data/a" None
     = HttpOk (BrowseView current kids (scan_sid empty_db)) ∧
     Entry.size current = 15 + Zsum (map Entry.size kids)) ∧
  browse_directory demo_db "/data/locked" None
  = HttpError 404 "Path not found: /data/locked".
Proof.
  destruct (browse_shows_directory_and_children demo_scanner demo_fs
              never_cancel empty_db "/data" demo_tree demo_stats
              (scanner_done demo_scanner false) demo_db empty_db_ok demo_dir
              demo_wf demo_root_normalised demo_root_kept demo_scan eq_refl)
    as [Hdirs Hnone].
  split.
  - destruct (Hdirs "/data/a" [("x", StatOk 10); ("y", StatOk 5)]
                [("deep", Directory [("z", StatOk 1)] [])])
      as (current & kids & Hb & _ & _ & Hs & _).
    + in_tree_nodes.
    + vm_compute. reflexivity.
    + by exists current, kids.
  - apply (Hnone "/data/locked"
             (Unlistable (Exn "PermissionError" "Permission denied"))).
    + in_tree_nodes.
    + vm_compute. reflexivity.
Defined.

(** ** The growth query after two scans *)

Section GrowthRows.
Context (db : Database).

(** Where a row of the growth query comes from. *)
Lemma top_growth_row_origin (limit : Z) (r : Growth.row) :
  r ∈ get_top_growth db limit →
  ∃ curr prev,
    curr ∈ entries db ∧
    latest db = Some (Entry.snapshot_id curr) ∧
    Entry.is_dir curr = 1 ∧
    r = growth_row curr prev ∧
    0 < Growth.growth r ∧
    match prev with
    | Some row => row ∈ entries db ∧ Entry.path row = Entry.path curr ∧
                  previous db = Some (Entry.snapshot_id row)
    | None => True
    end.
Proof.
  unfold get_top_growth. intros Hr.
  assert (r ∈ sort_desc Growth.growth
            (filter (fun r => 0 < Growth.growth r)
               (map (fun cp : Entry.t * option Entry.t => growth_row cp.1 cp.2)
                  (filter (fun cp : Entry.t * option Entry.t =>
                             latest db = Some (Entry.snapshot_id cp.1)
                             ∧ Entry.is_dir cp.1 = 1)
                          (left_join_previous db))))) as Hin.
  { unfold sql_limit in Hr. destruct (limit <? 0); [done|].
    apply elem_of_take in Hr as (i & Hi & _).
    by apply list_elem_of_lookup_2 in Hi. }
  rewrite list_elem_of_In, (sort_desc_perm Growth.growth),
    <- list_elem_of_In in Hin.
  apply list_elem_of_filter in Hin as [Hpos Hin].
  apply list_elem_of_fmap in Hin as ([curr prev] & -> & Hcp).
  apply list_elem_of_filter in Hcp as [[Hlat Hdir] Hcp].
  cbn [fst snd] in *.
  apply elem_of_flat_map in Hcp as (curr' & Hcurr & Hcp).
  exists curr, prev. unfold join_previous in Hcp.
  destruct (filter _ (entries db)) as [|m ms] eqn:Hf.
  - apply list_elem_of_singleton in Hcp. injection Hcp as -> ->. by repeat split.
  - apply list_elem_of_fmap in Hcp as (row & Heq & Hrow).
    injection Heq as -> ->. rewrite <- Hf in Hrow.
    apply list_elem_of_filter in Hrow as [[Hpath Hprev] Hrow].
    by repeat split.
Qed.

End GrowthRows.

(** X16.  The growth query compares the two snapshots completed last,
    whatever their mount points.  On a well-formed store, after two
    calls of [scan] in a row that returned without a cancellation, the
    second scan's snapshot is the latest and the first scan's the
    previous one; every row the query returns belongs to a directory
    row of the second scan, and its previous size, when it has one, is
    that of a row of the first scan at the same path. *)
Theorem growth_compares_the_last_two_scans
  (self1 self2 : DiskScanner) (fs : FileSystem) (cancel1 cancel2 : nat → bool)
  (db : Database) (mount1 mount2 : string)
  (stats1 stats2 : Stats.t) (self1' self2' : DiskScanner) (db1 db2 : Database) :
  db_ok db →
  scan self1 fs cancel1 db mount1 = (Returned stats1, self1', db1) →
  _cancelled self1' = false →
  scan self2 fs cancel2 db1 mount2 = (Returned stats2, self2', db2) →
  _cancelled self2' = false →
  latest db2 = Some (scan_sid db1) ∧
  previous db2 = Some (scan_sid db) ∧
  scan_sid db1 = scan_sid db + 1 ∧
  ∀ limit r, r ∈ get_top_growth db2 limit →
    ∃ curr prev,
      curr ∈ entries db2 ∧ Entry.snapshot_id curr = scan_sid db1 ∧
      r = growth_row curr prev ∧
      match prev with
      | Some row => row ∈ entries db2 ∧ Entry.snapshot_id row = scan_sid db ∧
                    Entry.path row = Entry.path curr
      | None => True
      end.
Proof.
  intros Hok Hscan1 Hc1 Hscan2 Hc2.
  destruct (scan_store self1 fs cancel1 db mount1) as [_ Hstore].
  cbv zeta in Hstore. rewrite Hscan1 in Hstore. cbn [fst snd] in Hstore.
  destruct (scan_returned_inv self1 fs cancel1 db mount1 stats1 self1' db1
              Hscan1 Hc1) as (t1 & Hdir1 & _ & E1).
  destruct (scan_returned_inv self2 fs cancel2 db1 mount2 stats2 self2' db2
              Hscan2 Hc2) as (t2 & Hdir2 & _ & E2).
  destruct (finish_snapshots self1 fs db mount1
              (os_walk (scan_root fs mount1) t1) (Exn "" "") Hok)
    as (Hlt1 & Hsn1 & _).
  cbv zeta in Hlt1, Hsn1. rewrite <- E1 in Hsn1.
  destruct (latest_after_completed db db1 _ _ Hok Hsn1 eq_refl Hlt1 eq_refl)
    as (_ & Hl1 & _).
  assert (db_ok db1 ∧ seq_snapshots db1 = S (seq_snapshots db)) as [Hok1 Hseq].
  { destruct Hstore as [[_ [H | H]] | ([_ Hs] & Hrun & _)].
    - by rewrite scan_busy in Hscan1.
    - congruence.
    - destruct (Hs Hok) as (Hok1 & _). split; [done|].
      destruct (run_store self1 fs db mount1 (os_walk (scan_root fs mount1) t1))
        as (_ & Hq & _).
      cbv zeta in Hq. rewrite E1. unfold finish_completed, complete_snapshot.
      cbn [seq_snapshots].
      by destruct (insert_batch_counters
                     (st_db (run self1 (scan_sid db) (scan_root fs mount1)
                                 (os_walk (scan_root fs mount1) t1)
                                 (scan_start fs db mount1)))
                     (scan_sid db)
                     (entries_batch
                        (run self1 (scan_sid db) (scan_root fs mount1)
                             (os_walk (scan_root fs mount1) t1)
                             (scan_start fs db mount1)))) as [-> _]. }
  destruct (finish_snapshots self2 fs db1 mount2
              (os_walk (scan_root fs mount2) t2) (Exn "" "") Hok1)
    as (Hlt2 & Hsn2 & _).
  cbv zeta in Hlt2, Hsn2. rewrite <- E2 in Hsn2.
  destruct (latest_after_completed db1 db2 _ _ Hok1 Hsn2 eq_refl Hlt2 eq_refl)
    as (_ & Hl2 & Hp2).
  cbn [Snapshot.id] in Hl1, Hl2. rewrite Hl1 in Hp2.
  split; [done|]. split; [done|]. split.
  { unfold scan_sid. rewrite Hseq. lia. }
  intros limit r Hr.
  destruct (top_growth_row_origin db2 limit r Hr)
    as (curr & prev & Hcurr & Hlat & _ & -> & _ & Hprev).
  exists curr, prev. rewrite Hl2 in Hlat. injection Hlat as Hlat.
  split; [done|]. split; [done|]. split; [done|].
  destruct prev as [row|]; [|done].
  destruct Hprev as (Hrow & Hpath & Hprv). rewrite Hp2 in Hprv.
  injection Hprv as Hprv. by repeat split.
Qed.

(** A scan of "/" after the scan of "/data", evaluated. *)
Definition demo_db2 : Database :=
  Eval vm_compute in (scan demo_scanner demo_fs never_cancel demo_db "/").2.

Definition demo_stats2 : Stats.t :=
  Eval vm_compute in
    match (scan demo_scanner demo_fs never_cancel demo_db "/").1.1 with
    | Returned s => s
    | Raised _ => stats0
    end.

Lemma demo_scan2 :
  scan demo_scanner demo_fs never_cancel demo_db "/"
  = (Returned demo_stats2, scanner_done demo_scanner false, demo_db2).
Proof. vm_compute. reflexivity. Qed.

Lemma growth_compares_the_last_two_scans_witness :
  latest demo_db2 = Some (scan_sid demo_db) ∧
  previous demo_db2 = Some (scan_sid empty_db) ∧
  map Snapshot.mount_point (snapshots demo_db2) = ["/data"; "/"].
Proof.
  destruct (growth_compares_the_last_two_scans demo_scanner demo_scanner
              demo_fs never_cancel never_cancel empty_db "/data" "/"
              demo_stats demo_stats2 (scanner_done demo_scanner false)
              (scanner_done demo_scanner false) demo_db demo_db2
              empty_db_ok demo_scan eq_refl demo_scan2 eq_refl)
    as (H1 & H2 & _).
  split; [exact H1|]. split; [exact H2|]. reflexivity.
Defined.

(** ** Exclusion is inherited *)

Section Inherited.
Context (self : DiskScanner) (mount_point : string).

Lemma should_skip_child (p n : string) :
  good_path p → wf_name n = true →
  _should_skip self p = true → _should_skip self (Path.join p n) = true.
Proof.
  intros Hp Hn (skip & Hin & Hunder)%should_skip_iff.
  apply should_skip_iff. exists skip. split; [done|]. right.
  rewrite (join_good_eq p n Hp Hn).
  destruct Hunder as [-> | [rest ->]].
  - by exists n.
  - exists (rest +:+ "/" +:+ n). by rewrite !app_assoc_s.
Qed.

Lemma emitted_descendant_closed (names more : list string) :
  Forall (fun n => wf_name n = true) names → names ≠ [] →
  Forall (fun n => wf_name n = true) more →
  emitted self mount_point (joins mount_point names) = false →
  emitted self mount_point (joins mount_point (names ++ more)) = false.
Proof.
  intros Hwf Hne Hmore. revert names Hwf Hne.
  induction more as [|m more IH]; intros names Hwf Hne Hem.
  { by rewrite app_nil_r. }
  apply Forall_cons in Hmore as [Hm Hmore].
  replace (names ++ m :: more) with ((names ++ [m]) ++ more)
    by (by rewrite <- app_assoc).
  apply IH; [done | | by destruct names |].
  - apply Forall_app. split; [done|]. by apply Forall_singleton.
  - rewrite joins_snoc. by apply emitted_child_closed.
Qed.

Lemma excluded_root_emits_nothing (t : node) :
  good_path mount_point → _should_skip self mount_point = true →
  wf_tree t = true →
  emitted_nodes self mount_point mount_point t = [].
Proof.
  intros Hroot Hskip Hwf.
  destruct t as [files subdirs| | |]; try done.
  cbn [emitted_nodes].
  assert (emitted self mount_point mount_point = false) as ->.
  { unfold emitted. by rewrite Hskip. }
  rewrite app_nil_r. apply wf_tree_dir in Hwf as (Hnames & _ & Hsubs).
  rewrite Forall_forall in Hnames, Hsubs.
  apply flat_map_nil. intros sub Hsub.
  change (Path.join mount_point sub.1) with (joins mount_point [sub.1]).
  apply emitted_nodes_closed; [| done | by apply Hsubs |].
  - apply Forall_singleton. by apply Hnames.
  - unfold emitted, joins. cbn [foldl].
    rewrite should_skip_child; [done | done | by apply Hnames | done].
Qed.

End Inherited.

(** X17.  What keeps a directory below the mount point from getting a
    row, the exclusion predicate or the depth bound, keeps every
    directory below it from getting one too, however deep; the names on
    the way are names as directory listings report them. *)
Theorem exclusion_is_inherited
  (self : DiskScanner) (mount_point : string) (names more : list string) :
  Forall listed_name names → names ≠ [] →
  Forall listed_name more →
  emitted self mount_point (joins mount_point names) = false →
  emitted self mount_point (joins mount_point (names ++ more)) = false.
Proof.
  intros Hnames%listed_names_wf Hne Hmore%listed_names_wf.
  by apply emitted_descendant_closed.
Qed.

Lemma exclusion_is_inherited_witness :
  emitted demo_scanner "/" "/tmp/cache/old" = false.
Proof.
  apply (exclusion_is_inherited demo_scanner "/" ["tmp"] ["cache"; "old"]).
  - repeat (constructor; [by repeat split|]). constructor.
  - done.
  - repeat (constructor; [by repeat split|]). constructor.
  - vm_compute. reflexivity.
Defined.

(** X18.  A scan whose mount point the exclusion predicate matches, as
    it does every path under "/run" or "/tmp", is not refused: on a
    well-formed tree, with nothing to interrupt it, it returns zero
    totals and completes its snapshot with zero totals, having written
    no entry and no error row. *)
Theorem excluded_mount_point_scans_to_nothing
  (self : DiskScanner) (fs : FileSystem) (cancel_req : nat → bool)
  (db : Database) (mount_point : string) (t : node) :
  _running self = false →
  dir_at fs (scan_root fs mount_point) = Some t →
  wf_tree t = true → crash_free t = true → callback_quiet self →
  (∀ j, cancel_req j = false) →
  good_path (scan_root fs mount_point) →
  _should_skip self (scan_root fs mount_point) = true →
  ∃ db' ended,
    scan self fs cancel_req db mount_point
    = (Returned stats0, scanner_done self false, db') ∧
    entries db' = entries db ∧
    scan_errors db' = scan_errors db ∧
    last (snapshots db')
    = Some (Snapshot.Mk (scan_sid db) (scan_root fs mount_point) (clock db)
                        (Some ended) 0 0 0 completed).
Proof.
  intros Hrun Hdir Hwf Hcf Hq Hc Hroot Hskip.
  pose proof (scan_completes self fs cancel_req db mount_point t Hrun Hdir
                Hcf Hq (fun j _ => Hc j)) as Hscan.
  cbv zeta in Hscan.
  destruct (full_run_post self fs db mount_point t Hwf) as (_ & R & S & M).
  rewrite (excluded_root_emits_nothing self (scan_root fs mount_point) t
             Hroot Hskip Hwf) in R, S, M.
  cbn [map flat_map length] in R, S, M. rewrite app_nil_r in R.
  unfold sum_over in S. cbn [foldr] in S. rewrite stats_add_0 in S.
  change (stats (scan_start fs db mount_point)) with stats0 in S.
  destruct (finish_completed_last self fs db mount_point
              (os_walk (scan_root fs mount_point) t)) as [ended Hlast].
  cbv zeta in Hlast. rewrite S in Hlast, Hscan.
  exists (finish_completed (scan_sid db)
            (run self (scan_sid db) (scan_root fs mount_point)
                 (os_walk (scan_root fs mount_point) t)
                 (scan_start fs db mount_point))), ended.
  split; [exact Hscan|]. split; [|split; [|exact Hlast]].
  - destruct (finish_entries db
                (run self (scan_sid db) (scan_root fs mount_point)
                     (os_walk (scan_root fs mount_point) t)
                     (scan_start fs db mount_point))) as (-> & _).
    rewrite R. unfold rows, scan_start.
    cbn [st_db entries_batch create_snapshot snd entries map].
    by rewrite app_nil_r.
  - unfold finish_completed, complete_snapshot. cbn [scan_errors].
    destruct (insert_batch_snapshots db
                (st_db (run self (scan_sid db) (scan_root fs mount_point)
                            (os_walk (scan_root fs mount_point) t)
                            (scan_start fs db mount_point)))
                (entries_batch
                   (run self (scan_sid db) (scan_root fs mount_point)
                        (os_walk (scan_root fs mount_point) t)
                        (scan_start fs db mount_point)))) as [_ ->].
    pose proof (f_equal (fun m : _ * list ScanError.t * nat * Z => m.1.1.2) M)
      as M2.
    exact M2.
Qed.

(** [demo_tree] mounted below a built-in skip path. *)
Definition tmp_fs : FileSystem :=
  MkFs (fun p => p)
       (fun p => if String.eqb p "/tmp/scratch" then Some demo_tree else None).

Lemma excluded_mount_point_scans_to_nothing_witness :
  ∃ db' ended,
    scan demo_scanner tmp_fs never_cancel empty_db "/tmp/scratch"
    = (Returned stats0, scanner_done demo_scanner false, db') ∧
    entries db' = entries empty_db ∧
    scan_errors db' = scan_errors empty_db ∧
    last (snapshots db')
    = Some (Snapshot.Mk (scan_sid empty_db) (scan_root tmp_fs "/tmp/scratch")
                        (clock empty_db) (Some ended) 0 0 0 completed).
Proof.
  apply (excluded_mount_point_scans_to_nothing demo_scanner tmp_fs
           never_cancel empty_db "/tmp/scratch" demo_tree).
  - reflexivity.
  - reflexivity.
  - exact demo_wf.
  - exact demo_crash_free.
  - exact demo_scanner_quiet.
  - intros j. reflexivity.
  - split; [done | reflexivity].
  - vm_compute. reflexivity.
Defined.

(** ** The history of a path ([models.py], lines 233-248) *)

Module History.
Record row := Mk {
  size : Z;
  file_count : Z;
  dir_count : Z;
  completed_at : option Z;
  snapshot_id : Z
}.
End History.

(** The SELECT list for one row of the join. *)
Definition history_row (e : Entry.t) (s : Snapshot.t) : History.row :=
  History.Mk (Entry.size e) (Entry.file_count e) (Entry.dir_count e)
             (Snapshot.completed_at s) (Snapshot.id s).

(** [s.completed_at >= ?]: a row without end time compares as NULL and
    is not selected. *)
Definition since (cutoff : Z) (s : Snapshot.t) : bool :=
  match Snapshot.completed_at s with
  | Some ended => cutoff <=? ended
  | None => false
  end.

(** [FROM entries e JOIN snapshots s ON e.snapshot_id = s.id] *)
Definition join_snapshots (db : Database) : list (Entry.t * Snapshot.t) :=
  flat_map (fun e => map (pair e)
                         (filter (fun s => Snapshot.id s = Entry.snapshot_id e)
                                 (snapshots db)))
           (entries db).

(** Stable insertion sort, smallest key first. *)
Fixpoint insert_asc {A} (key : A → Z) (x : A) (l : list A) : list A :=
  match l with
  | [] => [x]
  | y :: l' => if key x <=? key y then x :: l else y :: insert_asc key x l'
  end.

Definition sort_asc {A} (key : A → Z) (l : list A) : list A :=
  foldr (insert_asc key) [] l.

(** The store after a query that read the clock and wrote nothing. *)
Definition tick (db : Database) : Database :=
  {| snapshots := snapshots db;
     entries := entries db;
     scan_errors := scan_errors db;
     seq_snapshots := seq_snapshots db;
     clock := clock db + 1 |}.

(** [Database.get_path_history(path, days)]; [day] is the length of a
    day in readings of the clock. *)
Definition get_path_history (day : Z) (db : Database) (path : string)
  (days : Z) : list History.row * Database :=
  let cutoff := clock db - days * day in
  (map (fun es : Entry.t * Snapshot.t => history_row es.1 es.2)
     (sort_asc (fun es : Entry.t * Snapshot.t => completed_key es.2)
        (filter (fun es : Entry.t * Snapshot.t =>
                   Entry.path es.1 = path
                   ∧ Snapshot.status es.2 = completed
                   ∧ since cutoff es.2 = true)
                (join_snapshots db))),
   tick db).


Section SortAsc.
Context {A : Type} (key : A → Z).

Lemma insert_asc_perm (x : A) (l : list A) : insert_asc key x l ≡ₚ x :: l.
Proof.
  induction l as [|y l IH]; simpl; [done|].
  destruct (key x <=? key y); [done|].
  rewrite IH. apply perm_swap.
Qed.

Lemma sort_asc_perm (l : list A) : sort_asc key l ≡ₚ l.
Proof.
  induction l as [|x l IH]; simpl; [done|].
  rewrite insert_asc_perm. by constructor.
Qed.

Lemma insert_asc_sorted (x : A) (l : list A) :
  StronglySorted (fun a b => key a ≤ key b) l →
  StronglySorted (fun a b => key a ≤ key b) (insert_asc key x l).
Proof.
  induction 1 as [|y l Hs IH Hall]; simpl.
  - repeat constructor.
  - destruct (key x <=? key y) eqn:E.
    + apply Z.leb_le in E. constructor; [by constructor|].
      constructor; [exact E|].
      eapply Forall_impl; [exact Hall|]. intros; simpl in *; lia.
    + apply Z.leb_gt in E. constructor; [exact IH|].
      rewrite insert_asc_perm. constructor; [lia | exact Hall].
Qed.

Lemma sort_asc_sorted (l : list A) :
  StronglySorted (fun a b => key a ≤ key b) (sort_asc key l).
Proof.
  induction l as [|x l IH]; simpl; [constructor|].
  by apply insert_asc_sorted.
Qed.



End SortAsc.

Section JoinFacts.
Context (db d : Database).

Lemma elem_of_join_snapshots (e : Entry.t) (s : Snapshot.t) :
  (e, s) ∈ join_snapshots db
  ↔ e ∈ entries db ∧ s ∈ snapshots db ∧ Snapshot.id s = Entry.snapshot_id e.
Proof.
  unfold join_snapshots. rewrite elem_of_flat_map. split.
  - intros (e' & He' & Hin).
    apply list_elem_of_fmap in Hin as (s' & Heq & Hs').
    injection Heq as -> ->.
    apply list_elem_of_filter in Hs' as [Hid Hs']. done.
  - intros (He & Hs & Hid). exists e. split; [done|].
    apply list_elem_of_fmap. exists s. split; [done|].
    by apply list_elem_of_filter.
Qed.



End JoinFacts.

Section CompletedHistory.
Context (self : DiskScanner) (fs : FileSystem) (db : Database)
        (mount_point : string) (t : node).




End CompletedHistory.



Section UnfinishedHistory.
Context (self : DiskScanner) (fs : FileSystem) (cancel_req : nat → bool)
        (db : Database) (mount_point : string).

Lemma unfinished_history outcome self' db' (day : Z) (path : string)
  (days : Z) (r : History.row) :
  db_ok db →
  scan self fs cancel_req db mount_point = (outcome, self', db') →
  (∃ e, outcome = Raised e) ∨ _cancelled self' = true →
  r ∈ (get_path_history day db' path days).1 →
  r ∈ (get_path_history day db path days).1.
Proof.
  intros Hok Hscan Hwhy.
  destruct (scan_unfinished_inv self fs cancel_req db mount_point outcome
              self' db' Hok Hscan Hwhy) as [-> | (s & Hsn & Hst)]; [done|].
  destruct (scan_store self fs cancel_req db mount_point) as [_ Hstore].
  destruct (scan_entries self fs cancel_req db mount_point)
    as (written & Hent & Hkept & _).
  cbv zeta in Hstore, Hent. rewrite Hscan in Hstore, Hent.
  cbn [snd] in Hstore, Hent.
  assert (clock db ≤ clock db') as Hclock.
  { destruct Hstore as [[-> _] | ([_ Hs] & _)]; [done|].
    destruct (Hs Hok) as ((Hs' & _) & s' & ended & Hsn' & _ & _ & _ & Hco & Hlt & _).
    rewrite Forall_forall in Hs'.
    destruct (Hs' s') as (_ & _ & Hend).
    { rewrite Hsn'. apply elem_of_app. right. left. }
    rewrite Hco in Hend. lia. }
  unfold get_path_history. cbn [fst].
  intros ([e s'] & -> & Hes)%list_elem_of_fmap.
  apply list_elem_of_fmap. exists (e, s'). split; [done|].
  rewrite list_elem_of_In, (sort_asc_perm _ _), <- list_elem_of_In in Hes.
  rewrite list_elem_of_In, (sort_asc_perm _ _), <- list_elem_of_In.
  apply list_elem_of_filter in Hes as [(Hpath & Hcomp & Hsince) Hes].
  cbn [fst snd] in *.
  apply elem_of_join_snapshots in Hes as (He & Hs' & Hid).
  rewrite Hsn in Hs'. apply elem_of_app in Hs' as [Hs' | Hs'].
  2:{ apply list_elem_of_singleton in Hs' as ->. congruence. }
  rewrite Hent in He. apply elem_of_app in He as [He | He].
  2:{ rewrite Forall_forall in Hkept. destruct (Hkept e He) as [Hsid _].
      destruct Hok as (Hs & _). rewrite Forall_forall in Hs.
      destruct (Hs s' Hs') as (Hle & _). unfold scan_sid in Hsid. lia. }
  apply list_elem_of_filter. split.
  - cbn [fst snd]. repeat split; [done | done |]. unfold since in *.
    destruct (Snapshot.completed_at s'); [|done].
    apply Z.leb_le in Hsince. apply Z.leb_le. lia.
  - by apply elem_of_join_snapshots.
Qed.

End UnfinishedHistory.

(** X20.  On a well-formed store, a call of [scan] that raises, or that
    returns after a cancellation, adds no point to the history of any
    path: every point of a history asked for after the call was a point
    of the history asked for before it. *)
Theorem unfinished_scan_adds_no_history
  (self : DiskScanner) (fs : FileSystem) (cancel_req : nat → bool)
  (db : Database) (mount_point : string)
  (outcome : result Stats.t) (self' : DiskScanner) (db' : Database) :
  db_ok db →
  scan self fs cancel_req db mount_point = (outcome, self', db') →
  (∃ e, outcome = Raised e) ∨ _cancelled self' = true →
  ∀ day path days r,
    r ∈ (get_path_history day db' path days).1 →
    r ∈ (get_path_history day db path days).1.
Proof.
  intros Hok Hscan Hwhy day path days r.
  by apply (unfinished_history self fs cancel_req db mount_point outcome self'
              db').
Qed.

Lemma unfinished_scan_adds_no_history_witness :
  Forall (fun r => r ∈ (get_path_history 86400 demo_db "/crash/a" 30).1)
         (get_path_history 86400 demo_crash_db "/crash/a" 30).1.
Proof.
  apply Forall_forall. intros r.
  apply (unfinished_scan_adds_no_history demo_scanner demo_fs never_cancel
           demo_db "/crash" (Raised (Exn "UnicodeDecodeError" "bad file name"))
           (scanner_done demo_scanner false) demo_crash_db demo_db_ok
           demo_crash_scan).
  left. by eexists.
Defined.
